(** * The flow execution engine of codeblock-bff

    A shallow embedding of [packages/server/src/api/flows/index.ts]
    (the execute path: [handleExecuteApi], [executeFlow],
    [runFlowExecution], [executeBlock], [executeApiCall],
    [topologicalSort], [resolveInputMappings], [extractJsonPath]), of
    [packages/server/src/utils/response.ts] and of the graph actions of
    [packages/web/src/stores/flowEditor.ts], with the properties the
    specification states about them.

    Modelling conventions.
    - A JavaScript datum is a [value].  The JSON data are modelled in
      full; any other datum the program can come to hold (a function or a
      built-in object reached through a prototype, a number that is no
      integer, an array that was given named properties, an object whose
      prototype an assignment to [__proto__] replaced) is a [VHost]
      value, and what the language leaves to the runtime, or what depends
      on such a value, is asked of the [Host].
    - An object is the list of its own properties in the order
      JavaScript lists them: integer-like names first, in ascending
      order, then the other names in insertion order.  A read of a name
      that is no own property gives the member every object inherits
      from [Object.prototype], if there is one.  The objects the engine
      fills ([inputs], [result], [outputs]) are data like any other: they
      are read with [getProp] and written with [setProp].
    - Strings are held as their UTF-8 bytes, an unpaired surrogate as the
      three bytes of its code point.
    - A JS [Map] read only through [get]/[set] is a [gmap]; the [inDegree]
      map, which the planner iterates, keeps its insertion order.
    - [await], the cache, the document store and the upstream services are
      threaded through a state-and-exception monad over a [World]; a
      step that can throw without touching the world is an [outcome]. *)

From Stdlib Require Import ZArith String Ascii List Bool Lia.
From stdpp Require Import base option list gmap strings pretty.

Import ListNotations.
Local Open Scope string_scope.
Local Open Scope list_scope.
Local Open Scope Z_scope.

(** ** JS data *)

#[warnings="-register-all"]
Inductive value : Type :=
| VUndefined
| VNull
| VBool (b : bool)
| VNum (n : Z)
| VStr (s : string)
| VArr (items : list value)
| VObj (props : list (string * value))
| VHost (ref : string).

(** [Record<string, unknown>]: the own properties. *)
Abbreviation obj := (list (string * value)).

(** A computation returns or throws an [Error] with a message. *)
Inductive outcome (A : Type) : Type :=
| Returns (a : A)
| Throws (reason : string).
Arguments Returns {A} a.
Arguments Throws {A} reason.

#[global] Instance outcome_ret : MRet outcome := fun A a => Returns a.

#[global] Instance outcome_bind : MBind outcome := fun A B f m =>
  match m with
  | Returns a => f a
  | Throws reason => Throws reason
  end.

(** ** The runtime

    What the source leaves to the JavaScript runtime.  [hostGet v k] is
    [v[k]] where [k] is no own property of [v] and [v] is no plain
    object: the prototype chain of an array, a string, a number or a
    boolean, or any property of a [VHost] value (a getter may throw).
    [hostSet v k x] is [v[k] = x] on an array or a [VHost] value, and on
    a plain object when the assignment replaces its prototype, giving
    the datum afterwards.  [hostString] is [String(v)] for the data whose
    text the language does not fix: a [VHost] value, an object with a
    [toString] of its own, an integer beyond 2^53.  [hostJson] is
    [JSON.stringify] on the same data.  [abortTimeout t] is the message
    of the error [AbortSignal.timeout(t)] throws, [None] when it accepts
    the delay.  The three messages are those of the [TypeError] of a read
    from [null] or [undefined], of the [TypeError] of an assignment to a
    property of a primitive (module code is strict), and of the
    [URIError] of [encodeURIComponent]. *)
Record Host := {
  hostGet : value -> string -> outcome value;
  hostSet : value -> string -> value -> outcome value;
  hostString : value -> outcome string;
  hostJson : value -> option string;
  hostTruthy : string -> bool;
  hostIsArray : string -> bool;
  abortTimeout : Z -> option string;
  readNullish : value -> string -> string;
  writePrimitive : value -> string -> string;
  uriMalformed : string
}.

(** An insertion-ordered association: the [Map] the planner iterates and
    [URLSearchParams].  [assoc_set] overwrites in place or appends, as
    [Map.prototype.set] does. *)
Fixpoint assoc_get {V : Type} (k : string) (m : list (string * V)) : option V :=
  match m with
  | [] => None
  | (k', v) :: m' => if String.eqb k' k then Some v else assoc_get k m'
  end.

Fixpoint assoc_set {V : Type} (k : string) (v : V) (m : list (string * V))
  : list (string * V) :=
  match m with
  | [] => [(k, v)]
  | (k', v') :: m' =>
      if String.eqb k' k then (k', v) :: m' else (k', v') :: assoc_set k v m'
  end.

Definition inb (x : string) (l : list string) : bool := existsb (String.eqb x) l.

(** ** Strings *)

Definition is_digit (c : ascii) : bool :=
  let n := nat_of_ascii c in (48 <=? n)%nat && (n <=? 57)%nat.

(** [\w] without the unicode flag: [A-Za-z0-9_]. *)
Definition is_word (c : ascii) : bool :=
  let n := nat_of_ascii c in
  is_digit c
  || ((65 <=? n)%nat && (n <=? 90)%nat)
  || ((97 <=? n)%nat && (n <=? 122)%nat)
  || (n =? 95)%nat.

(** The longest prefix whose characters satisfy [p], and the rest. *)
Fixpoint span (p : ascii -> bool) (s : string) : string * string :=
  match s with
  | EmptyString => (EmptyString, EmptyString)
  | String c s' =>
      if p c then let '(a, b) := span p s' in (String c a, b)
      else (EmptyString, s)
  end.

(** [s.split(sep)] for a one-character separator. *)
Fixpoint split (sep : ascii) (s : string) : list string :=
  match s with
  | EmptyString => [EmptyString]
  | String c s' =>
      if Ascii.eqb c sep then EmptyString :: split sep s'
      else match split sep s' with
           | [] => [String c EmptyString]
           | h :: t => String c h :: t
           end
  end.

(** [parseInt(s, 10)] on a string of decimal digits. *)
Definition parseInt (s : string) : N :=
  fold_left (fun acc c => (10 * acc + N.of_nat (nat_of_ascii c - 48))%N)
            (list_ascii_of_string s) 0%N.

(** An array index: the canonical decimal text of an integer from 0 to
    2^32 - 2. *)
Definition canonical_index (k : string) : option N :=
  match k with
  | EmptyString => None
  | String "0" EmptyString => Some 0%N
  | String "0" _ => None
  | _ => if forallb is_digit (list_ascii_of_string k)
            && (String.length k <=? 10)%nat
            && (parseInt k <=? 4294967294)%N
         then Some (parseInt k)
         else None
  end.

(** Every byte is an ASCII character, so that bytes and UTF-16 code
    units coincide. *)
Definition ascii_only (s : string) : bool :=
  forallb (fun c => (nat_of_ascii c <? 128)%nat) (list_ascii_of_string s).

(** The first two bytes of a surrogate code point, [ED A0..BF]. *)
Definition surrogate_lead (c d : ascii) : bool :=
  (nat_of_ascii c =? 237)%nat
  && (160 <=? nat_of_ascii d)%nat && (nat_of_ascii d <=? 191)%nat.

(** The string holds an unpaired surrogate. *)
Fixpoint has_surrogate (s : string) : bool :=
  match s with
  | String c ((String d _) as rest) => surrogate_lead c d || has_surrogate rest
  | _ => false
  end.

(** The conversion to a [USVString]: every unpaired surrogate becomes
    U+FFFD. *)
Fixpoint toUSV (s : string) : string :=
  match s with
  | String c ((String d ((String _ rest) as r2)) as r1) =>
      if surrogate_lead c d
      then String (ascii_of_nat 239) (String (ascii_of_nat 191)
             (String (ascii_of_nat 189) (toUSV rest)))
      else String c (toUSV r1)
  | String c rest => String c (toUSV rest)
  | EmptyString => EmptyString
  end.

(** ** Own and inherited properties *)

(** The names every object inherits from [Object.prototype]. *)
Definition objectPrototypeNames : list string :=
  ["constructor"; "__defineGetter__"; "__defineSetter__"; "hasOwnProperty";
   "__lookupGetter__"; "__lookupSetter__"; "isPrototypeOf";
   "propertyIsEnumerable"; "toString"; "valueOf"; "__proto__"; "toLocaleString"].

(** What a plain object gives for a name that is no own property. *)
Definition objectMember (k : string) : value :=
  if inb k objectPrototypeNames then VHost ("Object.prototype." +:+ k)
  else VUndefined.

(** [o[k]] on a plain object. *)
Definition obj_get (o : obj) (k : string) : value :=
  match assoc_get k o with
  | Some v => v
  | None => objectMember k
  end.

(** A new integer-like name goes before the first name that is not
    integer-like or is a greater integer. *)
Fixpoint insert_index {V : Type} (i : N) (k : string) (v : V) (o : list (string * V))
  : list (string * V) :=
  match o with
  | [] => [(k, v)]
  | (k', v') :: o' =>
      match canonical_index k' with
      | Some j => if (j <? i)%N then (k', v') :: insert_index i k v o'
                  else (k, v) :: o
      | None => (k, v) :: o
      end
  end.

(** [o[k] = v] on a plain object: an own property is overwritten in
    place; a new one takes its place in the order of the keys.  The
    name [__proto__], when it is no own property, reaches the setter of
    [Object.prototype] and creates no property; whether the setter
    installs a prototype is [replaces_prototype]. *)
Definition obj_set {V : Type} (k : string) (v : V) (o : list (string * V))
  : list (string * V) :=
  match assoc_get k o with
  | Some _ => assoc_set k v o
  | None =>
      if String.eqb k "__proto__" then o
      else match canonical_index k with
           | Some i => insert_index i k v o
           | None => o ++ [(k, v)]
           end
  end.

(** The setter of [Object.prototype.__proto__] installs an object or
    [null] as the prototype and ignores a primitive: after such an
    assignment the reads of the object are no longer those of a plain
    object.  Whether a [VHost] value is an object is the runtime's to
    say. *)
Definition replaces_prototype (o : obj) (k : string) (v : value) : bool :=
  String.eqb k "__proto__"
  && match assoc_get k o with Some _ => false | None => true end
  && match v with
     | VUndefined | VBool _ | VNum _ | VStr _ => false
     | VNull | VArr _ | VObj _ | VHost _ => true
     end.

(** [v === undefined]. *)
Definition is_undefined (v : value) : bool :=
  match v with VUndefined => true | _ => false end.

(** [a[i]] on an array: out of range reads as [undefined]. *)
Definition array_at (items : list value) (i : N) : value :=
  nth (N.to_nat i) items VUndefined.

(** ** The flow definition ([shared/types/flow.ts]) *)

Inductive MappingSource : Type :=
| flow_input (name : option string)
| block_output (blockId : option string) (outputName : option string)
| constant (v : value)
| expression (text : option string).

Record InputMapping := {
  targetInput : string;
  source : MappingSource
}.

Record FlowBlockConfig := {
  timeout : option Z;
  retryCount : option Z;
  continueOnError : option bool
}.

(** [position] is read by the editor only and is left out. *)
Record FlowBlock := {
  fb_id : string;
  fb_blockId : string;
  inputMappings : list InputMapping;
  config : option FlowBlockConfig
}.

(** [condition] is never read by the engine and is left out. *)
Record Connection := {
  conn_id : string;
  fromBlockId : string;
  toBlockId : string
}.

Record FlowInputDefinition := {
  fi_name : string;
  fi_required : bool;
  defaultValue : value
}.

Record FlowOutputDefinition := {
  fo_name : string;
  sourceBlockId : string;
  sourceOutput : string
}.

Inductive ErrorHandling := eh_stop | eh_continue | eh_rollback.

Record FlowConfig := {
  fc_timeout : option Z;
  parallel : option bool;
  errorHandling : option ErrorHandling
}.

Inductive FlowStatus := draft | published | archived.

Record Flow := {
  flow_id : option string;
  slug : string;
  version : Z;
  blocks : list FlowBlock;
  connections : list Connection;
  inputs : list FlowInputDefinition;
  outputs : list FlowOutputDefinition;
  flow_config : FlowConfig;
  status : FlowStatus
}.

(** ** [topologicalSort] *)

(** [inDegree.get(k) || 0]. *)
Definition degree (inDegree : list (string * Z)) (k : string) : Z :=
  match assoc_get k inDegree with
  | Some d => d
  | None => 0
  end.

(** The [// Initialize] loop. *)
Definition initBlock (st : gmap string (list string) * list (string * Z))
    (block : FlowBlock) : gmap string (list string) * list (string * Z) :=
  (<[fb_id block := []]> (fst st), assoc_set (fb_id block) 0 (snd st)).

(** The [// Build graph] loop: [graph.get(from)?.push(to)] does nothing
    when [from] has no entry; the indegree of [to] is raised all the same. *)
Definition addConnection (st : gmap string (list string) * list (string * Z))
    (conn : Connection) : gmap string (list string) * list (string * Z) :=
  let graph := fst st in
  let inDegree := snd st in
  (match graph !! fromBlockId conn with
   | Some succs => <[fromBlockId conn := succs ++ [toBlockId conn]]> graph
   | None => graph
   end,
   assoc_set (toBlockId conn) (degree inDegree (toBlockId conn) + 1) inDegree).

(** The body of [for (const next of graph.get(current) || [])]. *)
Definition relax (st : list (string * Z) * list string) (next : string)
  : list (string * Z) * list string :=
  let newDegree := degree (fst st) next - 1 in
  (assoc_set next newDegree (fst st),
   if newDegree =? 0 then snd st ++ [next] else snd st).

Record KahnState := {
  queue : list string;
  inDegree : list (string * Z);
  result : list string
}.

(** The [while (queue.length > 0)] loop; [fuel] bounds the iterations
    ([kahn_exits] shows the bound used by [topologicalSort] is enough). *)
Fixpoint kahn (fuel : nat) (graph : gmap string (list string)) (st : KahnState)
  : KahnState :=
  match fuel with
  | O => st
  | S fuel' =>
      match queue st with
      | [] => st
      | current :: rest =>
          let '(deg, q) :=
            fold_left relax (default [] (graph !! current)) (inDegree st, rest) in
          kahn fuel' graph
               {| queue := q; inDegree := deg; result := result st ++ [current] |}
      end
  end.

Definition buildGraph (blocks : list FlowBlock) (connections : list Connection)
  : gmap string (list string) * list (string * Z) :=
  fold_left addConnection connections (fold_left initBlock blocks (∅, [])).

(** [for (const [blockId, degree] of inDegree) if (degree === 0) queue.push(blockId)]. *)
Definition initialQueue (inDegree : list (string * Z)) : list string :=
  map fst (List.filter (fun kd => snd kd =? 0) inDegree).

Definition kahnStart (blocks : list FlowBlock) (connections : list Connection)
  : KahnState :=
  let inDeg := snd (buildGraph blocks connections) in
  {| queue := initialQueue inDeg; inDegree := inDeg; result := [] |}.

Definition kahnRun (blocks : list FlowBlock) (connections : list Connection)
  : KahnState :=
  kahn (List.length (snd (buildGraph blocks connections)))
       (fst (buildGraph blocks connections))
       (kahnStart blocks connections).

Definition topologicalSort (blocks : list FlowBlock) (connections : list Connection)
  : list string :=
  result (kahnRun blocks connections).

(** ** Block definitions and execution records ([shared/types]) *)

Inductive BlockType := api_call | transform | condition | loop | aggregate | custom.

Definition blockTypeName (t : BlockType) : string :=
  match t with
  | api_call => "api_call"
  | transform => "transform"
  | condition => "condition"
  | loop => "loop"
  | aggregate => "aggregate"
  | custom => "custom"
  end.

Inductive ParamIn := in_path | in_query | in_header | in_body.

Record InputDefinition := {
  in_name : string;
  in_in : ParamIn;
  in_required : bool
}.

Record OutputDefinition := {
  out_name : string;
  out_path : string
}.

Record BlockSource := {
  src_path : string;
  method : string;
  serverUrl : option string
}.

Record Block := {
  block_type : BlockType;
  block_source : BlockSource;
  block_inputs : list InputDefinition;
  block_outputs : list OutputDefinition
}.

Inductive ExecutionStatus := success | failure | partial.

Record RawResponse := {
  statusCode : Z;
  data : value;
  raw_headers : list (string * string)
}.

Record BlockExecutionError := {
  message : string;
  code : option string
}.

Record BlockExecutionResult := {
  be_status : ExecutionStatus;
  be_outputs : option value;
  rawResponse : option RawResponse;
  be_error : option BlockExecutionError
}.

(** [inputs] is whatever the request body parsed to. *)
Record ExecutionContext := {
  ctx_flowId : string;
  ctx_inputs : value;
  variables : obj;
  blockResults : gmap string BlockExecutionResult
}.

Record RunError := {
  err_message : string;
  err_blockId : option string
}.

(** What [runFlowExecution] resolves to. *)
Record RunResult := {
  run_outputs : option value;
  run_error : option RunError
}.

(** The durable log document; the [performance] timestamps and the [ip]
    and [userAgent] copies of two request headers are left out. *)
Record ExecutionLog := {
  log_flowId : string;
  flowVersion : Z;
  log_inputs : value;
  log_headers : list (string * string);
  log_status : ExecutionStatus;
  log_outputs : option value;
  log_error : option RunError;
  blockExecutions : list string
}.

(** ** The upstream call *)

(** The argument of [fetch]: [fetch_body] is the datum handed to
    [JSON.stringify]; [signal] the delay [AbortSignal.timeout] accepted. *)
Record FetchRequest := {
  url : string;
  fetch_method : string;
  fetch_headers : list (string * string);
  fetch_body : option value;
  signal : option Z
}.

(** What [response.json()] does. *)
Inductive BodyParse := JsonBody (v : value) | NotJson (reason : string).

Record FetchResponse := {
  resp_status : Z;
  resp_headers : list (string * string);
  resp_body : BodyParse
}.

(** [response.ok]. *)
Definition ok (r : FetchResponse) : bool :=
  (200 <=? resp_status r) && (resp_status r <=? 299).

(** [fetch] rejects (a request it refuses, transport failure, abort by
    the signal) or resolves. *)
Inductive FetchOutcome := Rejected (reason : string) | Responded (r : FetchResponse).

(** ** The world and the monad of the handlers *)

(** [blocksFindOne id] is [collection.findOne({ _id: new ObjectId(id) })]:
    the constructor throws on a malformed id.  [upstream] answers a request
    given the requests made before it. *)
Record World := {
  cachedFlows : gmap string Flow;
  cachedBlocks : gmap string Block;
  flowsCollection : list Flow;
  blocksFindOne : string -> outcome (option Block);
  execution_logs : list ExecutionLog;
  upstream : list FetchRequest -> FetchRequest -> FetchOutcome;
  fetched : list FetchRequest
}.

Definition M (A : Type) : Type := World -> outcome A * World.

#[global] Instance M_ret : MRet M := fun A a w => (Returns a, w).

#[global] Instance M_bind : MBind M := fun A B f m w =>
  match m w with
  | (Returns a, w') => f a w'
  | (Throws reason, w') => (Throws reason, w')
  end.

Definition throw {A : Type} (reason : string) : M A :=
  fun w => (Throws reason, w).

(** A step that returns or throws without touching the world. *)
Definition lift {A : Type} (o : outcome A) : M A := fun w => (o, w).

(** [try { body } catch (error) { handler(error.message) }]. *)
Definition try_catch {A : Type} (body : M A) (handler : string -> M A) : M A :=
  fun w =>
    match body w with
    | (Returns a, w') => (Returns a, w')
    | (Throws reason, w') => handler reason w'
    end.

Definition getFlowBySlug (s : string) : M (option Flow) :=
  fun w => (Returns (cachedFlows w !! s), w).

Definition setFlowBySlug (s : string) (flow : Flow) : M unit :=
  fun w => (Returns tt,
            {| cachedFlows := <[s := flow]> (cachedFlows w);
               cachedBlocks := cachedBlocks w;
               flowsCollection := flowsCollection w;
               blocksFindOne := blocksFindOne w;
               execution_logs := execution_logs w;
               upstream := upstream w;
               fetched := fetched w |}).

(** [collection.findOne({ slug, status: 'published' })]. *)
Definition is_published (flow : Flow) : bool :=
  match status flow with published => true | _ => false end.

Definition findPublished (s : string) : M (option Flow) :=
  fun w => (Returns (List.find (fun flow => String.eqb (slug flow) s && is_published flow)
                               (flowsCollection w)), w).

Definition getBlock (blockId : string) : M (option Block) :=
  fun w => (Returns (cachedBlocks w !! blockId), w).

Definition setBlock (blockId : string) (block : Block) : M unit :=
  fun w => (Returns tt,
            {| cachedFlows := cachedFlows w;
               cachedBlocks := <[blockId := block]> (cachedBlocks w);
               flowsCollection := flowsCollection w;
               blocksFindOne := blocksFindOne w;
               execution_logs := execution_logs w;
               upstream := upstream w;
               fetched := fetched w |}).

Definition findBlock (blockId : string) : M (option Block) :=
  fun w => (blocksFindOne w blockId, w).

(** [collection.insertOne(log)] on [execution_logs]. *)
Definition insertLog (log : ExecutionLog) : M unit :=
  fun w => (Returns tt,
            {| cachedFlows := cachedFlows w;
               cachedBlocks := cachedBlocks w;
               flowsCollection := flowsCollection w;
               blocksFindOne := blocksFindOne w;
               execution_logs := execution_logs w ++ [log];
               upstream := upstream w;
               fetched := fetched w |}).

(** [await fetch(url, init)]: the request is made, then the promise
    settles as the upstream decides. *)
Definition fetch (req : FetchRequest) : M FetchResponse :=
  fun w =>
    let w' := {| cachedFlows := cachedFlows w;
                 cachedBlocks := cachedBlocks w;
                 flowsCollection := flowsCollection w;
                 blocksFindOne := blocksFindOne w;
                 execution_logs := execution_logs w;
                 upstream := upstream w;
                 fetched := fetched w ++ [req] |} in
    match upstream w (fetched w) req with
    | Rejected reason => (Throws reason, w')
    | Responded r => (Returns r, w')
    end.

(** [await response.json()]. *)
Definition json (r : FetchResponse) : M value :=
  match resp_body r with
  | JsonBody v => mret v
  | NotJson reason => throw reason
  end.


(** * The engine on a runtime *)

Section WithHost.

Variable host : Host.

(** [Array.isArray(v)]. *)
Definition isArray (v : value) : bool :=
  match v with
  | VArr _ => true
  | VHost r => hostIsArray host r
  | _ => false
  end.

(** JS truthiness of a datum. *)
Definition truthy (v : value) : bool :=
  match v with
  | VUndefined | VNull => false
  | VBool b => b
  | VNum n => negb (n =? 0)
  | VStr s => negb (String.eqb s EmptyString)
  | VArr _ | VObj _ => true
  | VHost r => hostTruthy host r
  end.

(** [v[k]] on any datum.  A read from [null] or [undefined] throws.  An
    object gives its own property or the inherited member; an array its
    elements and [length]; a string of ASCII characters its characters
    and [length]; every other read is the runtime's. *)
Definition getProp (v : value) (k : string) : outcome value :=
  match v with
  | VUndefined | VNull => Throws (readNullish host v k)
  | VObj o => Returns (obj_get o k)
  | VArr items =>
      match canonical_index k with
      | Some i => Returns (array_at items i)
      | None => if String.eqb k "length" then Returns (VNum (Z.of_nat (List.length items)))
                else hostGet host v k
      end
  | VStr s =>
      if ascii_only s
      then match canonical_index k with
           | Some i =>
               match String.get (N.to_nat i) s with
               | Some c => Returns (VStr (String c EmptyString))
               | None => Returns VUndefined
               end
           | None => if String.eqb k "length" then Returns (VNum (Z.of_nat (String.length s)))
                     else hostGet host v k
           end
      else hostGet host v k
  | VBool _ | VNum _ | VHost _ => hostGet host v k
  end.

(** [v[k] = x] on any datum, giving the datum afterwards: a plain
    object takes the property, unless the assignment replaces its
    prototype; [null], [undefined] and the primitives throw; the rest
    is the runtime's. *)
Definition setProp (v : value) (k : string) (x : value) : outcome value :=
  match v with
  | VObj o => if replaces_prototype o k x then hostSet host v k x
              else Returns (VObj (obj_set k x o))
  | VUndefined | VNull => Throws (readNullish host v k)
  | VBool _ | VNum _ | VStr _ => Throws (writePrimitive host v k)
  | VArr _ | VHost _ => hostSet host v k x
  end.

(** [String(v)].  An array joins the texts of its elements, [null] and
    [undefined] giving the empty text; an object without a [toString] of
    its own is [[object Object]]. *)
Fixpoint String_ (v : value) : outcome string :=
  match v with
  | VUndefined => Returns "undefined"
  | VNull => Returns "null"
  | VBool true => Returns "true"
  | VBool false => Returns "false"
  | VNum n => if Z.abs n <=? 9007199254740992 then Returns (pretty n)
              else hostString host v
  | VStr s => Returns s
  | VArr items =>
      let texts :=
        fix texts (l : list value) : outcome (list string) :=
          match l with
          | [] => Returns []
          | item :: l' =>
              match match item with
                    | VUndefined | VNull => Returns EmptyString
                    | _ => String_ item
                    end with
              | Returns t =>
                  match texts l' with
                  | Returns ts => Returns (t :: ts)
                  | Throws reason => Throws reason
                  end
              | Throws reason => Throws reason
              end
          end in
      match texts items with
      | Returns ts => Returns (String.concat "," ts)
      | Throws reason => Throws reason
      end
  | VObj o =>
      match assoc_get "toString" o with
      | None => Returns "[object Object]"
      | Some _ => hostString host v
      end
  | VHost _ => hostString host v
  end.

(** ** [extractJsonPath] *)

(** [path.replace(/^\$\.?/, '')]. *)
Definition strip_root (path : string) : string :=
  match path with
  | String "$" (String "." rest) => rest
  | String "$" rest => rest
  | _ => path
  end.

(** [part.match(/^(\w+)\[(\d+)\]$/)]: the two captured groups. *)
Definition arrayMatch (part : string) : option (string * string) :=
  let '(key, r1) := span is_word part in
  match key, r1 with
  | String _ _, String "[" r2 =>
      let '(index, r3) := span is_digit r2 in
      match index, r3 with
      | String _ _, String "]" EmptyString => Some (key, index)
      | _, _ => None
      end
  | _, _ => None
  end.

(** [current[parseInt(index, 10)]] on what [Array.isArray] accepted. *)
Definition indexArray (current : value) (n : N) : outcome value :=
  match current with
  | VArr items => Returns (array_at items n)
  | _ => k ← String_ (VNum (Z.of_N n)); getProp current k
  end.

(** One turn of the [for (const part of parts)] loop, after its
    null/undefined guard. *)
Definition pathStep (current : value) (part : string) : outcome value :=
  match arrayMatch part with
  | Some (key, index) =>
      current' ← getProp current key;
      if isArray current' then indexArray current' (parseInt index)
      else Returns current'
  | None => getProp current part
  end.

Fixpoint walkParts (parts : list string) (current : value) : outcome value :=
  match parts with
  | [] => Returns current
  | part :: rest =>
      match current with
      | VNull | VUndefined => Returns VUndefined
      | _ => next ← pathStep current part; walkParts rest next
      end
  end.

Definition extractJsonPath (data : value) (path : string) : outcome value :=
  if String.eqb path EmptyString || String.eqb path "$" then Returns data
  else walkParts (split "." (strip_root path)) data.

(** ** Building the upstream request *)

Definition hexDigit (n : nat) : ascii :=
  ascii_of_nat (if (n <? 10)%nat then 48 + n else 55 + n).

(** [%XX] for one byte. *)
Definition percent (c : ascii) : string :=
  let n := nat_of_ascii c in
  String "%" (String (hexDigit (n / 16)) (String (hexDigit (n mod 16)) EmptyString)).

Definition is_alnum (c : ascii) : bool :=
  let n := nat_of_ascii c in
  is_digit c
  || ((65 <=? n)%nat && (n <=? 90)%nat)
  || ((97 <=? n)%nat && (n <=? 122)%nat).

Definition in_chars (set : string) (c : ascii) : bool :=
  existsb (Ascii.eqb c) (list_ascii_of_string set).

Fixpoint encodeWith (keep : ascii -> bool) (plus : bool) (s : string) : string :=
  match s with
  | EmptyString => EmptyString
  | String c s' =>
      (if keep c then String c EmptyString
       else if plus && Ascii.eqb c " " then "+"
       else percent c) +:+ encodeWith keep plus s'
  end.

(** [encodeURIComponent]: everything but [A-Za-z0-9-_.!~*'()] is
    escaped, byte by byte; an unpaired surrogate makes it throw. *)
Definition encodeURIComponent (s : string) : outcome string :=
  if has_surrogate s then Throws (uriMalformed host)
  else Returns (encodeWith (fun c => is_alnum c || in_chars "-_.!~*'()" c) false s).

(** The form encoding of [URLSearchParams.prototype.toString]. *)
Definition formEncode (s : string) : string :=
  encodeWith (fun c => is_alnum c || in_chars "*-._" c) true s.

Definition searchParamsToString (params : list (string * string)) : string :=
  String.concat "&" (map (fun kv => formEncode (fst kv) +:+ "=" +:+ formEncode (snd kv)) params).

(** [s.replace(pattern, replacement)] with a string pattern: the first
    occurrence only (the replacement, an escaped text, holds no [$]). *)
Fixpoint replaceFirst (pattern replacement s : string) : string :=
  if String.prefix pattern s
  then replacement +:+ String.substring (String.length pattern) (String.length s) s
  else match s with
       | EmptyString => EmptyString
       | String c s' => String c (replaceFirst pattern replacement s')
       end.

Record RequestParts := {
  rp_url : string;
  queryParams : list (string * string);
  rp_headers : list (string * string);
  rp_body : value
}.

(** The body of [for (const input of block.inputs)] in [executeApiCall];
    [URLSearchParams.set] stores its arguments as [USVString]s. *)
Definition placeInput (inputs : value) (parts : RequestParts) (input : InputDefinition)
  : outcome RequestParts :=
  v ← getProp inputs (in_name input);
  if is_undefined v then Returns parts
  else match in_in input with
       | in_path =>
           text ← String_ v;
           escaped ← encodeURIComponent text;
           Returns {| rp_url := replaceFirst ("{" +:+ in_name input +:+ "}") escaped
                                             (rp_url parts);
                      queryParams := queryParams parts;
                      rp_headers := rp_headers parts;
                      rp_body := rp_body parts |}
       | in_query =>
           text ← String_ v;
           Returns {| rp_url := rp_url parts;
                      queryParams := assoc_set (toUSV (in_name input)) (toUSV text)
                                               (queryParams parts);
                      rp_headers := rp_headers parts;
                      rp_body := rp_body parts |}
       | in_header =>
           text ← String_ v;
           Returns {| rp_url := rp_url parts;
                      queryParams := queryParams parts;
                      rp_headers := obj_set (in_name input) text (rp_headers parts);
                      rp_body := rp_body parts |}
       | in_body =>
           Returns {| rp_url := rp_url parts;
                      queryParams := queryParams parts;
                      rp_headers := rp_headers parts;
                      rp_body := v |}
       end.

Fixpoint placeInputs (inputs : value) (l : list InputDefinition) (parts : RequestParts)
  : outcome RequestParts :=
  match l with
  | [] => Returns parts
  | input :: l' => parts' ← placeInput inputs parts input; placeInputs inputs l' parts'
  end.

(** The request before any input is placed. *)
Definition bareParts (block : Block) : RequestParts :=
  {| rp_url := default EmptyString (serverUrl (block_source block))
               +:+ src_path (block_source block);
     queryParams := [];
     rp_headers := [("Content-Type", "application/json")];
     rp_body := VUndefined |}.

(** What [executeApiCall] does before its [try]: the URL, the query, the
    headers and the body, or the error of a read, a [String(value)] or
    an [encodeURIComponent] that throws. *)
Definition buildParts (block : Block) (inputs : value) : outcome RequestParts :=
  placeInputs inputs (block_inputs block) (bareParts block).

(** [config?.timeout ? AbortSignal.timeout(config.timeout) : undefined]:
    the delay accepted, or the error [AbortSignal.timeout] throws. *)
Definition abortSignal (config : option FlowBlockConfig) : outcome (option Z) :=
  match config with
  | Some c =>
      match timeout c with
      | Some t =>
          if t =? 0 then Returns None
          else match abortTimeout host t with
               | None => Returns (Some t)
               | Some reason => Throws reason
               end
      | None => Returns None
      end
  | None => Returns None
  end.

(** The argument of [fetch]. *)
Definition requestOf (block : Block) (parts : RequestParts) (delay : option Z)
  : FetchRequest :=
  let query := searchParamsToString (queryParams parts) in
  {| url := if String.eqb query EmptyString then rp_url parts
            else rp_url parts +:+ "?" +:+ query;
     fetch_method := method (block_source block);
     fetch_headers := rp_headers parts;
     fetch_body := if truthy (rp_body parts) then Some (rp_body parts) else None;
     signal := delay |}.

(** ** The dispatcher *)

Definition failed (reason : string) : BlockExecutionResult :=
  {| be_status := failure;
     be_outputs := None;
     rawResponse := None;
     be_error := Some {| message := reason; code := None |} |}.

(** [for (const output of block.outputs) outputs[output.name] = extractJsonPath(data, output.path)]. *)
Fixpoint projectInto (body : value) (l : list OutputDefinition) (outs : value)
  : outcome value :=
  match l with
  | [] => Returns outs
  | output :: l' =>
      v ← extractJsonPath body (out_path output);
      outs' ← setProp outs (out_name output) v;
      projectInto body l' outs'
  end.

Definition projectOutputs (block : Block) (body : value) : outcome value :=
  projectInto body (block_outputs block) (VObj []).

Definition executeApiCall (block : Block) (inputs : value) (config : option FlowBlockConfig)
  : M BlockExecutionResult :=
  parts ← lift (buildParts block inputs);
  try_catch
    (delay ← lift (abortSignal config);
     response ← fetch (requestOf block parts delay);
     body ← json response;
     outs ← lift (projectOutputs block body);
     mret {| be_status := if ok response then success else failure;
             be_outputs := Some outs;
             rawResponse := Some {| statusCode := resp_status response;
                                    data := body;
                                    raw_headers := resp_headers response |};
             be_error := None |})
    (fun reason => mret (failed reason)).

Definition executeTransform (block : Block) (inputs : value) : M BlockExecutionResult :=
  mret {| be_status := success;
          be_outputs := Some inputs;
          rawResponse := None;
          be_error := None |}.

Definition executeBlock (blockId : string) (inputs : value)
    (config : option FlowBlockConfig) (isTest : bool) : M BlockExecutionResult :=
  cached ← getBlock blockId;
  block ← match cached with
          | Some b => mret (Some b)
          | None =>
              found ← findBlock blockId;
              match found with
              | Some b => _ ← setBlock blockId b; mret (Some b)
              | None => mret None
              end
          end;
  match block with
  | None => mret (failed ("Block not found: " +:+ blockId))
  | Some block =>
      if isTest
      then mret {| be_status := success;
                   be_outputs := Some (VObj [("_test", VBool true);
                                             ("blockId", VStr blockId)]);
                   rawResponse := None;
                   be_error := None |}
      else match block_type block with
           | api_call => executeApiCall block inputs config
           | transform => executeTransform block inputs
           | t => mret (failed ("Unsupported block type: " +:+ blockTypeName t))
           end
  end.

(** ** [resolveInputMappings] *)

Definition resolveMapping (context : ExecutionContext) (result : value)
    (mapping : InputMapping) : outcome value :=
  match source mapping with
  | flow_input name =>
      v ← getProp (ctx_inputs context) (default EmptyString name);
      setProp result (targetInput mapping) v
  | block_output blockId outputName =>
      match blockResults context !! default EmptyString blockId with
      | Some blockResult =>
          match be_outputs blockResult with
          | Some outs =>
              if truthy outs
              then v ← getProp outs (default EmptyString outputName);
                   setProp result (targetInput mapping) v
              else Returns result
          | None => Returns result
          end
      | None => Returns result
      end
  | constant v => setProp result (targetInput mapping) v
  | expression text =>
      setProp result (targetInput mapping)
              (match text with Some t => VStr t | None => VUndefined end)
  end.

Fixpoint resolveInto (context : ExecutionContext) (mappings : list InputMapping)
    (result : value) : outcome value :=
  match mappings with
  | [] => Returns result
  | mapping :: rest =>
      result' ← resolveMapping context result mapping;
      resolveInto context rest result'
  end.

Definition resolveInputMappings (mappings : list InputMapping)
    (context : ExecutionContext) : outcome value :=
  resolveInto context mappings (VObj []).

(** ** [runFlowExecution] *)

(** [flowBlock.config?.continueOnError], as a condition. *)
Definition continues (flowBlock : FlowBlock) : bool :=
  match config flowBlock with
  | Some c => default false (continueOnError c)
  | None => false
  end.

Definition recordResult (context : ExecutionContext) (blockId : string)
    (r : BlockExecutionResult) : ExecutionContext :=
  {| ctx_flowId := ctx_flowId context;
     ctx_inputs := ctx_inputs context;
     variables := variables context;
     blockResults := <[blockId := r]> (blockResults context) |}.

(** One turn of [for (const blockId of executionOrder)] for a block that
    exists: [inl] is the early [return { error }]. *)
Definition runBlock (flowBlock : FlowBlock) (blockId : string) (isTest : bool)
    (context : ExecutionContext) : M (RunError + ExecutionContext) :=
  try_catch
    (blockInputs ← lift (resolveInputMappings (inputMappings flowBlock) context);
     r ← executeBlock (fb_blockId flowBlock) blockInputs (config flowBlock) isTest;
     let context' := recordResult context blockId r in
     match be_error r with
     | Some e =>
         if negb (continues flowBlock)
         then mret (inl {| err_message := message e; err_blockId := Some blockId |})
         else mret (inr context')
     | None => mret (inr context')
     end)
    (fun reason =>
       if negb (continues flowBlock)
       then mret (inl {| err_message := reason; err_blockId := Some blockId |})
       else mret (inr context)).

Fixpoint runBlocks (flow : Flow) (isTest : bool) (executionOrder : list string)
    (context : ExecutionContext) : M (RunError + ExecutionContext) :=
  match executionOrder with
  | [] => mret (inr context)
  | blockId :: rest =>
      match List.find (fun b => String.eqb (fb_id b) blockId) (blocks flow) with
      | None => runBlocks flow isTest rest context
      | Some flowBlock =>
          step ← runBlock flowBlock blockId isTest context;
          match step with
          | inl e => mret (inl e)
          | inr context' => runBlocks flow isTest rest context'
          end
      end
  end.

(** The body of the [// Build outputs] loop. *)
Definition projectOutput (context : ExecutionContext) (outs : value)
    (output : FlowOutputDefinition) : outcome value :=
  match blockResults context !! sourceBlockId output with
  | Some blockResult =>
      match be_outputs blockResult with
      | Some o =>
          if truthy o
          then v ← getProp o (sourceOutput output);
               setProp outs (fo_name output) v
          else Returns outs
      | None => Returns outs
      end
  | None => Returns outs
  end.

Fixpoint projectAll (context : ExecutionContext) (l : list FlowOutputDefinition)
    (outs : value) : outcome value :=
  match l with
  | [] => Returns outs
  | output :: l' =>
      outs' ← projectOutput context outs output;
      projectAll context l' outs'
  end.

Definition buildOutputs (flow : Flow) (context : ExecutionContext) : outcome value :=
  projectAll context (outputs flow) (VObj []).

Definition initialContext (flow : Flow) (inputs : value) : ExecutionContext :=
  {| ctx_flowId := default EmptyString (flow_id flow);
     ctx_inputs := inputs;
     variables := [];
     blockResults := ∅ |}.

Definition runFlowExecution (flow : Flow) (inputs : value) (isTest : bool) : M RunResult :=
  let context := initialContext flow inputs in
  let executionOrder := topologicalSort (blocks flow) (connections flow) in
  r ← runBlocks flow isTest executionOrder context;
  match r with
  | inl e => mret {| run_outputs := None; run_error := Some e |}
  | inr context' =>
      outs ← lift (buildOutputs flow context');
      mret {| run_outputs := Some outs; run_error := None |}
  end.

(** ** Responses ([utils/response.ts]) *)

Record ApiError := {
  api_code : string;
  api_message : string
}.

(** [ApiResponse<T>]; [meta] is used by the paginated listings only. *)
Record ApiResponse := {
  api_success : bool;
  api_data : option value;
  api_error : option ApiError
}.

(** A [Response]: its status and the [ApiResponse] whose JSON text is its
    body ([bodyText]). *)
Record Response := {
  http_status : Z;
  payload : ApiResponse
}.

Definition jsonResponse (d : value) (status : Z) : Response :=
  {| http_status := status;
     payload := {| api_success := (200 <=? status) && (status <? 300);
                   api_data := Some d;
                   api_error := None |} |}.

Definition errorResponse (msg : string) (status : Z) (code : string) : Response :=
  {| http_status := status;
     payload := {| api_success := false;
                   api_data := None;
                   api_error := Some {| api_code := code; api_message := msg |} |} |}.

(** The defaults of [errorResponse]'s optional parameters. *)
Definition default_status : Z := 400.
Definition default_code : string := "ERROR".

(** *** [JSON.stringify] *)

Definition hexLower (n : nat) : ascii :=
  ascii_of_nat (if (n <? 10)%nat then 48 + n else 87 + n).

Definition escapeChar (c : ascii) : string :=
  let n := nat_of_ascii c in
  if (n =? 34)%nat then String "\" (String (ascii_of_nat 34) EmptyString)
  else if (n =? 92)%nat then "\\"
  else if (n =? 8)%nat then "\b"
  else if (n =? 9)%nat then "\t"
  else if (n =? 10)%nat then "\n"
  else if (n =? 12)%nat then "\f"
  else if (n =? 13)%nat then "\r"
  else if (n <? 32)%nat
       then "\u00" +:+ String (hexLower (n / 16)) (String (hexLower (n mod 16)) EmptyString)
       else String c EmptyString.

Fixpoint escapeString (s : string) : string :=
  match s with
  | EmptyString => EmptyString
  | String c s' => escapeChar c +:+ escapeString s'
  end.

Definition quote (s : string) : string :=
  String (ascii_of_nat 34) (escapeString s) +:+ String (ascii_of_nat 34) EmptyString.

(** [JSON.stringify(v)]: [None] is [undefined]; an [undefined] property is
    dropped and an [undefined] element printed as [null].  The text of a
    datum whose printing the runtime decides (a [VHost] value, an integer
    beyond 2^53, a string with an unpaired surrogate, an object whose
    [toJSON] may be a function) is the runtime's. *)
Fixpoint JSON_stringify (v : value) : option string :=
  match v with
  | VUndefined => None
  | VNull => Some "null"
  | VBool true => Some "true"
  | VBool false => Some "false"
  | VNum n => if Z.abs n <=? 9007199254740992 then Some (pretty n) else hostJson host v
  | VStr s => if has_surrogate s then hostJson host v else Some (quote s)
  | VArr items =>
      Some ("[" +:+ String.concat ","
                      (map (fun item => default "null" (JSON_stringify item)) items)
                +:+ "]")
  | VObj props =>
      let member :=
        fix member (ps : list (string * value)) : list string :=
          match ps with
          | [] => []
          | (k, x) :: ps' =>
              match JSON_stringify x with
              | Some t => (quote k +:+ ":" +:+ t) :: member ps'
              | None => member ps'
              end
          end in
      if existsb (fun kx => has_surrogate (fst kx)) props
         || match assoc_get "toJSON" props with Some (VHost _) => true | _ => false end
      then hostJson host v
      else Some ("{" +:+ String.concat "," (member props) +:+ "}")
  | VHost _ => hostJson host v
  end.

(** The object literal [{ success, data }] or [{ success, error }]. *)
Definition apiResponseValue (r : ApiResponse) : value :=
  VObj ([("success", VBool (api_success r))]
        ++ match api_data r with
           | Some d => [("data", d)]
           | None => []
           end
        ++ match api_error r with
           | Some e => [("error", VObj [("code", VStr (api_code e));
                                        ("message", VStr (api_message e))])]
           | None => []
           end).

(** The text of the response body. *)
Definition bodyText (r : Response) : string :=
  default EmptyString (JSON_stringify (apiResponseValue (payload r))).

(** ** [executeFlow] *)

(** A query parameter with what [JSON.parse] makes of its text
    ([None]: it throws). *)
Record QueryParam := {
  qp_key : string;
  qp_value : string;
  qp_json : option value
}.

(** The request as the handler reads it: [req_json] is the datum
    [request.json()] resolves to, an object or not ([None]: it rejects). *)
Record Request := {
  req_method : string;
  searchParams : list QueryParam;
  req_json : option value;
  req_headers : list (string * string)
}.

(** The callback of [url.searchParams.forEach]: the parsed JSON is
    assigned, and the text itself when the parsing or the assignment
    throws. *)
Definition assignParam (ins : value) (p : QueryParam) : outcome value :=
  match qp_json p with
  | Some v =>
      match setProp ins (qp_key p) v with
      | Returns ins' => Returns ins'
      | Throws _ => setProp ins (qp_key p) (VStr (qp_value p))
      end
  | None => setProp ins (qp_key p) (VStr (qp_value p))
  end.

Fixpoint assignParams (l : list QueryParam) (ins : value) : outcome value :=
  match l with
  | [] => Returns ins
  | p :: l' => ins' ← assignParam ins p; assignParams l' ins'
  end.

(** The [// Parse inputs from request] step. *)
Definition parseInputs (request : Request) : outcome value :=
  if String.eqb (req_method request) "GET"
  then assignParams (searchParams request) (VObj [])
  else Returns (default (VObj []) (req_json request)).

(** The [// Validate required inputs] loop: the first declared input
    that is required and reads [undefined]; an input not required is not
    read. *)
Fixpoint missingAmong (l : list FlowInputDefinition) (ins : value)
  : outcome (option FlowInputDefinition) :=
  match l with
  | [] => Returns None
  | input :: l' =>
      if fi_required input
      then v ← getProp ins (fi_name input);
           if is_undefined v then Returns (Some input) else missingAmong l' ins
      else missingAmong l' ins
  end.

Definition missingRequired (flow : Flow) (ins : value)
  : outcome (option FlowInputDefinition) :=
  missingAmong (inputs flow) ins.

(** The [// Apply default values] loop. *)
Fixpoint defaultsAmong (l : list FlowInputDefinition) (ins : value) : outcome value :=
  match l with
  | [] => Returns ins
  | input :: l' =>
      v ← getProp ins (fi_name input);
      if is_undefined v && negb (is_undefined (defaultValue input))
      then ins' ← setProp ins (fi_name input) (defaultValue input);
           defaultsAmong l' ins'
      else defaultsAmong l' ins
  end.

Definition applyDefaults (flow : Flow) (ins : value) : outcome value :=
  defaultsAmong (inputs flow) ins.

(** [logExecution]: the call is not awaited and a rejection is only
    printed; the store is taken to accept the document. *)
Definition logExecution (flow : Flow) (ins : value) (r : RunResult) (request : Request)
  : M unit :=
  insertLog {| log_flowId := default EmptyString (flow_id flow);
               flowVersion := version flow;
               log_inputs := ins;
               log_headers := req_headers request;
               log_status := match run_error r with Some _ => failure | None => success end;
               log_outputs := run_outputs r;
               log_error := run_error r;
               blockExecutions := [] |}.

(** The [// Get flow (cache first)] step. *)
Definition loadFlow (s : string) : M (option Flow) :=
  cached ← getFlowBySlug s;
  match cached with
  | Some flow => mret (Some flow)
  | None =>
      found ← findPublished s;
      match found with
      | Some flow => _ ← setFlowBySlug s flow; mret (Some flow)
      | None => mret None
      end
  end.

(** [result.outputs || {}]. *)
Definition outputsOrEmpty (r : RunResult) : value :=
  match run_outputs r with
  | Some outs => if truthy outs then outs else VObj []
  | None => VObj []
  end.

(** The parsing of the inputs and the two loops over [flow.inputs]
    stand before the [try]: what they throw leaves [executeFlow]. *)
Definition executeFlow (s : string) (request : Request) (isTest : bool) : M Response :=
  loaded ← loadFlow s;
  match loaded with
  | None => mret (errorResponse "Flow not found or not published" 404 default_code)
  | Some flow =>
      ins ← lift (parseInputs request);
      missing ← lift (missingRequired flow ins);
      match missing with
      | Some input =>
          mret (errorResponse ("Missing required input: " +:+ fi_name input)
                              400 default_code)
      | None =>
          ins ← lift (applyDefaults flow ins);
          try_catch
            (r ← runFlowExecution flow ins isTest;
             _ ← (if isTest then mret tt else logExecution flow ins r request);
             match run_error r with
             | Some e => mret (errorResponse (err_message e) 500 "EXECUTION_ERROR")
             | None => mret (jsonResponse (outputsOrEmpty r) 200)
             end)
            (fun reason => mret (errorResponse reason 500 "EXECUTION_ERROR"))
      end
  end.


(** * The routes of the execute handler ([handleExecuteApi]) *)

(** [path.split('/').filter(Boolean)]. *)
Definition pathParts (path : string) : list string :=
  List.filter (fun part => negb (String.eqb part EmptyString)) (split "/" path).

Section Routes.

(** [getExecutionLogs] answers from the log collection sorted by start
    time, which [ExecutionLog] does not record: the handler is a
    parameter of the router. *)
Variable getExecutionLogs : string -> M Response.

Definition handleExecuteApi (request : Request) (path : string) : M Response :=
  let parts := pathParts path in
  match nth_error parts 2 with
  | None => mret (errorResponse "Flow slug required" 400 default_code)
  | Some s =>
      if String.eqb s EmptyString
      then mret (errorResponse "Flow slug required" 400 default_code)
      else
        let isTest := match nth_error parts 3 with
                      | Some part => String.eqb part "test"
                      | None => false
                      end in
        if match nth_error parts 3 with
           | Some part => String.eqb part "logs"
           | None => false
           end
        then getExecutionLogs s
        else executeFlow s request isTest
  end.

End Routes.

(** * The editor store ([web/src/stores/flowEditor.ts]) *)

Record NodeData := {
  label : string;
  nd_blockId : string;
  nd_inputMappings : option (list InputMapping);
  nd_config : option FlowBlockConfig
}.

Record Node := {
  node_id : string;
  node_type : BlockType;
  position : Z * Z;
  node_data : NodeData
}.

Record Edge := {
  edge_id : string;
  edge_source : string;
  edge_target : string;
  animated : bool
}.

(** The refs of the store that the graph actions read and write. *)
Record EditorState := {
  flow : option Flow;
  nodes : list Node;
  edges : list Edge;
  selectedNodeId : option string;
  hasChanges : bool
}.

Definition removeNode (nodeId : string) (st : EditorState) : EditorState :=
  {| flow := flow st;
     nodes := List.filter (fun n => negb (String.eqb (node_id n) nodeId)) (nodes st);
     edges := List.filter (fun e => negb (String.eqb (edge_source e) nodeId)
                                    && negb (String.eqb (edge_target e) nodeId))
                          (edges st);
     selectedNodeId := match selectedNodeId st with
                       | Some selected =>
                           if String.eqb selected nodeId then None else Some selected
                       | None => None
                       end;
     hasChanges := true |}.

(** [addEdge]: [now] is what [Date.now()] reads; the result is the new
    edge's id, or [None] for the bare [return]. *)
Definition addEdge (now : Z) (source target : string) (st : EditorState)
  : option string * EditorState :=
  let edgeId := "edge_" +:+ pretty now in
  if existsb (fun e => String.eqb (edge_source e) source
                       && String.eqb (edge_target e) target) (edges st)
  then (None, st)
  else (Some edgeId,
        {| flow := flow st;
           nodes := nodes st;
           edges := edges st ++ [{| edge_id := edgeId; edge_source := source;
                                    edge_target := target; animated := true |}];
           selectedNodeId := selectedNodeId st;
           hasChanges := true |}).

Definition removeEdge (edgeId : string) (st : EditorState) : EditorState :=
  {| flow := flow st;
     nodes := nodes st;
     edges := List.filter (fun e => negb (String.eqb (edge_id e) edgeId)) (edges st);
     selectedNodeId := selectedNodeId st;
     hasChanges := true |}.

(** [syncToFlow]: the blocks and connections of the flow are rebuilt
    from the nodes and edges (a node's position goes with the block in
    the source; [FlowBlock] does not keep it). *)
Definition syncToFlow (st : EditorState) : EditorState :=
  match flow st with
  | None => st
  | Some f =>
      {| flow := Some {| flow_id := flow_id f;
                         slug := slug f;
                         version := version f;
                         blocks := map (fun node =>
                                          {| fb_id := node_id node;
                                             fb_blockId := nd_blockId (node_data node);
                                             inputMappings :=
                                               default [] (nd_inputMappings (node_data node));
                                             config := nd_config (node_data node) |})
                                       (nodes st);
                         connections := map (fun edge =>
                                               {| conn_id := edge_id edge;
                                                  fromBlockId := edge_source edge;
                                                  toBlockId := edge_target edge |})
                                            (edges st);
                         inputs := inputs f;
                         outputs := outputs f;
                         flow_config := flow_config f;
                         status := status f |};
         nodes := nodes st;
         edges := edges st;
         selectedNodeId := selectedNodeId st;
         hasChanges := hasChanges st |}
  end.

(** ** Notions used to state the planner's properties *)

(** Entries still waiting for a predecessor. *)
Definition waiting (inDeg : list (string * Z)) : nat :=
  List.length (List.filter (fun kd => 0 <? snd kd) inDeg).

Definition blockIds (blocks : list FlowBlock) : list string := map fb_id blocks.

(** The targets of the connections leaving [u], in order. *)
Definition successorsOf (u : string) (connections : list Connection) : list string :=
  map toBlockId (List.filter (fun c => String.eqb (fromBlockId c) u) connections).

Definition occurrences (v : string) (l : list string) : nat :=
  List.length (List.filter (String.eqb v) l).

(** A connection into [v] is settled once its source is a block of the
    flow that has been emitted; [pending] counts the others. *)
Definition settled (ids emitted : list string) (c : Connection) : bool :=
  inb (fromBlockId c) ids && inb (fromBlockId c) emitted.

Definition pending (ids : list string) (connections : list Connection)
    (emitted : list string) (v : string) : nat :=
  List.length (List.filter (fun c => String.eqb (toBlockId c) v && negb (settled ids emitted c))
                           connections).

(** [starved P]: every member of [P] has an incoming connection whose
    source is no block of the flow or is itself in [P]. *)
Definition starved (blocks : list FlowBlock) (connections : list Connection)
    (P : string -> Prop) : Prop :=
  forall v, P v ->
    exists c, c ∈ connections /\ toBlockId c = v /\
              (fromBlockId c ∉ blockIds blocks \/ P (fromBlockId c)).

(** A walk of one or more connections. *)
Inductive reach (connections : list Connection) : string -> string -> Prop :=
| reach_one c :
    c ∈ connections -> reach connections (fromBlockId c) (toBlockId c)
| reach_more u c :
    reach connections u (fromBlockId c) -> c ∈ connections ->
    reach connections u (toBlockId c).

Definition on_cycle (connections : list Connection) (v : string) : Prop :=
  reach connections v v.

(** Blocks cut off by a connection whose source is no block of the flow. *)
Inductive cut_off (blocks : list FlowBlock) (connections : list Connection)
  : string -> Prop :=
| cut_dangling c :
    c ∈ connections -> fromBlockId c ∉ blockIds blocks ->
    cut_off blocks connections (toBlockId c)
| cut_downstream c :
    c ∈ connections -> cut_off blocks connections (fromBlockId c) ->
    cut_off blocks connections (toBlockId c).

(** The planner's invariant: every indegree counts the connections not
    settled yet; what has been emitted or queued is ready, listed once,
    and outside [P]. *)
Record planner_invariant (ids : list string) (connections : list Connection)
    (P : string -> Prop) (st : KahnState) : Prop := {
  inv_degree : forall v,
    degree (inDegree st) v = Z.of_nat (pending ids connections (result st) v);
  inv_once : NoDup (result st ++ queue st);
  inv_ready : forall v, v ∈ result st ++ queue st -> degree (inDegree st) v <= 0;
  inv_outside : forall v, v ∈ result st ++ queue st -> ~ P v
}.

(** ** Notions used to state the engine's properties *)

(** [w'] is [w] after the upstream calls [calls]: the execution log and
    the document store are as they were (the cache may have been filled). *)
Record after_calls (w w' : World) (calls : list FetchRequest) : Prop := {
  ac_fetched : fetched w' = fetched w ++ calls;
  ac_logs : execution_logs w' = execution_logs w;
  ac_upstream : upstream w' = upstream w;
  ac_flows : flowsCollection w' = flowsCollection w;
  ac_blocks : blocksFindOne w' = blocksFindOne w
}.

(** The block definition the dispatcher finds for [blockId]: the cached
    one, else the stored one. *)
Definition definitionOf (w : World) (blockId : string) : outcome (option Block) :=
  match cachedBlocks w !! blockId with
  | Some b => Returns (Some b)
  | None => blocksFindOne w blockId
  end.

(** The flow the handler loads for a slug. *)
Definition served (w : World) (s : string) : option Flow :=
  match cachedFlows w !! s with
  | Some flow => Some flow
  | None => List.find (fun flow => String.eqb (slug flow) s && is_published flow)
                      (flowsCollection w)
  end.

(** The result of a test-mode dispatch. *)
Definition testResult (blockId : string) : BlockExecutionResult :=
  {| be_status := success;
     be_outputs := Some (VObj [("_test", VBool true); ("blockId", VStr blockId)]);
     rawResponse := None;
     be_error := None |}.

(** The response of [executeFlow] to a request for a served flow whose
    required inputs are all present, given what the run resolved to. *)
Definition respond (r : RunResult) : Response :=
  match run_error r with
  | Some e => errorResponse (err_message e) 500 "EXECUTION_ERROR"
  | None => jsonResponse (outputsOrEmpty r) 200
  end.

(** The response of [executeFlow] once the flow has run: an error
    thrown by the run is answered like an error it reports, without a
    block id. *)
Definition answer (run : outcome RunResult) : Response :=
  match run with
  | Returns r => respond r
  | Throws reason => errorResponse reason 500 "EXECUTION_ERROR"
  end.

(** What the parsing of the inputs and the two loops over
    [flow.inputs] make of a request: the error one of their reads or
    writes throws, the first required input that is missing, or the
    inputs the flow runs on. *)
Definition prepareInputs (flow : Flow) (request : Request)
  : outcome (FlowInputDefinition + value) :=
  parsed ← parseInputs request;
  missing ← missingRequired flow parsed;
  match missing with
  | Some input => Returns (inl input)
  | None => ins ← applyDefaults flow parsed; Returns (inr ins)
  end.

(** The inputs parse to a plain object: the body is absent, unreadable
    or a JSON object, or the request is a GET none of whose parameters
    replaces the prototype of the inputs. *)
Definition plain_inputs (request : Request) : Prop :=
  exists o, parseInputs request = Returns (VObj o).

(** ** Notions used to state the projector's properties *)

Definition all_chars (p : ascii -> bool) (s : string) : bool :=
  forallb p (list_ascii_of_string s).



(** [null] or [undefined]. *)
Definition nullish (v : value) : bool :=
  match v with VNull | VUndefined => true | _ => false end.

(** The outputs that pass the guard [blockResult?.outputs]. *)
Definition carried (context : ExecutionContext) (blockId : string) : option value :=
  match blockResults context !! blockId with
  | Some blockResult =>
      match be_outputs blockResult with
      | Some outs => if truthy outs then Some outs else None
      | None => None
      end
  | None => None
  end.

(** What a declaration reads from its source when projection runs:
    nothing when the source carries no outputs. *)
Definition sourceValue (context : ExecutionContext) (output : FlowOutputDefinition)
  : option (outcome value) :=
  match carried context (sourceBlockId output) with
  | Some outs => Some (getProp outs (sourceOutput output))
  | None => None
  end.

(** What a [block_output] mapping reads: the named output of the recorded
    result, when a result is recorded and carries outputs. *)
Definition mappedValue (context : ExecutionContext) (blockId outputName : option string)
  : option (outcome value) :=
  match carried context (default EmptyString blockId) with
  | Some outs => Some (getProp outs (default EmptyString outputName))
  | None => None
  end.

(** [config?.timeout]. *)
Definition instanceTimeout (config : option FlowBlockConfig) : option Z :=
  match config with
  | Some c => timeout c
  | None => None
  end.

(** The same flow under another flow-level [config]. *)
Definition with_config (flow : Flow) (c : FlowConfig) : Flow :=
  {| flow_id := flow_id flow; slug := slug flow; version := version flow;
     blocks := blocks flow; connections := connections flow;
     inputs := inputs flow; outputs := outputs flow;
     flow_config := c; status := status flow |}.

(** JSON text written with apostrophes for its double quotes. *)
Fixpoint json_text (s : string) : string :=
  match s with
  | EmptyString => EmptyString
  | String c s' =>
      String (if Ascii.eqb c "'" then ascii_of_nat 34 else c) (json_text s')
  end.

(** ** The dispatcher the specification words (§4.E, steps 6 and 7)

    These two definitions follow the specification's sentences, not the
    source; they are what the source is compared with. *)

(** "only on transport-level failures and 5xx responses". *)
Definition spec_retryable (o : FetchOutcome) : bool :=
  match o with
  | Rejected _ => true
  | Responded r => (500 <=? resp_status r) && (resp_status r <=? 599)
  end.

(** "exponential back-off (base 100 ms, cap 2 s) between attempts": the
    delay after attempt [k] (counted from 0). *)
Definition spec_backoff (k : nat) : Z := Z.min (100 * 2 ^ Z.of_nat k) 2000.

(** "[retryCount] attempts total": the requests made when [n] attempts
    remain. *)
Fixpoint spec_attempts (n : nat) (up : list FetchRequest -> FetchRequest -> FetchOutcome)
    (history : list FetchRequest) (req : FetchRequest) : list FetchRequest :=
  match n with
  | O => []
  | S n' =>
      req :: (if spec_retryable (up history req)
              then spec_attempts n' up (history ++ [req]) req
              else [])
  end.

(** "timeout from (in order of precedence) instance config, flow config,
    or an engine default (30 s)", in milliseconds. *)
Definition spec_timeout (config : option FlowBlockConfig) (flow : Flow) : Z :=
  match instanceTimeout config with
  | Some t => t
  | None => default 30000 (fc_timeout (flow_config flow))
  end.

(** ** The assignment loops

    The three loops [for (...) target[name] = read] of the engine (the
    outputs of a call, the inputs of a block, the outputs of the flow)
    are lists of assignments: a name with the read whose value it
    takes, or nothing when the loop's guard skips it. *)
Definition assignment : Type := string * option (outcome value).

Fixpoint assignAll (steps : list assignment) (target : value) : outcome value :=
  match steps with
  | [] => Returns target
  | (k, None) :: later => assignAll later target
  | (k, Some read) :: later =>
      v ← read; target' ← setProp target k v; assignAll later target'
  end.

(** The read of the last assignment to the name [k], if there is one. *)
Fixpoint lastAssigned (steps : list assignment) (k : string) : option (outcome value) :=
  match steps with
  | [] => None
  | (k', read) :: later =>
      match lastAssigned later k with
      | Some r => Some r
      | None => if String.eqb k' k then read else None
      end
  end.

(** No assignment is to the name [__proto__]. *)
Definition ordinary_names (names : list string) : Prop :=
  Forall (fun k => k <> "__proto__") names.

Definition callSteps (body : value) (l : list OutputDefinition) : list assignment :=
  map (fun output => (out_name output, Some (extractJsonPath body (out_path output)))) l.

(** Results whose outputs, when they carry any, are plain objects. *)
Definition plain_results (context : ExecutionContext) : Prop :=
  forall id r outs,
    blockResults context !! id = Some r -> be_outputs r = Some outs ->
    exists o, outs = VObj o.

(** The stored block definitions name their outputs ordinarily, and the
    instances of a flow their targets. *)
Definition ordinary_store (w : World) : Prop :=
  forall id block, definitionOf w id = Returns (Some block) ->
    ordinary_names (map out_name (block_outputs block)).

Definition ordinary_targets (flow : Flow) : Prop :=
  forall fb, fb ∈ blocks flow -> ordinary_names (map targetInput (inputMappings fb)).

(** What a mapping assigns to its target. *)
Definition mappingRead (context : ExecutionContext) (mapping : InputMapping)
  : option (outcome value) :=
  match source mapping with
  | flow_input name => Some (getProp (ctx_inputs context) (default EmptyString name))
  | block_output blockId outputName => mappedValue context blockId outputName
  | constant v => Some (Returns v)
  | expression text => Some (Returns match text with Some t => VStr t | None => VUndefined end)
  end.

Definition mappingSteps (context : ExecutionContext) (mappings : list InputMapping)
  : list assignment :=
  map (fun mapping => (targetInput mapping, mappingRead context mapping)) mappings.

Definition outputSteps (context : ExecutionContext) (decls : list FlowOutputDefinition)
  : list assignment :=
  map (fun output => (fo_name output, sourceValue context output)) decls.

(** What the declarations of the name [k] leave under it: the read of
    the last one whose source result carries outputs, if any. *)
Definition projectedValue (context : ExecutionContext)
    (decls : list FlowOutputDefinition) (k : string) : option (outcome value) :=
  lastAssigned (outputSteps context decls) k.

(** ** Concrete flows, stores and requests *)

Definition instance (i blockId : string) (mappings : list InputMapping)
    (c : option FlowBlockConfig) : FlowBlock :=
  {| fb_id := i; fb_blockId := blockId; inputMappings := mappings; config := c |}.

Definition connect (a b : string) : Connection :=
  {| conn_id := a +:+ "-" +:+ b; fromBlockId := a; toBlockId := b |}.

Definition noFlowConfig : FlowConfig :=
  {| fc_timeout := None; parallel := None; errorHandling := None |}.

Definition publishedFlow (s : string) (bs : list FlowBlock) (cs : list Connection)
    (ins : list FlowInputDefinition) (outs : list FlowOutputDefinition) : Flow :=
  {| flow_id := Some ("id-" +:+ s); slug := s; version := 2;
     blocks := bs; connections := cs; inputs := ins; outputs := outs;
     flow_config := noFlowConfig; status := published |}.

(** The ids of the block definitions of the scenarios. *)
Definition pingId : string := "65a000000000000000000001".
Definition echoId : string := "65a000000000000000000002".
Definition usersId : string := "65a000000000000000000003".
Definition notifyId : string := "65a000000000000000000004".
Definition missingId : string := "65a0000000000000000000ff".

Definition is_hex (c : ascii) : bool :=
  let n := nat_of_ascii c in
  is_digit c
  || ((65 <=? n)%nat && (n <=? 70)%nat)
  || ((97 <=? n)%nat && (n <=? 102)%nat).

(** The texts [new ObjectId] accepts. *)
Definition is_objectId (s : string) : bool :=
  (String.length s =? 24)%nat && forallb is_hex (list_ascii_of_string s).

(** A world with empty caches and logs and no call made yet; its store
    throws, as [new ObjectId] does, on an id that is not 24 hex digits. *)
Definition freshWorld (flows : list Flow) (defs : list (string * Block))
    (up : list FetchRequest -> FetchRequest -> FetchOutcome) : World :=
  {| cachedFlows := ∅;
     cachedBlocks := ∅;
     flowsCollection := flows;
     blocksFindOne := fun blockId =>
       if is_objectId blockId then Returns (assoc_get blockId defs)
       else Throws "input must be a 24 character hex string, 12 byte Uint8Array, or an integer";
     execution_logs := [];
     upstream := up;
     fetched := [] |}.

Definition respondJson (status : Z) (body : value) : FetchOutcome :=
  Responded {| resp_status := status; resp_headers := []; resp_body := JsonBody body |}.

(** A POST whose body parses to the datum [v]. *)
Definition postValue (v : value) : Request :=
  {| req_method := "POST"; searchParams := []; req_json := Some v; req_headers := [] |}.

(** A POST whose body is a JSON object. *)
Definition post (body : obj) : Request := postValue (VObj body).

Definition apiBlock (httpMethod path : string) (ins : list InputDefinition)
    (outs : list OutputDefinition) : Block :=
  {| block_type := api_call;
     block_source := {| src_path := path; method := httpMethod;
                        serverUrl := Some "https://up" |};
     block_inputs := ins;
     block_outputs := outs |}.

(** Scenario 4 of the specification: blocks A and B, connections A→B and
    B→A. *)
Definition loopFlow : Flow :=
  publishedFlow "loop"
    [instance "A" pingId [] None; instance "B" pingId [] None]
    [connect "A" "B"; connect "B" "A"] [] [].

(** The same with a third, unconnected block X. *)
Definition loopFlowX : Flow :=
  publishedFlow "loopx"
    [instance "X" pingId [] None; instance "A" pingId [] None; instance "B" pingId [] None]
    [connect "A" "B"; connect "B" "A"] [] [].

Definition pingBlock : Block := apiBlock "GET" "/ping" [] [].

Definition loopWorld : World :=
  freshWorld [loopFlow; loopFlowX] [(pingId, pingBlock)]
             (fun _ _ => respondJson 200 (VObj [])).

(** Scenario 2: flow [echo] with its input [msg] required. *)
Definition echoBlock : Block :=
  apiBlock "GET" "/echo"
    [{| in_name := "msg"; in_in := in_query; in_required := true |}]
    [{| out_name := "reply"; out_path := "$.args.msg" |}].

Definition echoFlow : Flow :=
  publishedFlow "echo"
    [instance "E" echoId
       [{| targetInput := "msg"; source := flow_input (Some "msg") |}] None]
    []
    [{| fi_name := "msg"; fi_required := true; defaultValue := VUndefined |}]
    [{| fo_name := "reply"; sourceBlockId := "E"; sourceOutput := "reply" |}].

Definition echoWorld : World :=
  freshWorld [echoFlow] [(echoId, echoBlock)]
    (fun _ _ => respondJson 200 (VObj [("args", VObj [("msg", VStr "hi")])])).

(** Scenarios 3 and 5: A looks a user up, B notifies the address A found.
    Here the lookup answers 500 with a JSON body. *)
Definition usersBlock : Block :=
  apiBlock "GET" "/users/{id}"
    [{| in_name := "id"; in_in := in_path; in_required := true |}]
    [{| out_name := "email"; out_path := "$.email" |}].

Definition notifyBlock : Block :=
  apiBlock "POST" "/notify"
    [{| in_name := "to"; in_in := in_query; in_required := false |};
     {| in_name := "subject"; in_in := in_body; in_required := false |}]
    [{| out_name := "ok"; out_path := "$.ok" |}].

Definition chainFlow (configA : option FlowBlockConfig) : Flow :=
  publishedFlow "chain"
    [instance "A" usersId [{| targetInput := "id"; source := flow_input (Some "id") |}]
              configA;
     instance "B" notifyId
              [{| targetInput := "to"; source := block_output (Some "A") (Some "email") |};
               {| targetInput := "subject"; source := constant (VStr "hello") |}] None]
    [connect "A" "B"]
    [{| fi_name := "id"; fi_required := true; defaultValue := VUndefined |}]
    [{| fo_name := "sent"; sourceBlockId := "B"; sourceOutput := "ok" |}].

Definition failingLookup (history : list FetchRequest) (req : FetchRequest) : FetchOutcome :=
  if String.prefix "https://up/users/" (url req)
  then respondJson 500 (VObj [("email", VStr "stale@x")])
  else respondJson 200 (VObj [("ok", VBool true)]).

Definition chainWorld (configA : option FlowBlockConfig) : World :=
  freshWorld [chainFlow configA] [(usersId, usersBlock); (notifyId, notifyBlock)]
             failingLookup.

(** An upstream that answers 500 to the first request and 200 afterwards. *)
Definition flaky (history : list FetchRequest) (req : FetchRequest) : FetchOutcome :=
  match history with
  | [] => respondJson 500 (VObj [])
  | _ => respondJson 200 (VObj [("ok", VBool true)])
  end.

Definition retryThrice : option FlowBlockConfig :=
  Some {| timeout := None; retryCount := Some 3; continueOnError := None |}.

Definition retryNever : option FlowBlockConfig :=
  Some {| timeout := None; retryCount := Some 0; continueOnError := None |}.

Definition flakyWorld : World := freshWorld [] [(pingId, pingBlock)] flaky.

(** A flow whose own config asks for a 5 s timeout, around one block
    whose instance sets none. *)
Definition slowFlow : Flow :=
  with_config (publishedFlow "slow" [instance "P" pingId [] None] [] [] [])
              {| fc_timeout := Some 5000; parallel := None; errorHandling := None |}.

Definition slowWorld : World :=
  freshWorld [slowFlow] [(pingId, pingBlock)] (fun _ _ => respondJson 200 (VObj [])).

Definition tenSeconds : option FlowBlockConfig :=
  Some {| timeout := Some 10000; retryCount := None; continueOnError := None |}.

(** A flow with a connection from an id that is no block: ghost→B, B→C. *)
Definition danglingFlow : Flow :=
  publishedFlow "dangling"
    [instance "A" echoId [{| targetInput := "msg"; source := flow_input (Some "msg") |}] None;
     instance "B" pingId [] None;
     instance "C" pingId [] None]
    [connect "ghost" "B"; connect "B" "C"]
    []
    [{| fo_name := "reply"; sourceBlockId := "A"; sourceOutput := "reply" |};
     {| fo_name := "late"; sourceBlockId := "C"; sourceOutput := "pong" |}].

Definition danglingWorld : World :=
  freshWorld [danglingFlow] [(echoId, echoBlock); (pingId, pingBlock)]
    (fun _ _ => respondJson 200 (VObj [("args", VObj [("msg", VStr "hi")])])).

(** An upstream whose call is cut short by the abort signal. *)
Definition timedOutWorld : World :=
  freshWorld [] [(pingId, pingBlock)] (fun _ _ => Rejected "The operation timed out.").

(** ** A runtime for the scenarios

    A host that answers as the current runtimes do: a plain read of a
    name of [Object.prototype] gives a function; a read through the
    prototype of an array or a string gives a function for the usual
    method names and [undefined] otherwise; [AbortSignal.timeout]
    accepts the unsigned 32-bit delays.  The wording of its messages is
    one runtime's; the scenarios do not depend on it. *)

Definition arrayMethods : list string :=
  ["at"; "concat"; "entries"; "every"; "fill"; "filter"; "find"; "findIndex";
   "flat"; "flatMap"; "forEach"; "includes"; "indexOf"; "join"; "keys";
   "lastIndexOf"; "map"; "pop"; "push"; "reduce"; "reduceRight"; "reverse";
   "shift"; "slice"; "some"; "sort"; "splice"; "unshift"; "values"].

Definition stringMethods : list string :=
  ["at"; "charAt"; "charCodeAt"; "codePointAt"; "concat"; "endsWith"; "includes";
   "indexOf"; "lastIndexOf"; "localeCompare"; "match"; "normalize"; "padEnd";
   "padStart"; "repeat"; "replace"; "search"; "slice"; "split"; "startsWith";
   "substring"; "toLowerCase"; "toUpperCase"; "trim"; "trimEnd"; "trimStart"].

(** The text after the last dot of a reference. *)
Definition lastName (ref : string) : string :=
  List.last (split "." ref) ref.

Definition scenarioGet (v : value) (k : string) : outcome value :=
  match v with
  | VArr _ =>
      Returns (if inb k arrayMethods || inb k objectPrototypeNames
               then VHost ("Array.prototype." +:+ k) else VUndefined)
  | VStr _ =>
      Returns (if inb k stringMethods || inb k objectPrototypeNames
               then VHost ("String.prototype." +:+ k) else VUndefined)
  | VNum _ =>
      Returns (if inb k ["toFixed"; "toPrecision"; "toExponential"]
                  || inb k objectPrototypeNames
               then VHost ("Number.prototype." +:+ k) else VUndefined)
  | VBool _ =>
      Returns (if inb k objectPrototypeNames
               then VHost ("Boolean.prototype." +:+ k) else VUndefined)
  | VHost ref =>
      if String.eqb k "name"
      then Returns (if String.eqb ref "Object.prototype.constructor" then VStr "Object"
                    else if String.eqb ref "Object.prototype.__proto__" then VUndefined
                    else VStr (lastName ref))
      else if inb k ["caller"; "arguments"]
      then Throws "'caller', 'callee', and 'arguments' properties may not be accessed on strict mode functions or the arguments objects for calls to them"
      else Returns (if inb k ["call"; "apply"; "bind"] || inb k objectPrototypeNames
                    then VHost ("Function.prototype." +:+ k) else VUndefined)
  | _ => Returns VUndefined
  end.

Definition scenarioString (v : value) : outcome string :=
  match v with
  | VHost ref => Returns ("function " +:+ lastName ref +:+ "() { [native code] }")
  | VNum n => Returns (pretty n)
  | _ => Throws "Cannot convert object to primitive value"
  end.

Definition scenarioJson (v : value) : option string :=
  match v with
  | VNum n => Some (pretty n)
  | VStr s => Some (quote s)
  | _ => None
  end.

Definition scenarioHost : Host :=
  {| hostGet := scenarioGet;
     hostSet := fun v k x =>
       match v with
       | VArr _ => Returns (VHost "Array with properties")
       | VObj _ => Returns (VHost "Object with a prototype")
       | _ => Returns v
       end;
     hostString := scenarioString;
     hostJson := scenarioJson;
     hostTruthy := fun _ => true;
     hostIsArray := fun ref => String.eqb ref "Array with properties";
     abortTimeout := fun t =>
       if (0 <=? t) && (t <=? 4294967295) then None
       else Some ("The value of 'delay' is out of range. It must be >= 0 && <= 4294967295. Received "
                  +:+ pretty t);
     readNullish := fun v k =>
       "Cannot read properties of "
       +:+ (match v with VNull => "null" | _ => "undefined" end)
       +:+ " (reading '" +:+ k +:+ "')";
     writePrimitive := fun v k => "Cannot create property '" +:+ k +:+ "' on a primitive";
     uriMalformed := "URI malformed" |}.

(** A timeout no runtime accepts. *)
Definition negativeTimeout : option FlowBlockConfig :=
  Some {| timeout := Some (-1); retryCount := None; continueOnError := None |}.

(** ** Further notions about the planner *)

(** Some connection ends in [v]. *)
Definition hasIncoming (connections : list Connection) (v : string) : bool :=
  existsb (fun c => String.eqb (toBlockId c) v) connections.

(** [v] lies on a cycle or downstream of one. *)
Definition below_cycle (connections : list Connection) (v : string) : Prop :=
  exists u, on_cycle connections u /\ (u = v \/ reach connections u v).

(** Every connection starts at a block of the flow and no walk of
    connections returns to its start: the graph the data model asks for. *)
Definition well_formed (blocks : list FlowBlock) (connections : list Connection) : Prop :=
  (forall c, c ∈ connections -> fromBlockId c ∈ blockIds blocks) /\
  (forall v, ~ on_cycle connections v).

(** A rank that grows along the line A, C, B. *)
Definition lineRank (v : string) : nat :=
  if String.eqb v "A" then 0 else if String.eqb v "C" then 1 else 2.

(** A path that is not empty and does not start at the root marker. *)
Definition relative (path : string) : bool :=
  match path with
  | EmptyString => false
  | String c _ => negb (Ascii.eqb c "$")
  end.

(** The request of a block before any input is placed. *)
Definition bareUrl (block : Block) : string :=
  default EmptyString (serverUrl (block_source block)) +:+ src_path (block_source block).

(** A path segment: not empty and without a slash. *)
Definition segment (s : string) : bool :=
  negb (String.eqb s EmptyString) && all_chars (fun c => negb (Ascii.eqb c "/")) s.

(** Every edge of the editor joins two of its nodes. *)
Definition attached (st : EditorState) : Prop :=
  forall e, e ∈ edges st ->
    edge_source e ∈ map node_id (nodes st) /\ edge_target e ∈ map node_id (nodes st).

(** The pairs of nodes the edges join. *)
Definition joined (l : list Edge) : list (string * string) :=
  map (fun e => (edge_source e, edge_target e)) l.

(** The connections [syncToFlow] makes of the edges. *)
Definition edgeConnections (l : list Edge) : list Connection :=
  map (fun edge => {| conn_id := edge_id edge;
                      fromBlockId := edge_source edge;
                      toBlockId := edge_target edge |}) l.

(** A well-formed graph: blocks A, B, C stored in that order, connections
    A→C and C→B. *)
Definition lineBlocks : list FlowBlock :=
  [instance "A" pingId [] None; instance "B" pingId [] None; instance "C" pingId [] None].

Definition lineConnections : list Connection := [connect "A" "C"; connect "C" "B"].

(** A flow whose only block refers to a definition that does not exist
    and contains its own errors. *)
Definition containing : option FlowBlockConfig :=
  Some {| timeout := None; retryCount := None; continueOnError := Some true |}.

Definition containedFlow : Flow :=
  publishedFlow "contained" [instance "A" missingId [] containing] [] []
    [{| fo_name := "out"; sourceBlockId := "A"; sourceOutput := "x" |}].

(** A draft kept in the store next to the published [echo]. *)
Definition draftFlow : Flow :=
  {| flow_id := Some "id-draft"; slug := "draft-only"; version := 1;
     blocks := []; connections := []; inputs := []; outputs := [];
     flow_config := noFlowConfig; status := draft |}.

Definition draftWorld : World :=
  freshWorld [draftFlow; echoFlow] [(echoId, echoBlock)]
    (fun _ _ => respondJson 200 (VObj [("args", VObj [("msg", VStr "hi")])])).

(** A flow of one input with a default. *)
Definition greetFlow : Flow :=
  publishedFlow "greet"
    [instance "E" echoId
       [{| targetInput := "msg"; source := flow_input (Some "msg") |}] None]
    []
    [{| fi_name := "msg"; fi_required := false; defaultValue := VStr "hello" |}]
    [{| fo_name := "reply"; sourceBlockId := "E"; sourceOutput := "reply" |}].

Definition catalogue : value :=
  VObj [("items", VArr [VObj [("name", VStr "first")]; VObj [("name", VStr "second")]])].

(** A block posting a body to a path with a placeholder. *)
Definition updateBlock : Block :=
  {| block_type := api_call;
     block_source := {| src_path := "/users/{id}"; method := "PUT";
                        serverUrl := Some "https://api.example" |};
     block_inputs := [{| in_name := "id"; in_in := in_path; in_required := true |};
                      {| in_name := "enabled"; in_in := in_body; in_required := false |}];
     block_outputs := [{| out_name := "name"; out_path := "$.user.name" |};
                       {| out_name := "first"; out_path := "$.items[0]" |}] |}.

Definition node (id : string) : Node :=
  {| node_id := id; node_type := api_call; position := (0, 0);
     node_data := {| label := id; nd_blockId := echoId;
                     nd_inputMappings := None; nd_config := None |} |}.

Definition edge (id source target : string) : Edge :=
  {| edge_id := id; edge_source := source; edge_target := target; animated := true |}.

(** An editor holding the line A -> C -> B of an unsaved flow. *)
Definition lineEditor : EditorState :=
  {| flow := Some (publishedFlow "line" [] [] [] []);
     nodes := [node "A"; node "B"; node "C"];
     edges := [edge "e1" "A" "C"; edge "e2" "C" "B"];
     selectedNodeId := Some "C";
     hasChanges := false |}.

(** An input with a fallback: the constant stands unless block A
    delivered an address. *)
Definition fallbackMappings : list InputMapping :=
  [{| targetInput := "to"; source := constant (VStr "nobody@x") |};
   {| targetInput := "to"; source := block_output (Some "A") (Some "email") |};
   {| targetInput := "subject"; source := expression (Some "inputs.title + '!'") |}].

(** The flow [echo] with its output declared twice, the second time
    from a block that does not exist. *)
Definition twiceFlow : Flow :=
  publishedFlow "twice"
    [instance "E" echoId
       [{| targetInput := "msg"; source := flow_input (Some "msg") |}] None]
    []
    [{| fi_name := "msg"; fi_required := true; defaultValue := VUndefined |}]
    [{| fo_name := "reply"; sourceBlockId := "E"; sourceOutput := "reply" |};
     {| fo_name := "reply"; sourceBlockId := "Z"; sourceOutput := "reply" |}].

Definition twiceWorld : World :=
  freshWorld [twiceFlow] [(echoId, echoBlock)]
    (fun _ _ => respondJson 200 (VObj [("args", VObj [("msg", VStr "hi")])])).

(** A connection from an id that is no block, ghost→B, next to a block A
    whose definition does not exist. *)
Definition brokenFlow : Flow :=
  publishedFlow "broken"
    [instance "A" missingId [] None; instance "B" pingId [] None]
    [connect "ghost" "B"]
    []
    [{| fo_name := "late"; sourceBlockId := "B"; sourceOutput := "pong" |}].

Definition brokenWorld : World :=
  freshWorld [brokenFlow] [(pingId, pingBlock)] (fun _ _ => respondJson 200 (VObj [])).

(** * Properties *)

(** ** Insertion-ordered associations *)

Section Assoc.
Context {V : Type}.
Implicit Types (m : list (string * V)) (k : string) (v : V).

Lemma assoc_get_set_eq m k v : assoc_get k (assoc_set k v m) = Some v.
Proof.
  induction m as [|[k' v'] m IH]; simpl.
  - by rewrite String.eqb_refl.
  - destruct (String.eqb_spec k' k) as [->|Hne]; simpl.
    + by rewrite String.eqb_refl.
    + by destruct (String.eqb_spec k' k).
Qed.

Lemma assoc_get_set_ne m k k' v :
  k <> k' -> assoc_get k' (assoc_set k v m) = assoc_get k' m.
Proof.
  intros Hne. induction m as [|[k0 v0] m IH]; simpl.
  - by destruct (String.eqb_spec k k').
  - destruct (String.eqb_spec k0 k) as [->|Hk]; simpl.
    + by destruct (String.eqb_spec k k').
    + by rewrite IH.
Qed.

Lemma assoc_get_None m k : assoc_get k m = None <-> k ∉ map fst m.
Proof.
  induction m as [|[k0 v0] m IH]; simpl.
  - split; [intros _; apply not_elem_of_nil | done].
  - rewrite not_elem_of_cons. destruct (String.eqb_spec k0 k) as [->|Hk].
    + split; [done | by intros [? _]].
    + rewrite IH. split; [by intros ?; split; [congruence|] | by intros [_ ?]].
Qed.

Lemma assoc_set_keys m k v :
  map fst (assoc_set k v m)
  = match assoc_get k m with Some _ => map fst m | None => map fst m ++ [k] end.
Proof.
  induction m as [|[k0 v0] m IH]; simpl; [done|].
  destruct (String.eqb_spec k0 k) as [->|Hk]; simpl; [done|].
  rewrite IH. by destruct (assoc_get k m).
Qed.

Lemma assoc_set_keys_NoDup m k v :
  NoDup (map fst m) -> NoDup (map fst (assoc_set k v m)).
Proof.
  intros Hm. rewrite assoc_set_keys.
  destruct (assoc_get k m) eqn:Hk; [done|].
  apply NoDup_app. split_and!; [done | | apply NoDup_singleton].
  intros x Hx ->%list_elem_of_singleton. by apply assoc_get_None in Hk.
Qed.

Lemma insert_index_get_eq m i k v :
  assoc_get k m = None -> assoc_get k (insert_index i k v m) = Some v.
Proof.
  induction m as [|[k0 v0] m IH]; simpl.
  - by rewrite String.eqb_refl.
  - destruct (String.eqb_spec k0 k) as [->|Hk]; [done|]. intros Hm.
    destruct (canonical_index k0) as [j|]; [destruct (j <? i)%N|]; simpl;
      rewrite ?String.eqb_refl; try done.
    destruct (String.eqb_spec k0 k); [done | by apply IH].
Qed.

Lemma insert_index_get_ne m i k k' v :
  k <> k' -> assoc_get k' (insert_index i k v m) = assoc_get k' m.
Proof.
  intros Hne. induction m as [|[k0 v0] m IH]; simpl.
  - by destruct (String.eqb_spec k k').
  - destruct (canonical_index k0) as [j|]; [destruct (j <? i)%N|]; simpl.
    + by rewrite IH.
    + by destruct (String.eqb_spec k k').
    + by destruct (String.eqb_spec k k').
Qed.

Lemma assoc_get_app m1 m2 k :
  assoc_get k (m1 ++ m2)
  = match assoc_get k m1 with Some v => Some v | None => assoc_get k m2 end.
Proof.
  induction m1 as [|[k0 v0] m1 IH]; simpl; [done|].
  by destruct (String.eqb k0 k).
Qed.

(** What an assignment leaves under the assigned name: the value, or
    nothing when the name is [__proto__] and was no own property. *)
Lemma obj_set_get m k v :
  assoc_get k (obj_set k v m)
  = if String.eqb k "__proto__" && negb (bool_decide (is_Some (assoc_get k m)))
    then None else Some v.
Proof.
  unfold obj_set. destruct (assoc_get k m) as [v0|] eqn:Hk.
  - rewrite assoc_get_set_eq. rewrite bool_decide_true by done.
    by rewrite andb_false_r.
  - rewrite bool_decide_false by (by intros [? ?]). rewrite andb_true_r.
    destruct (String.eqb k "__proto__"); [done|].
    destruct (canonical_index k) as [i|].
    + by apply insert_index_get_eq.
    + rewrite assoc_get_app, Hk. simpl. by rewrite String.eqb_refl.
Qed.

Lemma obj_set_get_eq m k v :
  k <> "__proto__" -> assoc_get k (obj_set k v m) = Some v.
Proof. intros Hk%String.eqb_neq. by rewrite obj_set_get, Hk. Qed.

Lemma obj_set_get_ne m k k' v :
  k <> k' -> assoc_get k' (obj_set k v m) = assoc_get k' m.
Proof.
  intros Hne. unfold obj_set. destruct (assoc_get k m) as [v0|] eqn:Hk.
  - by apply assoc_get_set_ne.
  - destruct (String.eqb k "__proto__"); [done|].
    destruct (canonical_index k) as [i|].
    + by apply insert_index_get_ne.
    + rewrite assoc_get_app. destruct (assoc_get k' m); [done|]. simpl.
      by destruct (String.eqb_spec k k').
Qed.

Lemma insert_index_keys m i k v :
  map fst (insert_index i k v m) ≡ₚ k :: map fst m.
Proof.
  induction m as [|[k0 v0] m IH]; simpl; [done|].
  destruct (canonical_index k0) as [j|]; [destruct (j <? i)%N|]; simpl; try done.
  rewrite IH. apply Permutation_swap.
Qed.

(** The keys after an assignment. *)
Lemma obj_set_keys m k v :
  map fst (obj_set k v m)
  ≡ₚ if bool_decide (is_Some (assoc_get k m)) || String.eqb k "__proto__"
     then map fst m else k :: map fst m.
Proof.
  unfold obj_set. destruct (assoc_get k m) as [v0|] eqn:Hk.
  - rewrite bool_decide_true by done. simpl. by rewrite assoc_set_keys, Hk.
  - rewrite bool_decide_false by (by intros [? ?]). simpl.
    destruct (String.eqb k "__proto__"); [done|].
    destruct (canonical_index k) as [i|].
    + apply insert_index_keys.
    + rewrite map_app. simpl. by rewrite Permutation_app_comm.
Qed.

Lemma obj_set_keys_NoDup m k v :
  NoDup (map fst m) -> NoDup (map fst (obj_set k v m)).
Proof.
  intros Hm. rewrite obj_set_keys.
  destruct (assoc_get k m) as [v0|] eqn:Hk.
  - by rewrite bool_decide_true.
  - rewrite bool_decide_false by (by intros [? ?]). simpl.
    destruct (String.eqb k "__proto__"); [done|].
    apply NoDup_cons. split; [by apply assoc_get_None | done].
Qed.
End Assoc.

Lemma obj_get_set_eq (o : obj) k v :
  k <> "__proto__" -> obj_get (obj_set k v o) k = v.
Proof. intros. unfold obj_get. by rewrite obj_set_get_eq. Qed.

Lemma obj_get_set_ne (o : obj) k k' v :
  k <> k' -> obj_get (obj_set k v o) k' = obj_get o k'.
Proof. intros. unfold obj_get. by rewrite obj_set_get_ne. Qed.

Lemma objectMember_defined k :
  objectMember k <> VUndefined <-> k ∈ objectPrototypeNames.
Proof.
  unfold objectMember. destruct (inb k objectPrototypeNames) eqn:Hk.
  - split; [intros _|done]. unfold inb in Hk.
    apply existsb_exists in Hk as (x & Hx%list_elem_of_In & ->%String.eqb_eq). done.
  - split; [done|]. intros Hin. exfalso.
    assert (inb k objectPrototypeNames = true); [|congruence].
    apply existsb_exists. exists k. by rewrite <- list_elem_of_In, String.eqb_refl.
Qed.

Lemma degree_set_eq m k d : degree (assoc_set k d m) k = d.
Proof. unfold degree. by rewrite assoc_get_set_eq. Qed.

Lemma degree_set_ne m k k' d : k <> k' -> degree (assoc_set k d m) k' = degree m k'.
Proof. intros. unfold degree. by rewrite assoc_get_set_ne. Qed.

(** ** The planner's loop ends *)

Lemma waiting_set m k d :
  (waiting (assoc_set k d m) + (if (0 <? degree m k)%Z then 1 else 0)
   = waiting m + (if (0 <? d)%Z then 1 else 0))%nat.
Proof.
  unfold waiting, degree. induction m as [|[k0 d0] m IH]; simpl.
  - destruct (0 <? d); simpl; lia.
  - destruct (String.eqb_spec k0 k) as [->|Hk]; simpl.
    + destruct (0 <? d), (0 <? d0); simpl; lia.
    + destruct (0 <? d0); simpl; lia.
Qed.

Lemma relax_potential st next :
  (List.length (snd (relax st next)) + waiting (fst (relax st next))
   = List.length (snd st) + waiting (fst st))%nat.
Proof.
  destruct st as [deg q]. unfold relax; simpl.
  pose proof (waiting_set deg next (degree deg next - 1)) as H.
  destruct (Z.eqb_spec (degree deg next - 1) 0) as [H0|H0].
  - rewrite length_app; simpl.
    replace (0 <? degree deg next) with true in H by (symmetry; apply Z.ltb_lt; lia).
    replace (0 <? degree deg next - 1) with false in H by (symmetry; apply Z.ltb_ge; lia).
    lia.
  - destruct (Z.ltb_spec 0 (degree deg next - 1));
      destruct (Z.ltb_spec 0 (degree deg next)); lia.
Qed.

Lemma fold_relax_potential succs st :
  (List.length (snd (fold_left relax succs st)) + waiting (fst (fold_left relax succs st))
   = List.length (snd st) + waiting (fst st))%nat.
Proof.
  revert st. induction succs as [|next succs IH]; intros st; simpl; [done|].
  rewrite IH. apply relax_potential.
Qed.

Lemma kahn_exits fuel graph st :
  (List.length (queue st) + waiting (inDegree st) <= fuel)%nat ->
  queue (kahn fuel graph st) = [].
Proof.
  revert st. induction fuel as [|fuel IH]; intros st Hfuel; simpl.
  - destruct (queue st); [done | simpl in Hfuel; lia].
  - destruct (queue st) as [|current rest] eqn:Hq; [done|].
    pose proof (fold_relax_potential (default [] (graph !! current)) (inDegree st, rest)) as Hp.
    destruct (fold_left relax _ _) as [deg q]. simpl in *.
    apply IH. simpl. lia.
Qed.

Lemma initialQueue_potential inDeg :
  (List.length (initialQueue inDeg) + waiting inDeg <= List.length inDeg)%nat.
Proof.
  unfold initialQueue, waiting. rewrite length_map.
  induction inDeg as [|[k d] m IH]; simpl; [done|].
  destruct (Z.eqb_spec d 0) as [->|Hd]; simpl; [lia|].
  destruct (0 <? d); simpl; lia.
Qed.

(** The [while] loop of [topologicalSort] exits on its own condition:
    the iteration bound of the model is never what stops it. *)
Lemma topologicalSort_exits blocks connections :
  queue (kahnRun blocks connections) = [].
Proof.
  unfold kahnRun. apply kahn_exits. unfold kahnStart; simpl.
  apply initialQueue_potential.
Qed.

(** ** What [buildGraph] computes *)

Lemma inb_elem_of x l : inb x l = true <-> x ∈ l.
Proof.
  unfold inb. rewrite existsb_exists. split.
  - intros (y & Hy & ->%String.eqb_eq). by apply list_elem_of_In.
  - intros Hx. exists x. split; [by apply list_elem_of_In | apply String.eqb_refl].
Qed.

Lemma inb_not_elem_of x l : inb x l = false <-> x ∉ l.
Proof. rewrite <- inb_elem_of. by destruct (inb x l). Qed.

Lemma inb_app x l1 l2 : inb x (l1 ++ l2) = inb x l1 || inb x l2.
Proof. unfold inb. apply existsb_app. Qed.

Lemma graph_init blocks g d u :
  fst (fold_left initBlock blocks (g, d)) !! u
  = if inb u (blockIds blocks) then Some [] else g !! u.
Proof.
  revert g d. induction blocks as [|b bs IH]; intros g d; simpl; [done|].
  unfold initBlock at 2; simpl. rewrite IH.
  destruct (inb u (blockIds bs)); [by rewrite orb_true_r|]. rewrite orb_false_r.
  destruct (String.eqb_spec u (fb_id b)) as [->|Hne].
  - by rewrite lookup_insert_eq.
  - by rewrite lookup_insert_ne.
Qed.

Lemma graph_build connections g d u :
  fst (fold_left addConnection connections (g, d)) !! u
  = (fun succs => succs ++ successorsOf u connections) <$> (g !! u).
Proof.
  revert g d. induction connections as [|c cs IH]; intros g d; simpl.
  - unfold successorsOf; simpl. destruct (g !! u); simpl; [by rewrite app_nil_r | done].
  - unfold addConnection at 2; simpl. rewrite IH. unfold successorsOf; simpl.
    destruct (String.eqb_spec (fromBlockId c) u) as [<-|Hne]; simpl.
    + destruct (g !! fromBlockId c) as [succs|] eqn:Hg.
      * rewrite lookup_insert_eq; simpl. by rewrite <- app_assoc.
      * by rewrite Hg.
    + destruct (g !! fromBlockId c) as [succs|] eqn:Hg; [|done].
      by rewrite lookup_insert_ne.
Qed.

Lemma graph_lookup blocks connections u :
  fst (buildGraph blocks connections) !! u
  = if inb u (blockIds blocks) then Some (successorsOf u connections) else None.
Proof.
  unfold buildGraph.
  destruct (fold_left initBlock blocks (∅, [])) as [g d] eqn:Hinit.
  rewrite graph_build.
  replace g with (fst (fold_left initBlock blocks (∅, []))) by (by rewrite Hinit).
  rewrite graph_init. destruct (inb u (blockIds blocks)); [done|].
  by rewrite lookup_empty.
Qed.

Lemma degree_init blocks g d v :
  degree (snd (fold_left initBlock blocks (g, d))) v
  = if inb v (blockIds blocks) then 0 else degree d v.
Proof.
  revert g d. induction blocks as [|b bs IH]; intros g d; simpl; [done|].
  unfold initBlock at 2; simpl. rewrite IH.
  destruct (inb v (blockIds bs)); [by rewrite orb_true_r|]. rewrite orb_false_r.
  destruct (String.eqb_spec v (fb_id b)) as [->|Hne].
  - by rewrite degree_set_eq.
  - by rewrite degree_set_ne.
Qed.

Lemma degree_build connections g d v :
  degree (snd (fold_left addConnection connections (g, d))) v
  = degree d v + Z.of_nat (pending [] connections [] v).
Proof.
  revert g d. induction connections as [|c cs IH]; intros g d; simpl.
  - unfold pending; simpl. lia.
  - unfold addConnection at 2; simpl. rewrite IH. unfold pending, settled; simpl.
    destruct (String.eqb_spec (toBlockId c) v) as [<-|Hne]; simpl.
    + rewrite degree_set_eq. lia.
    + by rewrite degree_set_ne.
Qed.

Lemma pending_start ids connections v :
  pending ids connections [] v = pending [] connections [] v.
Proof.
  unfold pending. f_equal. apply filter_ext. intros c.
  unfold settled; simpl. by rewrite andb_false_r.
Qed.

Lemma degree_start blocks connections v :
  degree (snd (buildGraph blocks connections)) v
  = Z.of_nat (pending (blockIds blocks) connections [] v).
Proof.
  unfold buildGraph.
  destruct (fold_left initBlock blocks (∅, [])) as [g d] eqn:Hinit.
  rewrite degree_build, (pending_start (blockIds blocks)).
  replace d with (snd (fold_left initBlock blocks (∅, []))) by (by rewrite Hinit).
  rewrite degree_init. unfold degree; simpl. by destruct (inb v (blockIds blocks)).
Qed.

Lemma keys_init blocks g d :
  NoDup (map fst d) -> NoDup (map fst (snd (fold_left initBlock blocks (g, d)))).
Proof.
  revert g d. induction blocks as [|b bs IH]; intros g d Hd; simpl; [done|].
  apply IH. by apply assoc_set_keys_NoDup.
Qed.

Lemma keys_build connections g d :
  NoDup (map fst d) -> NoDup (map fst (snd (fold_left addConnection connections (g, d)))).
Proof.
  revert g d. induction connections as [|c cs IH]; intros g d Hd; simpl; [done|].
  apply IH. by apply assoc_set_keys_NoDup.
Qed.

Lemma keys_NoDup blocks connections :
  NoDup (map fst (snd (buildGraph blocks connections))).
Proof.
  unfold buildGraph.
  destruct (fold_left initBlock blocks (∅, [])) as [g d] eqn:Hinit.
  apply keys_build.
  replace d with (snd (fold_left initBlock blocks (∅, []))) by (by rewrite Hinit).
  apply keys_init. simpl. constructor.
Qed.

(** ** One pass over the successors of an emitted node *)

Lemma occurrences_cons v x l :
  occurrences v (x :: l) = ((if String.eqb v x then 1 else 0) + occurrences v l)%nat.
Proof. unfold occurrences; simpl. by destruct (String.eqb v x). Qed.

Lemma pending_cons ids c cs emitted v :
  pending ids (c :: cs) emitted v
  = ((if String.eqb (toBlockId c) v && negb (settled ids emitted c) then 1 else 0)
     + pending ids cs emitted v)%nat.
Proof.
  unfold pending; simpl.
  by destruct (String.eqb (toBlockId c) v && negb (settled ids emitted c)).
Qed.

Lemma successorsOf_cons u c cs :
  successorsOf u (c :: cs)
  = if String.eqb (fromBlockId c) u then toBlockId c :: successorsOf u cs
    else successorsOf u cs.
Proof. unfold successorsOf; simpl. by destruct (String.eqb (fromBlockId c) u). Qed.

(** Emitting [current] settles exactly the connections its successor
    list holds. *)
Lemma pending_emit ids connections emitted current v :
  current ∉ emitted ->
  pending ids connections emitted v
  = (pending ids connections (emitted ++ [current]) v
     + occurrences v (if inb current ids then successorsOf current connections else []))%nat.
Proof.
  intros Hfresh%inb_not_elem_of.
  induction connections as [|c cs IH].
  { by destruct (inb current ids). }
  rewrite !pending_cons, IH, successorsOf_cons. clear IH.
  unfold settled. rewrite inb_app. simpl. rewrite orb_false_r.
  destruct (String.eqb_spec (fromBlockId c) current) as [Hc|Hc].
  - rewrite Hc, Hfresh. simpl. rewrite andb_true_r.
    destruct (inb current ids) eqn:Hids; simpl.
    + rewrite andb_false_r, andb_true_r, occurrences_cons.
      rewrite (String.eqb_sym v (toBlockId c)).
      destruct (String.eqb (toBlockId c) v); simpl; lia.
    + rewrite andb_true_r. destruct (String.eqb (toBlockId c) v); simpl; lia.
  - rewrite orb_false_r.
    destruct (String.eqb (toBlockId c) v
              && negb (inb (fromBlockId c) ids && inb (fromBlockId c) emitted));
      destruct (inb current ids); simpl; lia.
Qed.

Lemma fold_relax_degree succs st v :
  degree (fst (fold_left relax succs st)) v
  = degree (fst st) v - Z.of_nat (occurrences v succs).
Proof.
  revert st. induction succs as [|next succs IH]; intros st; simpl.
  - unfold occurrences; simpl. lia.
  - rewrite IH, occurrences_cons. unfold relax; simpl.
    destruct (String.eqb_spec v next) as [->|Hne].
    + rewrite degree_set_eq. lia.
    + rewrite degree_set_ne by done. lia.
Qed.

(** The nodes a pass enqueues: each once, each waiting before the pass
    and ready after it. *)
Lemma fold_relax_queue succs st :
  exists new,
    snd (fold_left relax succs st) = snd st ++ new /\
    NoDup new /\
    forall v, v ∈ new ->
      1 <= degree (fst st) v /\ degree (fst (fold_left relax succs st)) v <= 0.
Proof.
  revert st. induction succs as [|next succs IH]; intros st; simpl.
  { exists []. rewrite app_nil_r. split_and!; [done | constructor |].
    intros v Hv. by apply elem_of_nil in Hv. }
  destruct (IH (relax st next)) as (new & Hq & Hnd & Hnew).
  pose proof (fold_relax_degree succs (relax st next)) as Hdeg.
  unfold relax in Hq, Hnew, Hdeg |- *; simpl in *.
  destruct (Z.eqb_spec (degree (fst st) next - 1) 0) as [H0|H0]; simpl in *.
  - exists (next :: new). rewrite Hq, <- app_assoc. split_and!; [done | |].
    + apply NoDup_cons. split; [|done].
      intros Hin. apply Hnew in Hin as [Hin _]. rewrite degree_set_eq in Hin. lia.
    + intros v [->|Hv]%elem_of_cons.
      * split; [lia|]. rewrite Hdeg, degree_set_eq. lia.
      * destruct (Hnew v Hv) as [H1 H2]. split; [|done].
        destruct (String.eqb_spec next v) as [->|Hne].
        -- rewrite degree_set_eq in H1. lia.
        -- by rewrite degree_set_ne in H1.
  - exists new. split_and!; [done | done |].
    intros v Hv. destruct (Hnew v Hv) as [H1 H2]. split; [|done].
    destruct (String.eqb_spec next v) as [->|Hne].
    + rewrite degree_set_eq in H1. lia.
    + by rewrite degree_set_ne in H1.
Qed.

Lemma initialQueue_keys m v : v ∈ initialQueue m -> v ∈ map fst m.
Proof.
  unfold initialQueue. intros ([k d] & <- & Hv%filter_In)%list_elem_of_In%in_map_iff.
  apply list_elem_of_In, in_map_iff. exists (k, d). by destruct Hv.
Qed.

Lemma initialQueue_NoDup m : NoDup (map fst m) -> NoDup (initialQueue m).
Proof.
  induction m as [|[k d] m IH]; simpl; [constructor|].
  intros [Hk Hnd]%NoDup_cons. unfold initialQueue in *; simpl.
  destruct (d =? 0); simpl; [|by apply IH].
  apply NoDup_cons. split; [|by apply IH].
  intros Hin. by apply Hk, initialQueue_keys.
Qed.

Lemma initialQueue_zero m v :
  NoDup (map fst m) -> v ∈ initialQueue m -> degree m v = 0.
Proof.
  induction m as [|[k d] m IH]; simpl.
  - intros _ Hv. by apply elem_of_nil in Hv.
  - intros [Hk Hnd]%NoDup_cons Hv. unfold degree; simpl.
    destruct (String.eqb_spec k v) as [->|Hne].
    + unfold initialQueue in Hv; simpl in Hv.
      destruct (Z.eqb_spec d 0) as [->|Hd]; [done|].
      destruct Hk. by apply initialQueue_keys.
    + apply IH; [done|]. unfold initialQueue in Hv; simpl in Hv.
      destruct (d =? 0); [|done].
      apply elem_of_cons in Hv as [Hv|Hv]; [by destruct Hne | done].
Qed.

(** ** The planner's invariant *)

Section Planner.
Variable blocks : list FlowBlock.
Variable connections : list Connection.
Variable P : string -> Prop.
Hypothesis P_starved : starved blocks connections P.

Let ids := blockIds blocks.
Let graph := fst (buildGraph blocks connections).
Let planner_inv := planner_invariant ids connections P.

Lemma starved_pending emitted v :
  P v -> (forall u, u ∈ emitted -> ~ P u) ->
  (1 <= pending ids connections emitted v)%nat.
Proof.
  intros Hv Hout. destruct (P_starved v Hv) as (c & Hc & Hto & Hfrom).
  unfold pending.
  assert (Hin : c ∈ List.filter
            (fun c => String.eqb (toBlockId c) v && negb (settled ids emitted c))
            connections).
  { apply list_elem_of_In, filter_In. split; [by apply list_elem_of_In|].
    rewrite Hto, String.eqb_refl. simpl. unfold settled.
    destruct Hfrom as [Hfrom|Hfrom].
    - apply inb_not_elem_of in Hfrom. fold ids in Hfrom. by rewrite Hfrom.
    - destruct (inb (fromBlockId c) emitted) eqn:Hem.
      + apply inb_elem_of in Hem. by destruct (Hout _ Hem).
      + by rewrite andb_false_r. }
  destruct (List.filter _ connections); [by apply elem_of_nil in Hin | simpl; lia].
Qed.

Lemma planner_inv_start : planner_inv (kahnStart blocks connections).
Proof.
  pose proof (keys_NoDup blocks connections) as Hnd.
  split; simpl.
  - intros v. apply degree_start.
  - by apply initialQueue_NoDup.
  - intros v Hv. rewrite (initialQueue_zero _ v Hnd Hv). lia.
  - intros v Hv Hp. pose proof (initialQueue_zero _ v Hnd Hv) as H0.
    rewrite degree_start in H0.
    pose proof (starved_pending [] v Hp) as H1. fold ids in H0.
    assert (1 <= pending ids connections [] v)%nat; [|lia].
    apply H1. intros u Hu. by apply elem_of_nil in Hu.
Qed.

Lemma planner_inv_step st current rest :
  planner_inv st -> queue st = current :: rest ->
  planner_inv
    {| queue := snd (fold_left relax (default [] (graph !! current)) (inDegree st, rest));
       inDegree := fst (fold_left relax (default [] (graph !! current)) (inDegree st, rest));
       result := result st ++ [current] |}.
Proof.
  intros [Hdeg Honce Hready Hout] Hq. rewrite Hq in *.
  set (succs := default [] (graph !! current)).
  assert (Hsuccs : succs = if inb current ids then successorsOf current connections else []).
  { unfold succs, graph, ids. rewrite graph_lookup. by destruct (inb current (blockIds blocks)). }
  assert (Hfresh : current ∉ result st).
  { intros Hin. apply NoDup_app in Honce as (_ & Hdisj & _).
    apply (Hdisj current Hin). apply elem_of_cons; by left. }
  destruct (fold_relax_queue succs (inDegree st, rest)) as (new & Hnewq & Hnd & Hnew).
  pose proof (fold_relax_degree succs (inDegree st, rest)) as Hd. simpl in *.
  assert (Hdeg' : forall v,
            degree (fst (fold_left relax succs (inDegree st, rest))) v
            = Z.of_nat (pending ids connections (result st ++ [current]) v)).
  { intros v. rewrite Hd, Hdeg, (pending_emit ids connections (result st) current v Hfresh).
    rewrite <- Hsuccs. lia. }
  assert (Hold : forall v, v ∈ result st ++ current :: rest -> v ∉ new).
  { intros v Hv Hin. apply Hready in Hv. apply Hnew in Hin. lia. }
  assert (Hshape : (result st ++ [current]) ++ snd (fold_left relax succs (inDegree st, rest))
                   = (result st ++ current :: rest) ++ new).
  { rewrite Hnewq, <- !app_assoc. done. }
  split; simpl; rewrite ?Hshape.
  - done.
  - apply NoDup_app. by split_and!.
  - intros v [Hv|Hv]%elem_of_app.
    + rewrite Hd. apply Hready in Hv. lia.
    + by apply Hnew in Hv as [_ ?].
  - intros v [Hv|Hv]%elem_of_app; [by apply Hout|].
    intros Hp. apply Hnew in Hv as [_ Hv]. rewrite Hdeg' in Hv.
    assert (1 <= pending ids connections (result st ++ [current]) v)%nat; [|lia].
    apply starved_pending; [done|].
    intros u Hu. apply Hout.
    apply elem_of_app in Hu as [Hu|Hu%list_elem_of_singleton].
    * apply elem_of_app; by left.
    * subst u. apply elem_of_app; right. apply elem_of_cons; by left.
Qed.

Lemma planner_inv_kahn fuel st :
  planner_inv st -> planner_inv (kahn fuel graph st).
Proof.
  revert st. induction fuel as [|fuel IH]; intros st Hst; simpl; [done|].
  destruct (queue st) as [|current rest] eqn:Hq; [done|].
  pose proof (planner_inv_step st current rest Hst Hq) as Hstep.
  destruct (fold_left relax _ _) as [deg q]. by apply IH.
Qed.

Lemma planner_inv_run : planner_inv (kahnRun blocks connections).
Proof. apply planner_inv_kahn, planner_inv_start. Qed.

(** No member of a starved set is ever emitted. *)
Lemma starved_not_emitted v :
  P v -> v ∉ topologicalSort blocks connections.
Proof.
  intros Hp Hin. destruct planner_inv_run as [_ _ _ Hout].
  apply (Hout v); [|done]. apply elem_of_app. by left.
Qed.
End Planner.

(** ** Cycles and dangling connections starve their blocks *)

Lemma reach_last connections u v :
  reach connections u v ->
  exists c, c ∈ connections /\ toBlockId c = v /\
            (fromBlockId c = u \/ reach connections u (fromBlockId c)).
Proof. intros [c Hc|u' c Hr Hc]; exists c; eauto. Qed.

Lemma reach_trans connections a b c :
  reach connections a b -> reach connections b c -> reach connections a c.
Proof.
  intros Hab Hbc. induction Hbc as [e He|b e Hbe IH He].
  - by apply reach_more.
  - apply reach_more; [by apply IH | done].
Qed.

Lemma on_cycle_starved blocks connections :
  starved blocks connections (on_cycle connections).
Proof.
  intros v Hv. unfold on_cycle in *.
  destruct (reach_last _ _ _ Hv) as (c & Hc & Hto & Hfrom).
  exists c. split_and!; [done | done |]. right.
  destruct Hfrom as [Hfrom|Hfrom].
  - by rewrite Hfrom.
  - apply reach_trans with v; [|done]. rewrite <- Hto. by apply reach_one.
Qed.

Lemma cut_off_starved blocks connections :
  starved blocks connections (cut_off blocks connections).
Proof. intros v [c Hc Hfrom|c Hc Hfrom]; exists c; eauto. Qed.

Lemma cycle_not_emitted blocks connections v :
  on_cycle connections v -> v ∉ topologicalSort blocks connections.
Proof. apply starved_not_emitted, on_cycle_starved. Qed.

Lemma cut_off_not_emitted blocks connections v :
  cut_off blocks connections v -> v ∉ topologicalSort blocks connections.
Proof. apply starved_not_emitted, cut_off_starved. Qed.

Lemma nothing_starved blocks connections :
  starved blocks connections (fun _ => False).
Proof. by intros v []. Qed.

(** Every id is emitted at most once. *)
Lemma topologicalSort_NoDup blocks connections :
  NoDup (topologicalSort blocks connections).
Proof.
  destruct (planner_inv_run blocks connections _ (nothing_starved blocks connections))
    as [_ Honce _ _].
  rewrite topologicalSort_exits, app_nil_r in Honce. done.
Qed.

(** When the loop has ended, the indegree left on a node is the number
    of its incoming connections whose source was never emitted as a block. *)
Lemma final_degree blocks connections v :
  degree (inDegree (kahnRun blocks connections)) v
  = Z.of_nat (pending (blockIds blocks) connections
                      (topologicalSort blocks connections) v).
Proof.
  destruct (planner_inv_run blocks connections _ (nothing_starved blocks connections))
    as [Hdeg _ _ _].
  apply Hdeg.
Qed.

(** ** Assignments that keep an object plain *)

Lemma replaces_prototype_name o k x :
  k <> "__proto__" -> replaces_prototype o k x = false.
Proof.
  intros Hk. unfold replaces_prototype.
  destruct (String.eqb_spec k "__proto__"); [done|]. done.
Qed.

Lemma setProp_plain o k x :
  k <> "__proto__" -> setProp (VObj o) k x = Returns (VObj (obj_set k x o)).
Proof. intros Hk. unfold setProp. by rewrite replaces_prototype_name. Qed.

(** A JSON text, a number, a boolean or [undefined] never replaces a
    prototype. *)
Lemma setProp_primitive o k x :
  match x with VUndefined | VBool _ | VNum _ | VStr _ => True | _ => False end ->
  setProp (VObj o) k x = Returns (VObj (obj_set k x o)).
Proof.
  intros Hx. unfold setProp, replaces_prototype.
  destruct x; try done; by rewrite andb_false_r.
Qed.

(** A name that reads [undefined] on a plain object is assigned as an
    own property: [__proto__] reads the inherited member unless it is
    an own property already. *)
Lemma setProp_undefined o k x :
  obj_get o k = VUndefined -> setProp (VObj o) k x = Returns (VObj (obj_set k x o)).
Proof.
  intros Hread. unfold setProp, replaces_prototype.
  destruct (String.eqb_spec k "__proto__") as [->|]; [|done].
  unfold obj_get in Hread.
  destruct (assoc_get "__proto__" o); [by rewrite andb_false_r|done].
Qed.

Lemma truthy_obj o : truthy (VObj o) = true.
Proof. done. Qed.

(** ** Running the handlers *)

Lemma bind_run {A B : Type} (m : M A) (f : A -> M B) (w : World) :
  (m ≫= f) w = match m w with
               | (Returns a, w') => f a w'
               | (Throws reason, w') => (Throws reason, w')
               end.
Proof. reflexivity. Qed.

Lemma lift_run {A B : Type} (o : outcome A) (f : A -> M B) (w : World) :
  (lift o ≫= f) w = match o with
                    | Returns a => f a w
                    | Throws reason => (Throws reason, w)
                    end.
Proof. rewrite bind_run. unfold lift. by destruct o. Qed.

Lemma obind_run {A B : Type} (o : outcome A) (f : A -> outcome B) :
  (o ≫= f) = match o with
             | Returns a => f a
             | Throws reason => Throws reason
             end.
Proof. reflexivity. Qed.

(** Unfolds the monad's operations at the head of a run. *)
Ltac run_m :=
  cbv beta iota delta [mbind M_bind mret M_ret throw try_catch lift outcome_bind outcome_ret].

Lemma after_calls_refl w : after_calls w w [].
Proof. split; try done. by rewrite app_nil_r. Qed.

Lemma after_calls_trans w1 w2 w3 l1 l2 :
  after_calls w1 w2 l1 -> after_calls w2 w3 l2 -> after_calls w1 w3 (l1 ++ l2).
Proof.
  intros [F1 L1 U1 C1 B1] [F2 L2 U2 C2 B2].
  split; try congruence. by rewrite F2, F1, app_assoc.
Qed.

(** [executeApiCall], case by case.  An error thrown while the URL is
    built leaves the function; an error of [AbortSignal.timeout] is
    caught and no request is made; otherwise exactly one request is
    made, and every way it can end is turned into a result. *)
Lemma executeApiCall_run block ins config w :
  match buildParts block ins with
  | Throws reason => executeApiCall block ins config w = (Throws reason, w)
  | Returns parts =>
      match abortSignal config with
      | Throws reason => executeApiCall block ins config w = (Returns (failed reason), w)
      | Returns delay =>
          exists r w',
            executeApiCall block ins config w = (Returns r, w') /\
            after_calls w w' [requestOf block parts delay] /\
            r = match upstream w (fetched w) (requestOf block parts delay) with
                | Rejected reason => failed reason
                | Responded response =>
                    match resp_body response with
                    | NotJson reason => failed reason
                    | JsonBody body =>
                        match projectOutputs block body with
                        | Throws reason => failed reason
                        | Returns outs =>
                            {| be_status := if ok response then success else failure;
                               be_outputs := Some outs;
                               rawResponse := Some {| statusCode := resp_status response;
                                                      data := body;
                                                      raw_headers := resp_headers response |};
                               be_error := None |}
                        end
                    end
                end
      end
  end.
Proof.
  unfold executeApiCall. rewrite lift_run.
  destruct (buildParts block ins) as [parts|reason]; [|done].
  unfold try_catch. rewrite lift_run.
  destruct (abortSignal config) as [delay|reason]; [|done].
  rewrite bind_run. unfold fetch.
  destruct (upstream w (fetched w) (requestOf block parts delay)) as [reason|response].
  - eexists _, _. split; [reflexivity|]. split; [by split | done].
  - rewrite bind_run. unfold json.
    destruct (resp_body response) as [body|reason].
    + run_m. destruct (projectOutputs block body) as [outs|reason];
        eexists _, _; (split; [reflexivity|]); (split; [by split | done]).
    + eexists _, _. split; [reflexivity|]. split; [by split | done].
Qed.

(** [executeApiCall] makes at most one upstream call and writes no log. *)
Lemma executeApiCall_calls block ins config w :
  exists calls,
    after_calls w (snd (executeApiCall block ins config w)) calls /\
    (List.length calls <= 1)%nat.
Proof.
  pose proof (executeApiCall_run block ins config w) as Hrun.
  destruct (buildParts block ins) as [parts|reason].
  - destruct (abortSignal config) as [delay|reason].
    + destruct Hrun as (r & w' & -> & Hw' & _). eexists. split; [exact Hw' | simpl; lia].
    + rewrite Hrun. exists []. split; [apply after_calls_refl | simpl; lia].
  - rewrite Hrun. exists []. split; [apply after_calls_refl | simpl; lia].
Qed.

(** [executeBlock], case by case. *)
Lemma executeBlock_run blockId ins config (isTest : bool) w :
  exists w1, after_calls w w1 [] /\
    match definitionOf w blockId with
    | Throws reason => executeBlock blockId ins config isTest w = (Throws reason, w1)
    | Returns None =>
        executeBlock blockId ins config isTest w
        = (Returns (failed ("Block not found: " +:+ blockId)), w1)
    | Returns (Some block) =>
        if isTest return Prop
        then executeBlock blockId ins config isTest w = (Returns (testResult blockId), w1)
        else match block_type block with
             | api_call =>
                 executeBlock blockId ins config isTest w = executeApiCall block ins config w1
             | transform =>
                 executeBlock blockId ins config isTest w
                 = (Returns {| be_status := success; be_outputs := Some ins;
                               rawResponse := None; be_error := None |}, w1)
             | t =>
                 executeBlock blockId ins config isTest w
                 = (Returns (failed ("Unsupported block type: " +:+ blockTypeName t)), w1)
             end
    end.
Proof.
  unfold definitionOf.
  destruct (cachedBlocks w !! blockId) as [block|] eqn:Hc;
    [|destruct (blocksFindOne w blockId) as [[block|]|reason] eqn:Hf];
    eexists;
    (split;
     [|unfold executeBlock; run_m; unfold getBlock, findBlock, setBlock; rewrite Hc, ?Hf;
       try (destruct isTest; [reflexivity|]; destruct (block_type block)); reflexivity]).
  - apply after_calls_refl.
  - split; try done. simpl. by rewrite app_nil_r.
  - apply after_calls_refl.
  - apply after_calls_refl.
Qed.

(** A dispatch makes at most one upstream call, none in test mode, and
    writes no execution log. *)
Lemma executeBlock_calls blockId ins config isTest w :
  exists calls,
    after_calls w (snd (executeBlock blockId ins config isTest w)) calls /\
    (List.length calls <= 1)%nat /\
    (isTest = true -> calls = []).
Proof.
  destruct (executeBlock_run blockId ins config isTest w) as (w1 & Hw1 & Hrun).
  assert (Hnone : forall o, executeBlock blockId ins config isTest w = (o, w1) ->
            exists calls,
              after_calls w (snd (executeBlock blockId ins config isTest w)) calls /\
              (List.length calls <= 1)%nat /\ (isTest = true -> calls = [])).
  { intros o ->. exists []. split_and!; [done | simpl; lia | done]. }
  destruct (definitionOf w blockId) as [[block|]|reason]; [|by eapply Hnone..].
  destruct isTest; [by eapply Hnone|].
  destruct (executeApiCall_calls block ins config w1) as (calls & Hw' & Hlen).
  destruct (block_type block); try (by eapply Hnone).
  rewrite Hrun. exists calls.
  split_and!; [apply (after_calls_trans _ _ _ _ _ Hw1 Hw') | done | done].
Qed.

(** One turn of the loop never throws. *)
Lemma runBlock_calls flowBlock blockId isTest context w :
  exists step w' calls,
    runBlock flowBlock blockId isTest context w = (Returns step, w') /\
    after_calls w w' calls /\
    (List.length calls <= 1)%nat /\
    (isTest = true -> calls = []).
Proof.
  unfold runBlock, try_catch. rewrite lift_run.
  destruct (resolveInputMappings (inputMappings flowBlock) context) as [blockInputs|reason].
  - destruct (executeBlock_calls (fb_blockId flowBlock) blockInputs
                (config flowBlock) isTest w) as (calls & Hw & Hlen & Htest).
    rewrite bind_run.
    destruct (executeBlock _ _ _ _ w) as [[r|reason] w']; simpl in Hw.
    + destruct (be_error r) as [e|]; [destruct (negb (continues flowBlock))|];
        eexists _, w', calls; by split_and!.
    + destruct (negb (continues flowBlock)); eexists _, w', calls; by split_and!.
  - destruct (negb (continues flowBlock)); eexists _, w, [];
      (split_and!; [reflexivity | apply after_calls_refl | simpl; lia | done]).
Qed.

Lemma runBlocks_calls flow isTest executionOrder context w :
  exists r w' calls,
    runBlocks flow isTest executionOrder context w = (Returns r, w') /\
    after_calls w w' calls /\
    (List.length calls <= List.length executionOrder)%nat /\
    (isTest = true -> calls = []).
Proof.
  revert context w. induction executionOrder as [|blockId rest IH]; intros context w; simpl.
  { eexists _, w, []. split_and!; [reflexivity | apply after_calls_refl | done | done]. }
  destruct (List.find _ (blocks flow)) as [flowBlock|].
  - rewrite bind_run.
    destruct (runBlock_calls flowBlock blockId isTest context w)
      as (step & w1 & calls1 & -> & Hw1 & Hlen1 & Htest1).
    destruct step as [e|context'].
    + eexists _, w1, calls1. split_and!; [reflexivity | done | lia | done].
    + destruct (IH context' w1) as (r & w2 & calls2 & -> & Hw2 & Hlen2 & Htest2).
      eexists _, w2, (calls1 ++ calls2).
      split_and!; [reflexivity | by eapply after_calls_trans | rewrite length_app; lia |].
      intros Ht. by rewrite Htest1, Htest2.
  - destruct (IH context w) as (r & w2 & calls2 & -> & Hw2 & Hlen2 & Htest2).
    eexists _, w2, calls2. split_and!; [reflexivity | done | lia | done].
Qed.

(** A turn of the loop records a result under its own block id only. *)
Lemma runBlock_results flowBlock blockId isTest context w context' w' b :
  runBlock flowBlock blockId isTest context w = (Returns (inr context'), w') ->
  b <> blockId ->
  blockResults context' !! b = blockResults context !! b.
Proof.
  unfold runBlock, try_catch. rewrite lift_run.
  destruct (resolveInputMappings (inputMappings flowBlock) context) as [blockInputs|reason].
  - rewrite bind_run. destruct (executeBlock _ _ _ _ w) as [[r|reason] w1].
    + destruct (be_error r) as [e|]; [destruct (negb (continues flowBlock))|];
        intros [= <- <-] Hb; simpl; by rewrite ?lookup_insert_ne.
    + destruct (negb (continues flowBlock)); by intros [= <- <-].
  - destruct (negb (continues flowBlock)); by intros [= <- <-].
Qed.

(** The run records results for emitted blocks only. *)
Lemma runBlocks_results flow isTest executionOrder context w context' w' b :
  runBlocks flow isTest executionOrder context w = (Returns (inr context'), w') ->
  b ∉ executionOrder ->
  blockResults context' !! b = blockResults context !! b.
Proof.
  revert context w. induction executionOrder as [|blockId rest IH]; intros context w; simpl.
  { run_m. by intros [= <- <-]. }
  intros Hrun [Hb Hrest]%not_elem_of_cons.
  destruct (List.find _ (blocks flow)) as [flowBlock|]; [|by eapply IH].
  rewrite bind_run in Hrun.
  destruct (runBlock flowBlock blockId isTest context w) as [[[e|context1]|reason] w1] eqn:Hstep;
    try done.
  rewrite (IH _ _ Hrun Hrest). by eapply runBlock_results.
Qed.

(** The run leaves the inputs of the context as they were. *)
Lemma runBlock_inputs flowBlock blockId isTest context w context' w' :
  runBlock flowBlock blockId isTest context w = (Returns (inr context'), w') ->
  ctx_inputs context' = ctx_inputs context.
Proof.
  unfold runBlock, try_catch. rewrite lift_run.
  destruct (resolveInputMappings (inputMappings flowBlock) context) as [blockInputs|reason].
  - rewrite bind_run. destruct (executeBlock _ _ _ _ w) as [[r|reason] w1].
    + destruct (be_error r) as [e|]; [destruct (negb (continues flowBlock))|];
        by intros [= <- <-].
    + destruct (negb (continues flowBlock)); by intros [= <- <-].
  - destruct (negb (continues flowBlock)); by intros [= <- <-].
Qed.

Lemma loadFlow_run s w :
  exists w1, loadFlow s w = (Returns (served w s), w1) /\ after_calls w w1 [] /\
             (served w s = None -> w1 = w) /\
             (forall id, definitionOf w1 id = definitionOf w id).
Proof.
  unfold loadFlow, served. run_m. unfold getFlowBySlug, findPublished, setFlowBySlug.
  destruct (cachedFlows w !! s) as [flow|].
  - exists w. split_and!; [done | apply after_calls_refl | done | done].
  - destruct (List.find _ (flowsCollection w)) as [flow|].
    + eexists. split_and!; [reflexivity | | done | done].
      split; try done. simpl. by rewrite app_nil_r.
    + exists w. split_and!; [done | apply after_calls_refl | done | done].
Qed.

(** [runFlowExecution]: the loop always ends, in an error that stops
    the run or in a context; the outputs are then projected from the
    context, and what the projection throws leaves the function. *)
Lemma runFlowExecution_run flow ins isTest w :
  exists r w' calls,
    runBlocks flow isTest (topologicalSort (blocks flow) (connections flow))
              (initialContext flow ins) w = (Returns r, w') /\
    runFlowExecution flow ins isTest w
    = (match r with
       | inl e => Returns {| run_outputs := None; run_error := Some e |}
       | inr context' =>
           match buildOutputs flow context' with
           | Returns outs => Returns {| run_outputs := Some outs; run_error := None |}
           | Throws reason => Throws reason
           end
       end, w') /\
    after_calls w w' calls /\
    (List.length calls
     <= List.length (topologicalSort (blocks flow) (connections flow)))%nat /\
    (isTest = true -> calls = []).
Proof.
  destruct (runBlocks_calls flow isTest (topologicalSort (blocks flow) (connections flow))
              (initialContext flow ins) w) as (r & w' & calls & Hrun & Hw & Hlen & Htest).
  exists r, w', calls. split_and!; try done.
  unfold runFlowExecution. rewrite bind_run, Hrun. destruct r as [e|context']; [done|].
  rewrite lift_run. by destruct (buildOutputs flow context').
Qed.

(** [executeFlow], case by case: no flow served, an error thrown while
    the inputs are parsed, checked and completed, a required input
    missing, or the run and its answer; only a run that resolves is
    logged, and only outside test mode. *)
Lemma executeFlow_loaded s request isTest w :
  exists w1, after_calls w w1 [] /\
    (forall id, definitionOf w1 id = definitionOf w id) /\
    match served w s with
    | None =>
        executeFlow s request isTest w
        = (Returns (errorResponse "Flow not found or not published" 404 "ERROR"), w1)
    | Some flow =>
        match prepareInputs flow request with
        | Throws reason => executeFlow s request isTest w = (Throws reason, w1)
        | Returns (inl input) =>
            executeFlow s request isTest w
            = (Returns (errorResponse ("Missing required input: " +:+ fi_name input)
                                      400 "ERROR"), w1)
        | Returns (inr ins) =>
            exists run w2,
              runFlowExecution flow ins isTest w1 = (run, w2) /\
              executeFlow s request isTest w
              = (Returns (answer run),
                 match run with
                 | Returns r =>
                     if isTest then w2 else snd (logExecution flow ins r request w2)
                 | Throws _ => w2
                 end)
        end
    end.
Proof.
  destruct (loadFlow_run s w) as (w1 & Hload & Hw1 & _ & Hdefs). exists w1.
  split; [done|]. split; [done|].
  unfold executeFlow. rewrite bind_run, Hload.
  destruct (served w s) as [flow|]; [|done].
  unfold prepareInputs. rewrite lift_run, obind_run.
  destruct (parseInputs request) as [parsed|reason]; [|done].
  rewrite lift_run, obind_run.
  destruct (missingRequired flow parsed) as [[input|]|reason]; [done| |done].
  rewrite lift_run, obind_run.
  destruct (applyDefaults flow parsed) as [ins|reason]; [|done].
  destruct (runFlowExecution flow ins isTest w1) as [run w2] eqn:Hrun.
  exists run, w2. split; [done|].
  unfold try_catch. rewrite bind_run, Hrun.
  destruct run as [r|reason]; [|done].
  rewrite bind_run. unfold answer, respond.
  destruct isTest; simpl; by destruct (run_error r).
Qed.

Lemma executeFlow_run s request isTest w :
  exists w1, after_calls w w1 [] /\
    match served w s with
    | None =>
        executeFlow s request isTest w
        = (Returns (errorResponse "Flow not found or not published" 404 "ERROR"), w1)
    | Some flow =>
        match prepareInputs flow request with
        | Throws reason => executeFlow s request isTest w = (Throws reason, w1)
        | Returns (inl input) =>
            executeFlow s request isTest w
            = (Returns (errorResponse ("Missing required input: " +:+ fi_name input)
                                      400 "ERROR"), w1)
        | Returns (inr ins) =>
            exists run w2,
              runFlowExecution flow ins isTest w1 = (run, w2) /\
              executeFlow s request isTest w
              = (Returns (answer run),
                 match run with
                 | Returns r =>
                     if isTest then w2 else snd (logExecution flow ins r request w2)
                 | Throws _ => w2
                 end)
        end
    end.
Proof.
  destruct (executeFlow_loaded s request isTest w) as (w1 & Hw1 & _ & Hexec).
  by exists w1.
Qed.

(** ** [extractJsonPath] *)







Lemma strip_root_spec path :
  strip_root path
  = match path with
    | EmptyString => EmptyString
    | String c rest =>
        if Ascii.eqb c "$"
        then match rest with
             | EmptyString => EmptyString
             | String d rest' => if Ascii.eqb d "." then rest' else rest
             end
        else path
    end.
Proof.
  destruct path as [|c rest]; [done|].
  destruct c as [[] [] [] [] [] [] [] []]; try reflexivity.
  destruct rest as [|d rest]; [done|].
  destruct d as [[] [] [] [] [] [] [] []]; reflexivity.
Qed.

Lemma extractJsonPath_unfold body path :
  path <> EmptyString -> path <> "$" ->
  extractJsonPath body path = walkParts (split "." (strip_root path)) body.
Proof.
  intros H1%String.eqb_neq H2%String.eqb_neq. unfold extractJsonPath. by rewrite H1, H2.
Qed.

Lemma strip_root_relative q : relative q = true -> strip_root q = q.
Proof.
  destruct q as [|c q]; [done|]. unfold relative. intros Hc%negb_true_iff.
  by rewrite strip_root_spec, Hc.
Qed.


(** ** The assignment loops *)

Lemma projectInto_steps body l outs :
  projectInto body l outs = assignAll (callSteps body l) outs.
Proof.
  revert outs. induction l as [|output l IH]; intros outs; simpl; [done|].
  rewrite !obind_run. destruct (extractJsonPath body (out_path output)); [|done].
  rewrite !obind_run. destruct (setProp outs (out_name output) a); [apply IH | done].
Qed.

Lemma resolveMapping_step context result mapping :
  resolveMapping context result mapping
  = match mappingRead context mapping with
    | Some read => v ← read; setProp result (targetInput mapping) v
    | None => Returns result
    end.
Proof.
  unfold resolveMapping, mappingRead, mappedValue, carried.
  destruct (source mapping) as [name|blockId outputName|v|text]; try done.
  destruct (blockResults context !! default EmptyString blockId) as [r|]; [|done].
  destruct (be_outputs r) as [outs|]; [|done]. by destruct (truthy outs).
Qed.

Lemma resolveInto_steps context mappings result :
  resolveInto context mappings result = assignAll (mappingSteps context mappings) result.
Proof.
  revert result. induction mappings as [|m mappings IH]; intros result; simpl; [done|].
  rewrite obind_run, resolveMapping_step.
  destruct (mappingRead context m) as [read|]; [|apply IH].
  rewrite !obind_run. destruct read as [v|reason]; [|done].
  rewrite obind_run. destruct (setProp result (targetInput m) v); [apply IH | done].
Qed.

Lemma projectOutput_step context outs output :
  projectOutput context outs output
  = match sourceValue context output with
    | Some read => v ← read; setProp outs (fo_name output) v
    | None => Returns outs
    end.
Proof.
  unfold projectOutput, sourceValue, carried.
  destruct (blockResults context !! sourceBlockId output) as [r|]; [|done].
  destruct (be_outputs r) as [o|]; [|done]. by destruct (truthy o).
Qed.

Lemma projectAll_steps context decls outs :
  projectAll context decls outs = assignAll (outputSteps context decls) outs.
Proof.
  revert outs. induction decls as [|d decls IH]; intros outs; simpl; [done|].
  rewrite obind_run, projectOutput_step.
  destruct (sourceValue context d) as [read|]; [|apply IH].
  rewrite !obind_run. destruct read as [v|reason]; [|done].
  rewrite obind_run. destruct (setProp outs (fo_name d) v); [apply IH | done].
Qed.

(** A loop whose names are ordinary keeps a plain object plain, and
    leaves under every name the value of the last assignment to it. *)
Lemma assignAll_plain steps o res :
  ordinary_names (map fst steps) ->
  assignAll steps (VObj o) = Returns res ->
  exists o',
    res = VObj o' /\
    (NoDup (map fst o) -> NoDup (map fst o')) /\
    forall k,
      match lastAssigned steps k with
      | Some (Returns v) => assoc_get k o' = Some v
      | Some (Throws _) => False
      | None => assoc_get k o' = assoc_get k o
      end.
Proof.
  revert o. induction steps as [|[k0 [read|]] steps IH]; intros o Hnames Hrun;
    simpl in Hnames; cbn [assignAll] in Hrun; cbn [lastAssigned].
  - injection Hrun as <-. by exists o.
  - apply Forall_cons in Hnames as [Hk0 Hnames].
    rewrite obind_run in Hrun. destruct read as [v|reason]; [|done].
    cbv beta iota in Hrun. rewrite obind_run, setProp_plain in Hrun by done.
    destruct (IH _ Hnames Hrun) as (o' & -> & Hnd & Hget).
    exists o'. split_and!; [done | |].
    + intros Ho. by apply Hnd, obj_set_keys_NoDup.
    + intros k. specialize (Hget k).
      destruct (lastAssigned steps k) as [[v'|reason]|]; [done | done |].
      destruct (String.eqb_spec k0 k) as [->|Hne].
      * by rewrite Hget, obj_set_get_eq.
      * by rewrite Hget, obj_set_get_ne.
  - apply Forall_cons in Hnames as [Hk0 Hnames].
    destruct (IH _ Hnames Hrun) as (o' & -> & Hnd & Hget).
    exists o'. split_and!; [done | done |].
    intros k. specialize (Hget k).
    destruct (lastAssigned steps k) as [[v'|reason]|]; [done | done |].
    by destruct (String.eqb k0 k).
Qed.

(** When every read returns, so does the loop. *)
Lemma assignAll_returns steps o :
  ordinary_names (map fst steps) ->
  Forall (fun step => forall reason, snd step <> Some (Throws reason)) steps ->
  exists o', assignAll steps (VObj o) = Returns (VObj o').
Proof.
  revert o. induction steps as [|[k0 [read|]] steps IH]; intros o Hnames Hreads;
    simpl in Hnames; cbn [assignAll].
  - by exists o.
  - apply Forall_cons in Hnames as [Hk0 Hnames].
    apply Forall_cons in Hreads as [Hread Hreads]. simpl in Hread.
    rewrite obind_run. destruct read as [v|reason]; [|by destruct (Hread reason)].
    cbv beta iota. rewrite obind_run, setProp_plain by done. by apply IH.
  - apply Forall_cons in Hnames as [Hk0 Hnames].
    apply Forall_cons in Hreads as [_ Hreads]. by apply IH.
Qed.

(** The names a loop leaves on the object: those it had and those
    assigned. *)
Lemma assignAll_keys steps o o' k :
  ordinary_names (map fst steps) ->
  assignAll steps (VObj o) = Returns (VObj o') ->
  k ∈ map fst o' <->
  k ∈ map fst o \/ exists read, (k, Some read) ∈ steps.
Proof.
  revert o. induction steps as [|[k0 [read|]] steps IH]; intros o Hnames Hrun;
    simpl in Hnames; cbn [assignAll] in Hrun.
  - injection Hrun as <-. split; [by left|]. intros [?|(read & Hin)]; [done|].
    by apply elem_of_nil in Hin.
  - apply Forall_cons in Hnames as [Hk0 Hnames].
    rewrite obind_run in Hrun. destruct read as [v|reason]; [|done].
    cbv beta iota in Hrun. rewrite obind_run, setProp_plain in Hrun by done.
    rewrite (IH _ Hnames Hrun), obj_set_keys.
    assert (Hkeys : k ∈ (if bool_decide (is_Some (assoc_get k0 o)) || String.eqb k0 "__proto__"
                         then map fst o else k0 :: map fst o)
                    <-> k = k0 \/ k ∈ map fst o).
    { destruct (assoc_get k0 o) as [v0|] eqn:Hown.
      - rewrite bool_decide_true by done. simpl. split; [by right|].
        intros [->|?]; [|done].
        destruct (decide (k0 ∈ map fst o)) as [?|Hno]; [done|].
        apply assoc_get_None in Hno. congruence.
      - rewrite bool_decide_false by (by intros [? ?]). simpl.
        apply String.eqb_neq in Hk0. rewrite Hk0. apply elem_of_cons. }
    rewrite Hkeys. split.
    + intros [[->|?]|(read & Hin)]; [right | by left | right].
      * exists (Returns v). apply elem_of_cons. by left.
      * exists read. apply elem_of_cons. by right.
    + intros [?|(read & [Heq|Hin]%elem_of_cons)].
      * left. by right.
      * injection Heq as -> _. left. by left.
      * right. by exists read.
  - apply Forall_cons in Hnames as [Hk0 Hnames].
    rewrite (IH _ Hnames Hrun). split.
    + intros [?|(read & Hin)]; [by left|]. right. exists read. apply elem_of_cons. by right.
    + intros [?|(read & [Heq|Hin]%elem_of_cons)]; [by left | done | right; by exists read].
Qed.

(** ** Consequences for the three loops *)

Lemma lastAssigned_absent steps k :
  (forall read, (k, Some read) ∉ steps) -> lastAssigned steps k = None.
Proof.
  induction steps as [|[k0 read0] steps IH]; intros Hk; simpl; [done|].
  rewrite IH.
  - destruct (String.eqb_spec k0 k) as [->|]; [|done].
    destruct read0 as [read|]; [|done].
    destruct (Hk read). apply elem_of_cons. by left.
  - intros read Hin. apply (Hk read), elem_of_cons. by right.
Qed.

(** With distinct names, the last assignment to a step's name is the
    step itself. *)
Lemma lastAssigned_unique steps k read :
  NoDup (map fst steps) -> (k, read) ∈ steps -> lastAssigned steps k = read.
Proof.
  induction steps as [|[k0 read0] steps IH]; intros Hnd Hin; simpl in *.
  { by apply elem_of_nil in Hin. }
  apply NoDup_cons in Hnd as [Hfresh Hnd].
  apply elem_of_cons in Hin as [Heq|Hin].
  - injection Heq as <- <-. rewrite lastAssigned_absent.
    + by rewrite String.eqb_refl.
    + intros r Hr. apply Hfresh.
      apply (list_elem_of_fmap_2 fst) in Hr. exact Hr.
  - rewrite (IH Hnd Hin).
    destruct read as [r|]; [done|].
    destruct (String.eqb_spec k0 k) as [->|]; [|done].
    destruct Hfresh. apply (list_elem_of_fmap_2 fst) in Hin. exact Hin.
Qed.

(** ** The two loops over the declared inputs *)

Lemma is_undefined_spec v : is_undefined v = true <-> v = VUndefined.
Proof. by destruct v. Qed.

Lemma is_undefined_false v : is_undefined v = false <-> v <> VUndefined.
Proof. by destruct v. Qed.

(** The validation loop stops at the first declared input, in declaration
    order, that is required and reads [undefined]: every required input
    declared before it was read and found. *)
Lemma missingAmong_some l ins input :
  missingAmong l ins = Returns (Some input) <->
  exists before after,
    l = before ++ input :: after /\
    fi_required input = true /\
    getProp ins (fi_name input) = Returns VUndefined /\
    forall earlier, earlier ∈ before -> fi_required earlier = true ->
      exists v, getProp ins (fi_name earlier) = Returns v /\ v <> VUndefined.
Proof.
  induction l as [|first l IH]; simpl.
  { split; [done|]. by intros ([|? ?] & ? & ? & _). }
  destruct (fi_required first) eqn:Hreq.
  - rewrite obind_run.
    destruct (getProp ins (fi_name first)) as [v|reason] eqn:Hread.
    + destruct (is_undefined v) eqn:Hv.
      * apply is_undefined_spec in Hv as ->. split.
        -- intros [= <-]. exists [], l. split_and!; try done.
           intros earlier Hearlier. by apply elem_of_nil in Hearlier.
        -- intros ([|x before] & after & Hl & Hr & Hu & Hbefore).
           ++ by injection Hl as <- _.
           ++ injection Hl as <- _.
              destruct (Hbefore first ltac:(apply elem_of_cons; by left) Hreq)
                as (v & Hv & Hdef). congruence.
      * apply is_undefined_false in Hv. rewrite IH. split.
        -- intros (before & after & -> & Hr & Hu & Hbefore).
           exists (first :: before), after. split_and!; try done.
           intros earlier [->|Hin]%elem_of_cons Hreq'; [by exists v | by apply Hbefore].
        -- intros ([|x before] & after & Hl & Hr & Hu & Hbefore).
           ++ injection Hl as <- _. congruence.
           ++ injection Hl as <- ->. exists before, after. split_and!; try done.
              intros earlier Hin. apply Hbefore, elem_of_cons. by right.
    + split; [done|].
      intros ([|x before] & after & Hl & Hr & Hu & Hbefore).
      * injection Hl as <- _. congruence.
      * injection Hl as <- _.
        destruct (Hbefore first ltac:(apply elem_of_cons; by left) Hreq)
          as (v & Hv & _). congruence.
  - rewrite IH. split.
    + intros (before & after & -> & Hr & Hu & Hbefore).
      exists (first :: before), after. split_and!; try done.
      intros earlier [->|Hin]%elem_of_cons Hreq'; [congruence | by apply Hbefore].
    + intros ([|x before] & after & Hl & Hr & Hu & Hbefore).
      * injection Hl as <- _. congruence.
      * injection Hl as <- ->. exists before, after. split_and!; try done.
        intros earlier Hin. apply Hbefore, elem_of_cons. by right.
Qed.

(** The validation loop passes exactly when every required input reads
    a value. *)
Lemma missingAmong_none l ins :
  missingAmong l ins = Returns None <->
  forall input, input ∈ l -> fi_required input = true ->
    exists v, getProp ins (fi_name input) = Returns v /\ v <> VUndefined.
Proof.
  induction l as [|first l IH]; simpl.
  { split; [|done]. intros _ input Hin. by apply elem_of_nil in Hin. }
  destruct (fi_required first) eqn:Hreq.
  - rewrite obind_run.
    destruct (getProp ins (fi_name first)) as [v|reason] eqn:Hread.
    + destruct (is_undefined v) eqn:Hv.
      * apply is_undefined_spec in Hv as ->. split; [done|]. intros Hall.
        destruct (Hall first ltac:(apply elem_of_cons; by left) Hreq) as (v & Hv & Hdef).
        congruence.
      * apply is_undefined_false in Hv. rewrite IH. split.
        -- intros Hall input [->|Hin]%elem_of_cons Hr; [by exists v | by apply Hall].
        -- intros Hall input Hin. apply Hall, elem_of_cons. by right.
    + split; [done|]. intros Hall.
      destruct (Hall first ltac:(apply elem_of_cons; by left) Hreq) as (v & Hv & _).
      congruence.
  - rewrite IH. split.
    + intros Hall input [->|Hin]%elem_of_cons Hr; [congruence | by apply Hall].
    + intros Hall input Hin. apply Hall, elem_of_cons. by right.
Qed.

(** On a plain object the loops cannot throw: reads see own and
    inherited properties, writes add own properties. *)
Lemma missingAmong_plain l o :
  missingAmong l (VObj o)
  = Returns (List.find (fun input => fi_required input
                                     && is_undefined (obj_get o (fi_name input))) l).
Proof.
  induction l as [|first l IH]; simpl; [done|].
  destruct (fi_required first); simpl; [|done].
  by destruct (is_undefined (obj_get o (fi_name first))).
Qed.

Lemma defaultsAmong_plain l o :
  defaultsAmong l (VObj o)
  = Returns (VObj (fold_left (fun acc input =>
                                if is_undefined (obj_get acc (fi_name input))
                                   && negb (is_undefined (defaultValue input))
                                then obj_set (fi_name input) (defaultValue input) acc
                                else acc) l o)).
Proof.
  revert o. induction l as [|first l IH]; intros o; cbn [defaultsAmong fold_left]; [done|].
  rewrite obind_run. cbn [getProp].
  destruct (is_undefined (obj_get o (fi_name first))) eqn:Hread; cbn [andb]; [|apply IH].
  destruct (negb (is_undefined (defaultValue first))); [|apply IH].
  apply is_undefined_spec in Hread.
  rewrite obind_run, setProp_undefined by done. apply IH.
Qed.

(** A request that is no GET brings the inputs in its body. *)
Lemma parseInputs_body request :
  String.eqb (req_method request) "GET" = false ->
  parseInputs request = Returns (default (VObj []) (req_json request)).
Proof. intros Hm. unfold parseInputs. by rewrite Hm. Qed.

(** Query parameters whose names are ordinary make a plain object. *)
Lemma assignParams_plain l o :
  ordinary_names (map qp_key l) ->
  exists o', assignParams l (VObj o) = Returns (VObj o').
Proof.
  revert o. induction l as [|p l IH]; intros o Hnames; cbn [assignParams].
  { by exists o. }
  apply Forall_cons in Hnames as [Hp Hnames].
  rewrite obind_run. unfold assignParam.
  destruct (qp_json p); rewrite setProp_plain by done; by apply IH.
Qed.

Lemma prepareInputs_plain flow request :
  plain_inputs request -> exists x, prepareInputs flow request = Returns x.
Proof.
  intros [o Ho]. unfold prepareInputs, missingRequired, applyDefaults.
  rewrite Ho, obind_run, missingAmong_plain, obind_run.
  destruct (List.find _ (inputs flow)); [by eexists|].
  rewrite defaultsAmong_plain. by eexists.
Qed.

(** The inputs are a plain object for a request with an absent or
    unreadable body or a body that is a JSON object, and for a GET
    whose parameter names are ordinary. *)
Lemma plain_inputs_cases request :
  (String.eqb (req_method request) "GET" = false /\
   (req_json request = None \/ exists o, req_json request = Some (VObj o))) \/
  (String.eqb (req_method request) "GET" = true /\
   ordinary_names (map qp_key (searchParams request))) ->
  plain_inputs request.
Proof.
  unfold plain_inputs.
  intros [[Hm Hbody]|[Hm Hnames]].
  - rewrite parseInputs_body by done.
    destruct Hbody as [->|[o ->]]; by eexists.
  - unfold parseInputs. rewrite Hm. by apply assignParams_plain.
Qed.

(** ** Runs that keep every object plain *)

Lemma mappingSteps_names context mappings :
  map fst (mappingSteps context mappings) = map targetInput mappings.
Proof. unfold mappingSteps. by rewrite map_map. Qed.

Lemma carried_plain context id outs :
  plain_results context -> carried context id = Some outs -> exists o, outs = VObj o.
Proof.
  intros Hplain. unfold carried.
  destruct (blockResults context !! id) as [r|] eqn:Hr; [|done].
  destruct (be_outputs r) as [outs'|] eqn:Ho; [|done].
  destruct (truthy outs'); [|done]. intros [= <-]. by eapply Hplain.
Qed.

(** The resolution returns whenever the flow's inputs are a plain
    object and the recorded outputs are. *)
Lemma resolveInputMappings_returns mappings context o :
  ordinary_names (map targetInput mappings) ->
  ctx_inputs context = VObj o ->
  plain_results context ->
  exists res, resolveInputMappings mappings context = Returns (VObj res).
Proof.
  intros Hnames Hins Hplain. unfold resolveInputMappings. rewrite resolveInto_steps.
  apply assignAll_returns; [by rewrite mappingSteps_names|].
  unfold mappingSteps. apply Forall_fmap, Forall_forall. intros mapping _ reason. simpl.
  unfold mappingRead, mappedValue. rewrite Hins.
  destruct (source mapping) as [name|blockId outputName|v|text]; try done.
  destruct (carried context (default EmptyString blockId)) as [outs|] eqn:Hc; [|done].
  by destruct (carried_plain _ _ _ Hplain Hc) as [oo ->].
Qed.

Lemma outputSteps_names context decls :
  map fst (outputSteps context decls) = map fo_name decls.
Proof. unfold outputSteps. by rewrite map_map. Qed.

Lemma callSteps_names body l : map fst (callSteps body l) = map out_name l.
Proof. unfold callSteps. by rewrite map_map. Qed.

(** The projection returns whenever the recorded outputs are plain. *)
Lemma buildOutputs_returns flow context :
  ordinary_names (map fo_name (outputs flow)) ->
  plain_results context ->
  exists o, buildOutputs flow context = Returns (VObj o).
Proof.
  intros Hnames Hplain. unfold buildOutputs. rewrite projectAll_steps.
  apply assignAll_returns; [by rewrite outputSteps_names|].
  unfold outputSteps. apply Forall_fmap, Forall_forall. intros output _ reason. simpl.
  unfold sourceValue.
  destruct (carried context (sourceBlockId output)) as [outs|] eqn:Hc; [|done].
  by destruct (carried_plain _ _ _ Hplain Hc) as [oo ->].
Qed.

(** The outputs of a call with ordinary names are a plain object. *)
Lemma projectOutputs_plain block body outs :
  ordinary_names (map out_name (block_outputs block)) ->
  projectOutputs block body = Returns outs ->
  exists o, outs = VObj o.
Proof.
  intros Hnames. unfold projectOutputs. rewrite projectInto_steps. intros Hrun.
  destruct (assignAll_plain _ _ _ ltac:(by rewrite callSteps_names) Hrun) as (o & -> & _).
  by exists o.
Qed.

(** A dispatch changes no block definition: what it caches is what the
    store holds. *)
Lemma executeApiCall_definitions block ins config w id :
  definitionOf (snd (executeApiCall block ins config w)) id = definitionOf w id.
Proof.
  unfold executeApiCall. rewrite lift_run.
  destruct (buildParts block ins) as [parts|reason]; [|done].
  unfold try_catch. rewrite lift_run.
  destruct (abortSignal config) as [delay|reason]; [|done].
  rewrite bind_run. unfold fetch.
  destruct (upstream w (fetched w) (requestOf block parts delay)) as [reason|response];
    [done|].
  rewrite bind_run. unfold json.
  destruct (resp_body response) as [body|reason]; [|done].
  run_m. by destruct (projectOutputs block body).
Qed.

Lemma executeBlock_definitions blockId ins config isTest w id :
  definitionOf (snd (executeBlock blockId ins config isTest w)) id = definitionOf w id.
Proof.
  unfold executeBlock. rewrite bind_run. unfold getBlock.
  destruct (cachedBlocks w !! blockId) as [block|] eqn:Hc.
  - rewrite bind_run. unfold mret, M_ret.
    destruct isTest; [done|].
    destruct (block_type block); try done. apply executeApiCall_definitions.
  - rewrite bind_run, bind_run. unfold findBlock.
    destruct (blocksFindOne w blockId) as [[block|]|reason] eqn:Hf; [| done | done].
    rewrite bind_run. unfold setBlock. unfold mret, M_ret.
    set (w1 := {| cachedFlows := cachedFlows w;
                  cachedBlocks := <[blockId := block]> (cachedBlocks w);
                  flowsCollection := flowsCollection w;
                  blocksFindOne := blocksFindOne w;
                  execution_logs := execution_logs w;
                  upstream := upstream w;
                  fetched := fetched w |}).
    assert (Hw1 : definitionOf w1 id = definitionOf w id).
    { unfold definitionOf. simpl.
      destruct (decide (id = blockId)) as [->|Hne].
      - by rewrite lookup_insert_eq, Hc, Hf.
      - by rewrite lookup_insert_ne. }
    destruct isTest; [done|].
    destruct (block_type block); try done.
    by rewrite executeApiCall_definitions.
Qed.

Lemma runBlock_definitions flowBlock blockId isTest context w id :
  definitionOf (snd (runBlock flowBlock blockId isTest context w)) id = definitionOf w id.
Proof.
  unfold runBlock, try_catch. rewrite lift_run.
  destruct (resolveInputMappings (inputMappings flowBlock) context) as [blockInputs|reason].
  - rewrite bind_run.
    pose proof (executeBlock_definitions (fb_blockId flowBlock) blockInputs
                  (config flowBlock) isTest w id) as Hdef.
    destruct (executeBlock _ _ _ _ w) as [[r|reason] w1]; simpl in Hdef.
    + by destruct (be_error r) as [e|]; [destruct (negb (continues flowBlock))|].
    + by destruct (negb (continues flowBlock)).
  - by destruct (negb (continues flowBlock)).
Qed.

(** The outputs of a dispatch on plain inputs, with a store whose
    definitions name their outputs ordinarily, are a plain object. *)
Lemma executeBlock_plain blockId ins config isTest w r w' outs o :
  ordinary_store w ->
  ins = VObj o ->
  executeBlock blockId ins config isTest w = (Returns r, w') ->
  be_outputs r = Some outs ->
  exists oo, outs = VObj oo.
Proof.
  intros Hstore -> Hexec Hout.
  destruct (executeBlock_run blockId (VObj o) config isTest w) as (w1 & _ & Hrun).
  specialize (Hstore blockId).
  destruct (definitionOf w blockId) as [[block|]|reason].
  - specialize (Hstore block eq_refl).
    destruct isTest.
    + rewrite Hrun in Hexec. injection Hexec as <- _. simpl in Hout.
      injection Hout as <-. by eexists.
    + pose proof (executeApiCall_run block (VObj o) config w1) as Hcall.
      destruct (block_type block); rewrite Hrun in Hexec;
        try (injection Hexec as <- _; done).
      * destruct (buildParts block (VObj o)) as [parts|reason]; [|by rewrite Hcall in Hexec].
        destruct (abortSignal config) as [delay|reason].
        -- destruct Hcall as (r1 & w2 & Hcall & _ & Hr1). rewrite Hcall in Hexec.
           injection Hexec as <- _. rewrite Hr1 in Hout.
           destruct (upstream _ _ _) as [reason|response]; [done|].
           destruct (resp_body response) as [body|reason]; [|done].
           destruct (projectOutputs block body) as [outs'|reason] eqn:Hproj; [|done].
           simpl in Hout. injection Hout as <-. by eapply projectOutputs_plain.
        -- rewrite Hcall in Hexec. injection Hexec as <- _. done.
      * injection Hexec as <- _. simpl in Hout. injection Hout as <-. by eexists.
  - rewrite Hrun in Hexec. injection Hexec as <- _. done.
  - by rewrite Hrun in Hexec.
Qed.

Lemma plain_results_record context blockId r :
  plain_results context ->
  (forall outs, be_outputs r = Some outs -> exists o, outs = VObj o) ->
  plain_results (recordResult context blockId r).
Proof.
  intros Hplain Hr id r' outs. simpl.
  destruct (decide (id = blockId)) as [->|Hne].
  - rewrite lookup_insert_eq. intros [= <-]. apply Hr.
  - rewrite lookup_insert_ne by done. apply Hplain.
Qed.

Lemma runBlock_plain flowBlock blockId isTest context w context' w' o :
  ordinary_store w ->
  ordinary_names (map targetInput (inputMappings flowBlock)) ->
  ctx_inputs context = VObj o ->
  plain_results context ->
  runBlock flowBlock blockId isTest context w = (Returns (inr context'), w') ->
  plain_results context'.
Proof.
  intros Hstore Hnames Hins Hplain.
  destruct (resolveInputMappings_returns _ _ _ Hnames Hins Hplain) as (res & Hres).
  unfold runBlock, try_catch. rewrite lift_run, Hres, bind_run.
  destruct (executeBlock _ _ _ _ w) as [[r|reason] w1] eqn:Hexec.
  - assert (Hr : forall outs, be_outputs r = Some outs -> exists oo, outs = VObj oo).
    { intros outs Ho.
      exact (executeBlock_plain _ _ _ _ _ _ _ _ res Hstore eq_refl Hexec Ho). }
    destruct (be_error r) as [e|]; [destruct (negb (continues flowBlock))|];
      intros [= <- <-]; by apply plain_results_record.
  - destruct (negb (continues flowBlock)); by intros [= <- <-].
Qed.

Lemma runBlocks_plain flow isTest executionOrder context w context' w' o :
  ordinary_store w ->
  ordinary_targets flow ->
  ctx_inputs context = VObj o ->
  plain_results context ->
  runBlocks flow isTest executionOrder context w = (Returns (inr context'), w') ->
  plain_results context'.
Proof.
  intros Hstore Htargets. revert context w Hstore.
  induction executionOrder as [|blockId rest IH]; intros context w Hstore Hins Hplain; simpl.
  { run_m. by intros [= <- <-]. }
  destruct (List.find _ (blocks flow)) as [flowBlock|] eqn:Hfind; [|by apply IH].
  rewrite bind_run.
  pose proof (fun id => runBlock_definitions flowBlock blockId isTest context w id) as Hdefs.
  destruct (runBlock flowBlock blockId isTest context w) as [[[e|context1]|reason] w1] eqn:Hstep;
    try done.
  simpl in Hdefs. apply IH.
  - intros id block. rewrite Hdefs. apply Hstore.
  - by rewrite (runBlock_inputs _ _ _ _ _ _ _ Hstep).
  - eapply runBlock_plain; try done.
    apply Htargets. apply find_some in Hfind as [Hin _]. by apply list_elem_of_In.
Qed.

Lemma initialContext_plain flow ins : plain_results (initialContext flow ins).
Proof. intros id r outs. simpl. by rewrite lookup_empty. Qed.

(** ** Runs of flows with starved blocks *)

Lemma runBlock_error flowBlock blockId isTest context w e w' :
  runBlock flowBlock blockId isTest context w = (Returns (inl e), w') ->
  err_blockId e = Some blockId.
Proof.
  unfold runBlock, try_catch. rewrite lift_run.
  destruct (resolveInputMappings (inputMappings flowBlock) context) as [blockInputs|reason].
  - rewrite bind_run. destruct (executeBlock _ _ _ _ w) as [[r|reason] w1].
    + destruct (be_error r) as [e0|]; [destruct (negb (continues flowBlock))|];
        by intros [= <- <-].
    + destruct (negb (continues flowBlock)); by intros [= <- <-].
  - destruct (negb (continues flowBlock)); by intros [= <- <-].
Qed.

(** The error that stops a run names the emitted block that raised it. *)
Lemma runBlocks_error flow isTest executionOrder context w e w' :
  runBlocks flow isTest executionOrder context w = (Returns (inl e), w') ->
  exists b, err_blockId e = Some b /\ b ∈ executionOrder.
Proof.
  revert context w. induction executionOrder as [|blockId rest IH]; intros context w; simpl.
  { run_m. by intros [=]. }
  intros Hrun.
  assert (Hrest : forall context1 w1,
            runBlocks flow isTest rest context1 w1 = (Returns (inl e), w') ->
            exists b, err_blockId e = Some b /\ b ∈ blockId :: rest).
  { intros context1 w1 (b & Hb & Hin)%IH. exists b. split; [done|].
    apply elem_of_cons. by right. }
  destruct (List.find _ (blocks flow)) as [flowBlock|]; [|by eapply Hrest].
  rewrite bind_run in Hrun.
  destruct (runBlock flowBlock blockId isTest context w) as [[[e1|context1]|reason] w1] eqn:Hstep;
    [| by eapply Hrest | done].
  revert Hrun. run_m. intros [= <- <-].
  exists blockId. split; [by eapply runBlock_error | apply elem_of_cons; by left].
Qed.

Lemma respond_status r :
  http_status (respond r) = 200 \/ http_status (respond r) = 500.
Proof. unfold respond. destruct (run_error r); [by right | by left]. Qed.

Lemma respond_code r e :
  api_error (payload (respond r)) = Some e -> api_code e = "EXECUTION_ERROR".
Proof. unfold respond. destruct (run_error r); simpl; [by intros [= <-] | done]. Qed.

Lemma answer_status run :
  http_status (answer run) = 200 \/ http_status (answer run) = 500.
Proof. destruct run; [apply respond_status | by right]. Qed.

Lemma answer_code run e :
  api_error (payload (answer run)) = Some e -> api_code e = "EXECUTION_ERROR".
Proof. destruct run; [apply respond_code | by intros [= <-]]. Qed.

(** A flow with starved blocks runs like any other: the loop ends, it
    calls upstream at most once per emitted block, an error names an
    emitted block, and when projection is reached no result has been
    recorded for a starved block. *)
Lemma starved_flow_run flow (P : string -> Prop) ins isTest w :
  starved (blocks flow) (connections flow) P ->
  exists run w' calls,
    runFlowExecution flow ins isTest w = (run, w') /\
    after_calls w w' calls /\
    (List.length calls
     <= List.length (topologicalSort (blocks flow) (connections flow)))%nat /\
    match run with
    | Returns r =>
        (forall e, run_error r = Some e ->
           run_outputs r = None /\
           exists b, err_blockId e = Some b /\ ~ P b) /\
        (forall outs, run_outputs r = Some outs ->
           run_error r = None /\
           exists context,
             buildOutputs flow context = Returns outs /\
             forall u, P u -> blockResults context !! u = None)
    | Throws reason =>
        exists context,
          buildOutputs flow context = Throws reason /\
          forall u, P u -> blockResults context !! u = None
    end /\
    (forall props, ins = VObj props -> ordinary_store w -> ordinary_targets flow ->
       ordinary_names (map fo_name (outputs flow)) ->
       exists r, run = Returns r).
Proof.
  intros Hstarved.
  destruct (runFlowExecution_run flow ins isTest w)
    as (r & w' & calls & Hloop & Hrun & Hw & Hlen & _).
  eexists _, w', calls. split_and!; [exact Hrun | done | done | |].
  - destruct r as [e0|context].
    + split; [|done]. simpl. intros e [= <-]. split; [done|].
      destruct (runBlocks_error _ _ _ _ _ _ _ Hloop) as (b & Hb & Hin).
      exists b. split; [done|]. intros Hp.
      by apply (starved_not_emitted _ _ P Hstarved b Hp).
    + assert (Hnone : forall u, P u -> blockResults context !! u = None).
      { intros u Hu. rewrite (runBlocks_results _ _ _ _ _ _ _ u Hloop).
        - apply lookup_empty.
        - by apply (starved_not_emitted _ _ P Hstarved). }
      destruct (buildOutputs flow context) as [outs|reason] eqn:Hbuild.
      * split; [done|]. simpl. intros outs' [= <-]. split; [done|]. by exists context.
      * by exists context.
  - intros o -> Hstore Htargets Hnames.
    destruct r as [e0|context]; [by eexists|].
    assert (Hplain : plain_results context).
    { exact (runBlocks_plain flow isTest _ (initialContext flow (VObj o)) w context w' o
               Hstore Htargets eq_refl (initialContext_plain flow (VObj o)) Hloop). }
    destruct (buildOutputs_returns flow context Hnames Hplain) as (outs & ->).
    by eexists.
Qed.

(** The endpoint's answer for a served flow with starved blocks: what
    the parsing of the inputs and the loops over the declared inputs
    throw leaves the handler; a missing required input is answered 400;
    otherwise the flow runs. *)
Lemma starved_flow_response w s request isTest flow (P : string -> Prop) :
  served w s = Some flow ->
  starved (blocks flow) (connections flow) P ->
  exists o w',
    executeFlow s request isTest w = (o, w') /\
    (forall resp e, o = Returns resp ->
       api_error (payload resp) = Some e -> api_code e <> "FLOW_INVALID") /\
    (plain_inputs request -> exists resp, o = Returns resp) /\
    match prepareInputs flow request with
    | Throws reason =>
        o = Throws reason /\ fetched w' = fetched w /\ execution_logs w' = execution_logs w
    | Returns (inl input) =>
        o = Returns (errorResponse ("Missing required input: " +:+ fi_name input) 400 "ERROR")
    | Returns (inr ins) =>
        exists run calls,
          o = Returns (answer run) /\
          (http_status (answer run) = 200 \/ http_status (answer run) = 500) /\
          fetched w' = fetched w ++ calls /\
          (List.length calls
           <= List.length (topologicalSort (blocks flow) (connections flow)))%nat /\
          match run with
          | Returns r =>
              (forall e, run_error r = Some e ->
                 http_status (answer run) = 500 /\
                 exists b, err_blockId e = Some b /\ ~ P b) /\
              (forall outs, run_outputs r = Some outs ->
                 answer run = jsonResponse (if truthy outs then outs else VObj []) 200 /\
                 exists context,
                   buildOutputs flow context = Returns outs /\
                   forall u, P u -> blockResults context !! u = None)
          | Throws reason =>
              answer run = errorResponse reason 500 "EXECUTION_ERROR" /\
              exists context,
                buildOutputs flow context = Throws reason /\
                forall u, P u -> blockResults context !! u = None
          end /\
          (forall props, ins = VObj props -> ordinary_store w -> ordinary_targets flow ->
             ordinary_names (map fo_name (outputs flow)) ->
             exists r, run = Returns r)
    end.
Proof.
  intros Hserved Hstarved.
  destruct (executeFlow_loaded s request isTest w) as (w1 & Hw1 & Hdefs & Hexec).
  rewrite Hserved in Hexec.
  pose proof (prepareInputs_plain flow request) as Hplain.
  destruct (prepareInputs flow request) as [[input|ins]|reason].
  - eexists _, w1. split_and!; [exact Hexec | | by eauto | done].
    intros resp e [= <-]. simpl. by intros [= <-].
  - destruct Hexec as (run & w2 & Hrun & Hexec).
    destruct (starved_flow_run flow P ins isTest w1 Hstarved)
      as (run' & w2' & calls & Hrun' & Hw2 & Hlen & Hcases & Hplainrun).
    rewrite Hrun in Hrun'. injection Hrun' as <- <-.
    eexists _, _. split; [exact Hexec|]. split; [|split; [by eauto|]].
    + intros resp e [= <-] He%answer_code. by rewrite He.
    + exists run, calls.
      split; [done|]. split; [apply answer_status|]. split; [|split; [done|split]].
      * destruct Hw1 as [F1 _ _ _ _], Hw2 as [F2 _ _ _ _].
        rewrite app_nil_r in F1.
        destruct run as [r|reason]; [destruct isTest|]; simpl; by rewrite F2, F1.
      * destruct run as [r|reason]; [|done].
        destruct Hcases as [Herr Hout]. split.
        -- intros e He. split; [|by apply (Herr e)]. simpl. unfold respond. by rewrite He.
        -- intros outs Ho. destruct (Hout outs Ho) as [Hnone Hctx]. split; [|done].
           simpl. unfold respond, outputsOrEmpty. by rewrite Hnone, Ho.
      * intros o Hins Hstore Htargets Hnames.
        apply (Hplainrun o Hins); [|done|done].
        intros id block. rewrite Hdefs. apply Hstore.
  - eexists _, w1. split; [exact Hexec|]. split; [done|]. split.
    + intros Hp. by destruct (Hplain Hp).
    + destruct Hw1 as [F1 L1 _ _ _]. rewrite app_nil_r in F1. by split_and!.
Qed.

(** * The statements of the specification, C1 to C10 *)

(** ** C1: a flow whose connections contain a cycle *)

Lemma loop_on_cycle : on_cycle (connections loopFlow) "A".
Proof.
  apply (reach_more _ "A" (connect "B" "A")).
  - apply (reach_one _ (connect "A" "B")). apply elem_of_cons. by left.
  - apply elem_of_cons. right. apply elem_of_cons. by left.
Qed.

(** C1, amended.  For every served flow whose connections contain a cycle
    through [v]: the planner leaves [v] out of the execution order and
    raises nothing; the endpoint never answers FLOW_INVALID, and it
    answers whenever the inputs parse to a plain object.  A request
    lacking a required input is answered 400 as for any flow; an error
    thrown while the inputs are read leaves the handler with no call
    made; otherwise the remaining blocks run, with at most one upstream
    call per emitted block, and the answer is 200 with the projected
    outputs, for which no result of a block on a cycle was recorded, or
    500 EXECUTION_ERROR, naming a dispatched block when the loop
    stopped; the projection itself cannot fail when the inputs are a
    plain object and no name in play is [__proto__]. *)
Theorem cycle_blocks_left_out (w : World) (s : string) (request : Request)
    (isTest : bool) (flow : Flow) (v : string) :
  served w s = Some flow ->
  on_cycle (connections flow) v ->
  (v ∉ topologicalSort (blocks flow) (connections flow)) /\
  exists o w',
    executeFlow s request isTest w = (o, w') /\
    (forall resp e, o = Returns resp ->
       api_error (payload resp) = Some e -> api_code e <> "FLOW_INVALID") /\
    (plain_inputs request -> exists resp, o = Returns resp) /\
    match prepareInputs flow request with
    | Throws reason =>
        o = Throws reason /\ fetched w' = fetched w /\ execution_logs w' = execution_logs w
    | Returns (inl input) =>
        o = Returns (errorResponse ("Missing required input: " +:+ fi_name input) 400 "ERROR")
    | Returns (inr ins) =>
        exists run calls,
          o = Returns (answer run) /\
          (http_status (answer run) = 200 \/ http_status (answer run) = 500) /\
          fetched w' = fetched w ++ calls /\
          (List.length calls
           <= List.length (topologicalSort (blocks flow) (connections flow)))%nat /\
          match run with
          | Returns r =>
              (forall e, run_error r = Some e ->
                 http_status (answer run) = 500 /\
                 exists b, err_blockId e = Some b /\ ~ on_cycle (connections flow) b) /\
              (forall outs, run_outputs r = Some outs ->
                 answer run = jsonResponse (if truthy outs then outs else VObj []) 200 /\
                 exists context,
                   buildOutputs flow context = Returns outs /\
                   forall u, on_cycle (connections flow) u ->
                             blockResults context !! u = None)
          | Throws reason =>
              answer run = errorResponse reason 500 "EXECUTION_ERROR" /\
              exists context,
                buildOutputs flow context = Throws reason /\
                forall u, on_cycle (connections flow) u ->
                          blockResults context !! u = None
          end /\
          (forall props, ins = VObj props -> ordinary_store w -> ordinary_targets flow ->
             ordinary_names (map fo_name (outputs flow)) ->
             exists r, run = Returns r)
    end.
Proof.
  intros Hserved Hcycle. split.
  - by apply cycle_not_emitted.
  - apply starved_flow_response; [done | apply on_cycle_starved].
Qed.

(** ** C2: failures and [continueOnError] *)

(** A response that is not 2xx always makes the result a [failure]. *)
Lemma executeApiCall_not_ok block ins config w parts delay response :
  buildParts block ins = Returns parts ->
  abortSignal config = Returns delay ->
  upstream w (fetched w) (requestOf block parts delay) = Responded response ->
  ok response = false ->
  exists r w',
    executeApiCall block ins config w = (Returns r, w') /\ be_status r = failure.
Proof.
  intros Hparts Hdelay Hup Hok.
  pose proof (executeApiCall_run block ins config w) as Hrun.
  rewrite Hparts, Hdelay in Hrun. destruct Hrun as (r & w' & Hrun & _ & Hr).
  exists r, w'. split; [done|]. rewrite Hup in Hr.
  destruct (resp_body response) as [body|reason]; [|by rewrite Hr].
  destruct (projectOutputs block body); rewrite Hr; simpl; [by rewrite Hok | done].
Qed.

(** A result that carries an [error] stops the run, naming the block,
    unless the instance sets [continueOnError]. *)
Lemma runBlock_aborts flowBlock blockId isTest context w blockInputs r w' e :
  resolveInputMappings (inputMappings flowBlock) context = Returns blockInputs ->
  executeBlock (fb_blockId flowBlock) blockInputs (config flowBlock) isTest w
  = (Returns r, w') ->
  be_error r = Some e ->
  continues flowBlock = false ->
  runBlock flowBlock blockId isTest context w
  = (Returns (inl {| err_message := message e; err_blockId := Some blockId |}), w').
Proof.
  intros Hres Hexec He Hc. unfold runBlock, try_catch.
  by rewrite lift_run, Hres, bind_run, Hexec, He, Hc.
Qed.

(** ** C3: what a [block_output] mapping resolves to *)

(** The dispatcher's results have two shapes: a failure with an error and
    no outputs, or outputs and no error. *)
Lemma executeBlock_shapes blockId ins config isTest w r w' :
  executeBlock blockId ins config isTest w = (Returns r, w') ->
  (exists reason, r = failed reason) \/
  (be_error r = None /\ exists outs, be_outputs r = Some outs).
Proof.
  destruct (executeBlock_run blockId ins config isTest w) as (w1 & _ & Hrun).
  destruct (definitionOf w blockId) as [[block|]|reason].
  - destruct isTest.
    + rewrite Hrun. intros [= <- _]. right. by eauto.
    + pose proof (executeApiCall_run block ins config w1) as Hcall.
      destruct (block_type block); rewrite Hrun;
        try (intros [= <- _]; left; by eauto).
      * destruct (buildParts block ins) as [parts|reason]; [|by rewrite Hcall].
        destruct (abortSignal config) as [delay|reason].
        -- destruct Hcall as (r1 & w2 & -> & _ & Hr1). intros [= <- _]. rewrite Hr1.
           destruct (upstream _ _ _) as [reason|response]; [left; by eauto|].
           destruct (resp_body response) as [body|reason]; [|left; by eauto].
           destruct (projectOutputs block body); [right; by eauto | left; by eauto].
        -- rewrite Hcall. intros [= <- _]. left. by eauto.
      * intros [= <- _]. right. by eauto.
  - rewrite Hrun. intros [= <- _]. left. by eauto.
  - by rewrite Hrun.
Qed.

(** C3, amended.  For a [block_output] mapping of an instance whose
    mappings target distinct inputs, none of them [__proto__]: when no
    result is recorded for the mapped block, or the recorded result
    carries no outputs, nothing is assigned: the resolved inputs are a
    plain object without a property of the target's name, and reading
    the name gives what an empty object gives ([undefined], unless the
    name is one of [Object.prototype]).  Every result of the dispatcher
    that carries an error is such a result: a failure without outputs.
    The resolution itself returns whenever the flow's inputs are a
    plain object and the recorded outputs are. *)
Theorem block_output_resolution (mappings : list InputMapping)
    (context : ExecutionContext) (mapping : InputMapping)
    (blockId outputName : option string) :
  NoDup (map targetInput mappings) ->
  ordinary_names (map targetInput mappings) ->
  mapping ∈ mappings ->
  source mapping = block_output blockId outputName ->
  (blockResults context !! default EmptyString blockId = None \/
   exists r, blockResults context !! default EmptyString blockId = Some r /\
             be_outputs r = None) ->
  (forall res,
     resolveInputMappings mappings context = Returns res ->
     exists o,
       res = VObj o /\
       assoc_get (targetInput mapping) o = None /\
       getProp res (targetInput mapping) = Returns (objectMember (targetInput mapping)) /\
       (targetInput mapping ∉ objectPrototypeNames ->
        getProp res (targetInput mapping) = Returns VUndefined)) /\
  (forall o, ctx_inputs context = VObj o -> plain_results context ->
     exists res, resolveInputMappings mappings context = Returns (VObj res)) /\
  (forall id ins config isTest w r w' e,
     executeBlock id ins config isTest w = (Returns r, w') ->
     be_error r = Some e ->
     be_status r = failure /\ be_outputs r = None).
Proof.
  intros Hnd Hnames Hin Hsrc Hmiss. split_and!.
  - intros res Hres.
    unfold resolveInputMappings in Hres. rewrite resolveInto_steps in Hres.
    pose proof (mappingSteps_names context mappings) as Hkeys.
    destruct (assignAll_plain _ _ _ ltac:(by rewrite Hkeys) Hres) as (o & -> & _ & Hget).
    specialize (Hget (targetInput mapping)).
    rewrite (lastAssigned_unique _ (targetInput mapping) (mappingRead context mapping))
      in Hget.
    + assert (Hread : mappingRead context mapping = None).
      { unfold mappingRead, mappedValue, carried. rewrite Hsrc.
        destruct Hmiss as [->|(r & -> & ->)]; done. }
      rewrite Hread in Hget. simpl in Hget.
      exists o. split_and!; [done | done | |].
      * simpl. unfold obj_get. by rewrite Hget.
      * intros Hname. simpl. unfold obj_get. rewrite Hget. f_equal.
        destruct (objectMember (targetInput mapping)) eqn:Hm; try done;
          exfalso; apply Hname, objectMember_defined; by rewrite Hm.
    + by rewrite Hkeys.
    + unfold mappingSteps. apply list_elem_of_fmap.
      exists mapping. done.
  - intros o Hins Hplain. by eapply resolveInputMappings_returns.
  - intros id ins config isTest w r w' e Hexec He.
    destruct (executeBlock_shapes _ _ _ _ _ _ _ Hexec) as [[reason ->]|[Hnone _]]; [done|].
    by rewrite Hnone in He.
Qed.

(** ** C4: a required input is missing *)

(** A read from [null] or [undefined] throws: with a required input
    declared, validation does. *)
Lemma missingAmong_nullish l ins first :
  nullish ins = true ->
  List.find fi_required l = Some first ->
  missingAmong l ins = Throws (readNullish host ins (fi_name first)).
Proof.
  intros Hnull. induction l as [|input l IH]; simpl; [done|].
  destruct (fi_required input) eqn:Hreq.
  - intros [= <-]. by destruct ins.
  - done.
Qed.

(** C4, amended.  For every execute request against a served flow whose
    inputs parse to a value on which a required input reads
    [undefined], every required input declared before it reading a
    value: the answer is HTTP 400 with the body [{success: false,
    error: {code: "ERROR", message: "Missing required input: <name>"}}],
    [<name>] being that input, the first such in declaration order; no
    upstream call is made and no execution log written.  The read sees
    inherited members: on a plain object an input is missing when it
    is no own property and no name of [Object.prototype], so a required
    input named [constructor] is never missing.  When the body is
    [null] the first read of a required input throws and the handler
    answers nothing. *)
Theorem missing_required_input (w : World) (s : string) (request : Request)
    (isTest : bool) (flow : Flow) (parsed : value) :
  served w s = Some flow ->
  parseInputs request = Returns parsed ->
  (forall before input after,
     inputs flow = before ++ input :: after ->
     fi_required input = true ->
     getProp parsed (fi_name input) = Returns VUndefined ->
     (forall earlier, earlier ∈ before -> fi_required earlier = true ->
        exists v, getProp parsed (fi_name earlier) = Returns v /\ v <> VUndefined) ->
     exists resp w',
       executeFlow s request isTest w = (Returns resp, w') /\
       http_status resp = 400 /\
       apiResponseValue (payload resp)
       = VObj [("success", VBool false);
               ("error", VObj [("code", VStr "ERROR");
                               ("message",
                                VStr ("Missing required input: " +:+ fi_name input))])] /\
       fetched w' = fetched w /\
       execution_logs w' = execution_logs w) /\
  (forall o name,
     parsed = VObj o ->
     (getProp parsed name = Returns VUndefined <->
      (assoc_get name o = None /\ name ∉ objectPrototypeNames) \/
      assoc_get name o = Some VUndefined)) /\
  (forall first,
     nullish parsed = true ->
     List.find fi_required (inputs flow) = Some first ->
     exists w',
       executeFlow s request isTest w
       = (Throws (readNullish host parsed (fi_name first)), w') /\
       fetched w' = fetched w /\
       execution_logs w' = execution_logs w).
Proof.
  intros Hserved Hparsed.
  destruct (executeFlow_run s request isTest w) as (w1 & [F L _ _ _] & Hexec).
  rewrite app_nil_r in F. rewrite Hserved in Hexec.
  unfold prepareInputs in Hexec. rewrite Hparsed, obind_run in Hexec.
  split_and!.
  - intros before input after Hdecl Hreq Hread Hbefore.
    assert (Hmiss : missingRequired flow parsed = Returns (Some input)).
    { unfold missingRequired. apply missingAmong_some. by exists before, after. }
    rewrite Hmiss in Hexec. simpl in Hexec.
    eexists _, w1. by split_and!.
  - intros o name ->. simpl. unfold obj_get.
    destruct (assoc_get name o) as [v|]; split.
    + intros [= ->]. by right.
    + intros [[? _]|[= ->]]; done.
    + intros [= Hm]. left. split; [done|].
      intros Hin%objectMember_defined. done.
    + intros [[_ Hname]|?]; [|done]. f_equal.
      destruct (objectMember name) eqn:Hm; try done;
        exfalso; apply Hname, objectMember_defined; by rewrite Hm.
  - intros first Hnull Hfind.
    unfold missingRequired in Hexec.
    rewrite (missingAmong_nullish _ _ _ Hnull Hfind) in Hexec. simpl in Hexec.
    by exists w1.
Qed.

(** ** C5: retries *)

(** Of the instance's config, the dispatch reads the timeout only. *)
Lemma abortSignal_config config config' :
  instanceTimeout config' = instanceTimeout config ->
  abortSignal config' = abortSignal config.
Proof.
  unfold abortSignal, instanceTimeout.
  destruct config as [c|], config' as [c'|]; simpl; intros Heq;
    first [done | by rewrite Heq | by rewrite <- Heq].
Qed.

Lemma executeApiCall_config block ins config config' w :
  instanceTimeout config' = instanceTimeout config ->
  executeApiCall block ins config' w = executeApiCall block ins config w.
Proof.
  intros Heq. unfold executeApiCall. by rewrite (abortSignal_config _ _ Heq).
Qed.

(** C5, amended.  Every api_call dispatch makes at most one attempt,
    whatever [retryCount] is.  When the request is built and the
    runtime accepts the timeout, exactly one request is made, with no
    retry after a transport failure, a 5xx or a 4xx, and the outcome of
    that attempt is the result; when the runtime refuses the timeout no
    request is made and the result is a failure with the runtime's
    message; when building the request throws, the dispatch throws and
    no request is made. *)
Theorem single_attempt (block : Block) (ins : value) (config : option FlowBlockConfig)
    (w : World) :
  exists o w' calls,
    executeApiCall block ins config w = (o, w') /\
    fetched w' = fetched w ++ calls /\
    (forall n,
       executeApiCall block ins
         (Some {| timeout := instanceTimeout config; retryCount := n;
                  continueOnError := None |}) w
       = (o, w')) /\
    match buildParts block ins with
    | Throws reason => o = Throws reason /\ calls = []
    | Returns parts =>
        match abortSignal config with
        | Throws reason => o = Returns (failed reason) /\ calls = []
        | Returns delay =>
            calls = [requestOf block parts delay] /\
            o = Returns
                  match upstream w (fetched w) (requestOf block parts delay) with
                  | Rejected reason => failed reason
                  | Responded response =>
                      match resp_body response with
                      | NotJson reason => failed reason
                      | JsonBody body =>
                          match projectOutputs block body with
                          | Throws reason => failed reason
                          | Returns outs =>
                              {| be_status := if ok response then success else failure;
                                 be_outputs := Some outs;
                                 rawResponse :=
                                   Some {| statusCode := resp_status response;
                                           data := body;
                                           raw_headers := resp_headers response |};
                                 be_error := None |}
                          end
                      end
                  end
        end
    end.
Proof.
  assert (Hn : forall n,
            executeApiCall block ins
              (Some {| timeout := instanceTimeout config; retryCount := n;
                       continueOnError := None |}) w
            = executeApiCall block ins config w).
  { intros n. by apply executeApiCall_config. }
  pose proof (executeApiCall_run block ins config w) as Hrun.
  destruct (buildParts block ins) as [parts|reason].
  - destruct (abortSignal config) as [delay|reason].
    + destruct Hrun as (r & w' & Hrun & [F _ _ _ _] & Hr).
      exists (Returns r), w', [requestOf block parts delay].
      split_and!; [done | done | | done | by rewrite Hr].
      intros n. by rewrite Hn.
    + exists (Returns (failed reason)), w, [].
      split_and!; [done | by rewrite app_nil_r | | done | done].
      intros n. by rewrite Hn.
  - exists (Throws reason), w, [].
    split_and!; [done | by rewrite app_nil_r | | done | done].
    intros n. by rewrite Hn.
Qed.

(** ** C6: the timeout of the upstream request *)

Lemma runBlocks_with_config flow c isTest executionOrder context w :
  runBlocks (with_config flow c) isTest executionOrder context w
  = runBlocks flow isTest executionOrder context w.
Proof.
  revert context w. induction executionOrder as [|blockId rest IH]; intros context w;
    simpl; [done|].
  destruct (List.find _ (blocks flow)) as [flowBlock|]; [|apply IH].
  rewrite !bind_run.
  destruct (runBlock flowBlock blockId isTest context w) as [[[e|context1]|reason] w1];
    [done | apply IH | done].
Qed.

Lemma runFlowExecution_with_config flow c ins isTest w :
  runFlowExecution (with_config flow c) ins isTest w = runFlowExecution flow ins isTest w.
Proof.
  unfold runFlowExecution. rewrite !bind_run. simpl.
  change (initialContext (with_config flow c) ins) with (initialContext flow ins).
  by rewrite runBlocks_with_config.
Qed.

(** C6, amended.  The timeout applied to the upstream request is the
    block instance's [config.timeout] when it is set, not zero and
    accepted by the runtime; when it is unset or zero no timeout is
    applied; when the runtime refuses it no request is made at all and
    the block's result is a failure with the runtime's message.  The
    flow's config is never consulted and there is no engine default.
    When the request is aborted (the call rejects), the block's result
    is a failure whose error carries the rejection's message and no
    code. *)
Theorem instance_timeout_only (block : Block) (ins : value)
    (config : option FlowBlockConfig) (parts : RequestParts)
    (flow : Flow) (flowConfig : FlowConfig) (flowInputs : value) (isTest : bool)
    (w : World) :
  buildParts block ins = Returns parts ->
  (instanceTimeout config = None \/ instanceTimeout config = Some 0 ->
   exists r w',
     executeApiCall block ins config w = (Returns r, w') /\
     fetched w' = fetched w ++ [requestOf block parts None] /\
     signal (requestOf block parts None) = None) /\
  (forall t,
     instanceTimeout config = Some t -> t <> 0 -> abortTimeout host t = None ->
     exists r w',
       executeApiCall block ins config w = (Returns r, w') /\
       fetched w' = fetched w ++ [requestOf block parts (Some t)] /\
       signal (requestOf block parts (Some t)) = Some t /\
       forall reason,
         upstream w (fetched w) (requestOf block parts (Some t)) = Rejected reason ->
         r = {| be_status := failure; be_outputs := None; rawResponse := None;
                be_error := Some {| message := reason; code := None |} |}) /\
  (forall t reason,
     instanceTimeout config = Some t -> t <> 0 -> abortTimeout host t = Some reason ->
     executeApiCall block ins config w = (Returns (failed reason), w)) /\
  runFlowExecution (with_config flow flowConfig) flowInputs isTest w
  = runFlowExecution flow flowInputs isTest w.
Proof.
  intros Hparts.
  pose proof (executeApiCall_run block ins config w) as Hrun. rewrite Hparts in Hrun.
  split_and!.
  - intros Hnone.
    assert (Hsig : abortSignal config = Returns None).
    { unfold abortSignal, instanceTimeout in *.
      destruct config as [c|]; [|done].
      destruct Hnone as [->| ->]; done. }
    rewrite Hsig in Hrun. destruct Hrun as (r & w' & Hrun & [F _ _ _ _] & _).
    by exists r, w'.
  - intros t Ht Hnz Hok.
    assert (Hsig : abortSignal config = Returns (Some t)).
    { unfold abortSignal, instanceTimeout in *.
      destruct config as [c|]; [|done]. rewrite Ht.
      apply Z.eqb_neq in Hnz. by rewrite Hnz, Hok. }
    rewrite Hsig in Hrun. destruct Hrun as (r & w' & Hrun & [F _ _ _ _] & Hr).
    exists r, w'. split_and!; [done | done | done |].
    intros reason Hrej. by rewrite Hrej in Hr.
  - intros t reason Ht Hnz Hno.
    assert (Hsig : abortSignal config = Throws reason).
    { unfold abortSignal, instanceTimeout in *.
      destruct config as [c|]; [|done]. rewrite Ht.
      apply Z.eqb_neq in Hnz. by rewrite Hnz, Hno. }
    by rewrite Hsig in Hrun.
  - apply runFlowExecution_with_config.
Qed.

(** ** C7: test mode *)

(** A test invocation calls no upstream and writes no execution log,
    whatever the flow and the stores hold. *)
Lemma executeFlow_test_mode s request w :
  exists o w',
    executeFlow s request true w = (o, w') /\
    fetched w' = fetched w /\
    execution_logs w' = execution_logs w /\
    (plain_inputs request -> exists resp, o = Returns resp).
Proof.
  destruct (executeFlow_run s request true w) as (w1 & [F1 L1 _ _ _] & Hexec).
  rewrite app_nil_r in F1.
  destruct (served w s) as [flow|]; [|eexists _, w1; split_and!; by eauto].
  pose proof (prepareInputs_plain flow request) as Hplain.
  destruct (prepareInputs flow request) as [[input|ins]|reason].
  - eexists _, w1. split_and!; by eauto.
  - destruct Hexec as (run & w2 & Hrun & Hexec).
    destruct (runFlowExecution_run flow ins true w1)
      as (r' & w2' & calls & _ & Hrun' & [F2 L2 _ _ _] & _ & Htest).
    rewrite Hrun in Hrun'. injection Hrun' as _ <-.
    rewrite (Htest eq_refl), app_nil_r in F2.
    eexists _, _. split; [exact Hexec|].
    destruct run; split_and!; try congruence; by eauto.
  - eexists _, w1. split_and!; [exact Hexec | done | done |].
    intros Hp. by destruct (Hplain Hp).
Qed.

(** C7, amended.  In a test invocation a dispatch looks the block's
    definition up first, as outside test mode: when the definition is
    found the dispatch returns the synthetic success [{status: success,
    outputs: {_test: true, blockId}}]; when it is not found the dispatch
    returns the failure [Block not found]; when the lookup throws, so
    does the dispatch.  In every case the dispatch makes no upstream
    call; and the whole invocation makes no upstream call and writes no
    document to [execution_logs]. *)
Theorem test_mode_short_circuit (w0 : World) (blockId : string) (ins : value)
    (config : option FlowBlockConfig) (w : World) (s : string) (request : Request) :
  (exists o w1,
     executeBlock blockId ins config true w0 = (o, w1) /\
     o = match definitionOf w0 blockId with
         | Returns (Some _) =>
             Returns {| be_status := success;
                        be_outputs := Some (VObj [("_test", VBool true);
                                                  ("blockId", VStr blockId)]);
                        rawResponse := None;
                        be_error := None |}
         | Returns None =>
             Returns {| be_status := failure;
                        be_outputs := None;
                        rawResponse := None;
                        be_error := Some {| message := "Block not found: " +:+ blockId;
                                            code := None |} |}
         | Throws reason => Throws reason
         end /\
     fetched w1 = fetched w0 /\
     execution_logs w1 = execution_logs w0) /\
  (exists o w',
     executeFlow s request true w = (o, w') /\
     fetched w' = fetched w /\
     execution_logs w' = execution_logs w /\
     (plain_inputs request -> exists resp, o = Returns resp)).
Proof.
  split; [|apply executeFlow_test_mode].
  destruct (executeBlock_run blockId ins config true w0) as (w1 & [F L _ _ _] & Hrun).
  rewrite app_nil_r in F.
  destruct (definitionOf w0 blockId) as [[block|]|reason];
    eexists _, w1; by split_and!.
Qed.

(** ** C8: the projected outputs *)

(** C8, amended.  For every execution that reaches output projection,
    the declared names being ordinary (none is [__proto__]): the data
    of the response are a plain object; under every name it holds what
    the last declaration of that name whose source result carries
    outputs read from them, [results[sourceBlockId].outputs[sourceOutput]],
    and the key is absent, not [null], when no declaration of the name
    has such a source.  So when the declared names are distinct, each
    declared output's key holds its own lookup, or is absent when the
    lookup misses. *)
Theorem projected_outputs_match_sources (flow : Flow) (ins : value) (isTest : bool)
    (w w' : World) (r : RunResult) (outs : value) :
  runFlowExecution flow ins isTest w = (Returns r, w') ->
  run_outputs r = Some outs ->
  ordinary_names (map fo_name (outputs flow)) ->
  exists context o,
    runBlocks flow isTest (topologicalSort (blocks flow) (connections flow))
              (initialContext flow ins) w = (Returns (inr context), w') /\
    outs = VObj o /\
    respond r = jsonResponse (VObj o) 200 /\
    (forall k,
       match projectedValue context (outputs flow) k with
       | Some (Returns v) => assoc_get k o = Some v
       | Some (Throws _) => False
       | None => assoc_get k o = None /\ obj_get o k <> VNull
       end) /\
    (NoDup (map fo_name (outputs flow)) ->
     forall output, output ∈ outputs flow ->
       match sourceValue context output with
       | Some read => exists v, read = Returns v /\ assoc_get (fo_name output) o = Some v
       | None =>
           assoc_get (fo_name output) o = None /\ obj_get o (fo_name output) <> VNull
       end).
Proof.
  intros Hrun Hout Hnames.
  destruct (runFlowExecution_run flow ins isTest w) as (r' & w2 & calls & Hloop & Hrun' & _).
  rewrite Hrun in Hrun'.
  destruct r' as [e|context]; [injection Hrun' as -> <-; done|].
  destruct (buildOutputs flow context) as [outs'|reason] eqn:Hbuild; [|done].
  injection Hrun' as -> <-. simpl in Hout. injection Hout as <-.
  unfold buildOutputs in Hbuild. rewrite projectAll_steps in Hbuild.
  destruct (assignAll_plain _ _ _ ltac:(by rewrite outputSteps_names) Hbuild)
    as (o & -> & _ & Hget).
  assert (Habsent : forall k, assoc_get k o = None -> obj_get o k <> VNull).
  { intros k Hk. unfold obj_get, objectMember. rewrite Hk.
    by destruct (inb k objectPrototypeNames). }
  exists context, o. split_and!; [done | done | done | |].
  - intros k. specialize (Hget k). unfold projectedValue.
    destruct (lastAssigned _ k) as [[v|reason]|]; [done | done |].
    split; [done | by apply Habsent].
  - intros Hnd output Hin. specialize (Hget (fo_name output)).
    rewrite (lastAssigned_unique _ (fo_name output) (sourceValue context output)) in Hget.
    + destruct (sourceValue context output) as [[v|reason]|]; [by exists v | done |].
      split; [done | by apply Habsent].
    + by rewrite outputSteps_names.
    + unfold outputSteps. apply list_elem_of_fmap. by exists output.
Qed.

(** ** C9: the projection paths *)


(** ** C10: a connection whose source is no block of the flow *)

(** The indegree such a connection raised on its target is never taken
    back: it is still counted when the loop has ended. *)
Lemma dangling_degree_stays blocks connections c :
  c ∈ connections ->
  fromBlockId c ∉ blockIds blocks ->
  1 <= degree (inDegree (kahnRun blocks connections)) (toBlockId c).
Proof.
  intros Hc Hfrom. rewrite final_degree.
  assert (1 <= pending (blockIds blocks) connections
                       (topologicalSort blocks connections) (toBlockId c))%nat; [|lia].
  apply (starved_pending blocks connections _ (cut_off_starved blocks connections)).
  - by apply cut_dangling.
  - intros u Hu Hcut. by apply (cut_off_not_emitted blocks connections u).
Qed.

(** C10, amended.  For every served flow with a connection [c] whose
    [fromBlockId] is no block of the flow: the indegree [c] raised on
    its target stays counted to the end, so the target, and every block
    [v] reached only through it, is never emitted.  The planner raises
    nothing for it: once the inputs are accepted the blocks that are
    emitted run as usual and no result is recorded for the skipped
    ones.  The answer is not always a success: when an emitted block
    stops the run it is 500 EXECUTION_ERROR naming that block, which is
    never a skipped one; when the run reaches projection it is 200
    [success], and an output whose declarations are all sourced from
    skipped blocks is absent from the data; the projection itself
    cannot fail when the inputs are a plain object and no name in play
    is [__proto__]. *)
Theorem dangling_connection_skips (w : World) (s : string) (request : Request)
    (isTest : bool) (flow : Flow) (c : Connection) (v : string) (ins : value) :
  served w s = Some flow ->
  c ∈ connections flow ->
  fromBlockId c ∉ blockIds (blocks flow) ->
  cut_off (blocks flow) (connections flow) v ->
  prepareInputs flow request = Returns (inr ins) ->
  1 <= degree (inDegree (kahnRun (blocks flow) (connections flow))) (toBlockId c) /\
  (toBlockId c ∉ topologicalSort (blocks flow) (connections flow)) /\
  (v ∉ topologicalSort (blocks flow) (connections flow)) /\
  exists w' run calls,
    executeFlow s request isTest w = (Returns (answer run), w') /\
    fetched w' = fetched w ++ calls /\
    (List.length calls
     <= List.length (topologicalSort (blocks flow) (connections flow)))%nat /\
    match run with
    | Returns r =>
        (forall e, run_error r = Some e ->
           answer run = errorResponse (err_message e) 500 "EXECUTION_ERROR" /\
           exists b, err_blockId e = Some b /\
                     ~ cut_off (blocks flow) (connections flow) b) /\
        (forall outs, run_outputs r = Some outs ->
           answer run = jsonResponse (if truthy outs then outs else VObj []) 200 /\
           api_success (payload (answer run)) = true /\
           exists context,
             buildOutputs flow context = Returns outs /\
             blockResults context !! toBlockId c = None /\
             blockResults context !! v = None /\
             (ordinary_names (map fo_name (outputs flow)) ->
              exists o,
                outs = VObj o /\
                forall output,
                  output ∈ outputs flow ->
                  (forall other, other ∈ outputs flow -> fo_name other = fo_name output ->
                     cut_off (blocks flow) (connections flow) (sourceBlockId other)) ->
                  assoc_get (fo_name output) o = None))
    | Throws reason =>
        answer run = errorResponse reason 500 "EXECUTION_ERROR" /\
        exists context,
          buildOutputs flow context = Throws reason /\
          blockResults context !! toBlockId c = None /\
          blockResults context !! v = None
    end /\
    (forall props, ins = VObj props -> ordinary_store w -> ordinary_targets flow ->
       ordinary_names (map fo_name (outputs flow)) ->
       exists r, run = Returns r).
Proof.
  intros Hserved Hc Hfrom Hv Hinputs.
  split_and!.
  - by apply dangling_degree_stays.
  - by apply cut_off_not_emitted, cut_dangling.
  - by apply cut_off_not_emitted.
  - destruct (starved_flow_response w s request isTest flow
                (cut_off (blocks flow) (connections flow)) Hserved
                (cut_off_starved _ _)) as (o & w' & Hexec & _ & _ & Hcases).
    rewrite Hinputs in Hcases.
    destruct Hcases as (run & calls & -> & _ & Hfetched & Hlen & Hrun & Hplain).
    exists w', run, calls. split_and!; try done.
    destruct run as [r|reason].
    + destruct Hrun as [Herr Hout]. split.
      * intros e He. destruct (Herr e He) as [_ Hb]. split; [|done].
        simpl. unfold respond. by rewrite He.
      * intros outs Ho. destruct (Hout outs Ho) as (Hjson & context & Houts & Hnone).
        split_and!; [done | by rewrite Hjson |].
        exists context.
        split_and!; [done | by apply Hnone, cut_dangling | by apply Hnone |].
        intros Hnames. unfold buildOutputs in Houts. rewrite projectAll_steps in Houts.
        destruct (assignAll_plain _ _ _ ltac:(by rewrite outputSteps_names) Houts)
          as (oo & -> & _ & Hget).
        exists oo. split; [done|]. intros output Hin Hall.
        specialize (Hget (fo_name output)).
        rewrite lastAssigned_absent in Hget; [done|].
        intros read (other & [= Hname Hread] & Hother)%list_elem_of_fmap.
        unfold sourceValue, carried in Hread.
        by rewrite (Hnone _ (Hall other Hother (eq_sym Hname))) in Hread.
    + destruct Hrun as (Hans & context & Hbuild & Hnone).
      split; [done|]. exists context.
      split_and!; [done | by apply Hnone, cut_dangling | by apply Hnone].
Qed.

(** * Further properties of the code *)

(** ** The planner: what it emits, and in which order *)

Lemma assoc_set_key_elem {V : Type} (m : list (string * V)) k d v :
  v ∈ map fst (assoc_set k d m) <-> v ∈ map fst m \/ v = k.
Proof.
  rewrite assoc_set_keys. destruct (assoc_get k m) eqn:Hk.
  - split; [by left|]. intros [Hv| ->]; [done|].
    destruct (decide (k ∈ map fst m)) as [Hin|Hnot]; [done|].
    apply assoc_get_None in Hnot. congruence.
  - rewrite elem_of_app, list_elem_of_singleton. done.
Qed.

(** The keys of [inDegree]: the block ids and the connection targets. *)
Lemma keys_elem blocks connections v :
  v ∈ map fst (snd (buildGraph blocks connections))
  <-> v ∈ blockIds blocks \/ exists c, c ∈ connections /\ toBlockId c = v.
Proof.
  unfold buildGraph.
  assert (Hinit : forall bs g d,
            v ∈ map fst (snd (fold_left initBlock bs (g, d)))
            <-> v ∈ map fst d \/ v ∈ blockIds bs).
  { induction bs as [|b bs IH]; intros g d; simpl.
    - split; [by left | intros [?|Hn]; [done | by apply elem_of_nil in Hn]].
    - unfold initBlock at 2; simpl. rewrite IH, assoc_set_key_elem, elem_of_cons.
      tauto. }
  assert (Hbuild : forall cs g d,
            v ∈ map fst (snd (fold_left addConnection cs (g, d)))
            <-> v ∈ map fst d \/ exists c, c ∈ cs /\ toBlockId c = v).
  { induction cs as [|c cs IH]; intros g d; simpl.
    - split; [by left | intros [?|(c & Hc & _)]; [done | by apply elem_of_nil in Hc]].
    - unfold addConnection at 2; simpl. rewrite IH, assoc_set_key_elem.
      split.
      + intros [[?| ->]|(c' & Hc' & <-)]; [by left | |].
        * right. exists c. split; [apply elem_of_cons; by left | done].
        * right. exists c'. split; [apply elem_of_cons; by right | done].
      + intros [?|(c' & [->|Hc']%elem_of_cons & <-)]; [by left; left | by left; right |].
        right. by exists c'. }
  destruct (fold_left initBlock blocks (∅, [])) as [g d] eqn:Hi.
  rewrite Hbuild.
  replace d with (snd (fold_left initBlock blocks (∅, []))) by (by rewrite Hi).
  rewrite Hinit. simpl. split.
  - intros [[Hn|?]|?]; [by apply elem_of_nil in Hn | by left | by right].
  - intros [?|?]; [by left; right | by right].
Qed.

Lemma initialQueue_complete m v :
  v ∈ map fst m -> degree m v = 0 -> v ∈ initialQueue m.
Proof.
  unfold initialQueue, degree. induction m as [|[k d] m IH]; simpl.
  - intros Hv. by apply elem_of_nil in Hv.
  - intros Hv Hd. destruct (String.eqb_spec k v) as [->|Hne].
    + subst d. simpl. apply elem_of_cons. by left.
    + apply elem_of_cons in Hv as [Hv|Hv]; [by destruct Hne|].
      destruct (d =? 0); simpl; [apply elem_of_cons; right|]; by apply IH.
Qed.

Lemma pending_zero ids connections emitted v c :
  pending ids connections emitted v = 0%nat ->
  c ∈ connections -> toBlockId c = v ->
  fromBlockId c ∈ ids /\ fromBlockId c ∈ emitted.
Proof.
  unfold pending. intros Hzero Hc Hto.
  destruct (settled ids emitted c) eqn:Hs.
  - unfold settled in Hs. apply andb_prop in Hs as [H1 H2].
    split; by apply inb_elem_of.
  - assert (Hin : c ∈ List.filter
              (fun c => String.eqb (toBlockId c) v && negb (settled ids emitted c))
              connections).
    { apply list_elem_of_In, filter_In. split; [by apply list_elem_of_In|].
      by rewrite Hto, String.eqb_refl, Hs. }
    destruct (List.filter _ connections); [by apply elem_of_nil in Hin | done].
Qed.

Lemma pending_positive ids connections emitted v :
  (1 <= pending ids connections emitted v)%nat ->
  exists c, c ∈ connections /\ toBlockId c = v /\
            (fromBlockId c ∉ ids \/ fromBlockId c ∉ emitted).
Proof.
  unfold pending. intros Hpos.
  destruct (List.filter _ connections) as [|c l] eqn:Hf; [simpl in Hpos; lia|].
  assert (Hin : In c (List.filter
            (fun c => String.eqb (toBlockId c) v && negb (settled ids emitted c))
            connections)) by (rewrite Hf; by left).
  apply filter_In in Hin as [Hc [Hto Hs]%andb_prop].
  exists c. split_and!; [by apply list_elem_of_In | by apply String.eqb_eq |].
  unfold settled in Hs. apply negb_true_iff, andb_false_iff in Hs as [Hs|Hs].
  - left. by apply inb_not_elem_of.
  - right. by apply inb_not_elem_of.
Qed.

(** A node that was waiting before a pass and is ready after it has been
    enqueued by the pass. *)
Lemma fold_relax_pushes succs st v :
  1 <= degree (fst st) v ->
  degree (fst (fold_left relax succs st)) v <= 0 ->
  v ∈ snd (fold_left relax succs st).
Proof.
  revert st. induction succs as [|next succs IH]; intros st Hw Hr; simpl in *; [lia|].
  destruct (Z.le_gt_cases 1 (degree (fst (relax st next)) v)) as [Hstill|Hnow].
  { by apply IH. }
  destruct (fold_relax_queue succs (relax st next)) as (new & -> & _).
  apply elem_of_app. left. unfold relax in *; simpl in *.
  destruct (String.eqb_spec next v) as [->|Hne].
  - rewrite degree_set_eq in Hnow.
    replace (degree (fst st) v - 1 =? 0) with true by (symmetry; apply Z.eqb_eq; lia).
    apply elem_of_app. right. apply elem_of_cons. by left.
  - rewrite degree_set_ne in Hnow by done. lia.
Qed.

Lemma fold_relax_keeps succs st x :
  x ∈ snd st -> x ∈ snd (fold_left relax succs st).
Proof.
  intros Hx. destruct (fold_relax_queue succs st) as (new & -> & _).
  apply elem_of_app. by left.
Qed.

Section PlannerOrder.
Variable blocks : list FlowBlock.
Variable connections : list Connection.

Let ids := blockIds blocks.
Let graph := fst (buildGraph blocks connections).
Let keys := map fst (snd (buildGraph blocks connections)).
Let inv := planner_invariant ids connections (fun _ => False).

(** Beyond the planner's invariant: the sources of an emitted node are
    blocks emitted before it; a key that is ready is emitted or queued;
    and the nodes listed so far only grow at the end. *)
Let order_inv (st : KahnState) : Prop :=
  (forall pre v post, result st = pre ++ v :: post ->
     forall c, c ∈ connections -> toBlockId c = v ->
               fromBlockId c ∈ ids /\ fromBlockId c ∈ pre) /\
  (forall v, v ∈ keys -> degree (inDegree st) v <= 0 -> v ∈ result st ++ queue st) /\
  (exists tail, result st ++ queue st = initialQueue (snd (buildGraph blocks connections)) ++ tail) /\
  (forall v, v ∈ result st ++ queue st -> v ∈ keys).

Lemma order_inv_start : order_inv (kahnStart blocks connections).
Proof.
  split_and!; simpl.
  - intros pre v post Heq. by destruct pre.
  - intros v Hv Hd.
    pose proof (degree_start blocks connections v) as Hs.
    apply initialQueue_complete; [done | lia].
  - exists []. by rewrite app_nil_r.
  - apply initialQueue_keys.
Qed.

Lemma order_inv_step st current rest :
  inv st -> order_inv st -> queue st = current :: rest ->
  order_inv
    {| queue := snd (fold_left relax (default [] (graph !! current)) (inDegree st, rest));
       inDegree := fst (fold_left relax (default [] (graph !! current)) (inDegree st, rest));
       result := result st ++ [current] |}.
Proof.
  intros [Hdeg Honce Hready _] (Hsrc & Hlisted & (tail & Htail) & Hkeys) Hq.
  set (succs := default [] (graph !! current)).
  destruct (fold_relax_queue succs (inDegree st, rest)) as (new & Hnewq & _ & Hnew).
  pose proof (fold_relax_degree succs (inDegree st, rest)) as Hd. simpl in *.
  rewrite Hq in *.
  split_and!; simpl.
  - intros pre v post Heq c Hc Hto.
    destruct (decide (post = [])) as [->|Hpost].
    + apply app_inj_tail in Heq as [<- <-].
      apply (pending_zero ids connections (result st) current c); [|done|done].
      assert (degree (inDegree st) current <= 0)
        by (apply Hready, elem_of_app; right; apply elem_of_cons; by left).
      rewrite Hdeg in H. lia.
    + destruct (exists_last Hpost) as (post' & x & ->).
      rewrite app_comm_cons, app_assoc in Heq.
      apply app_inj_tail in Heq as [Heq _].
      by apply (Hsrc pre v post' Heq c).
  - intros v Hv Hr. rewrite Hnewq, <- app_assoc. simpl.
    destruct (Z.le_gt_cases (degree (inDegree st) v) 0) as [Hold|Hwait].
    + apply Hlisted in Hold; [|done].
      apply elem_of_app in Hold as [?|[->|?]%elem_of_cons].
      * apply elem_of_app. by left.
      * apply elem_of_app. right. apply elem_of_cons. by left.
      * apply elem_of_app. right. apply elem_of_cons. right. apply elem_of_app. by left.
    + pose proof (fold_relax_pushes succs (inDegree st, rest) v) as Hpush.
      simpl in Hpush. rewrite Hnewq in Hpush.
      apply elem_of_app. right. apply elem_of_cons. right. apply Hpush; [lia | done].
  - exists (tail ++ new). rewrite Hnewq, (app_assoc _ tail new), <- Htail, <- !app_assoc.
    done.
  - intros v Hv.
    replace ((result st ++ [current]) ++ snd (fold_left relax succs (inDegree st, rest)))
      with ((result st ++ current :: rest) ++ new) in Hv
      by (rewrite Hnewq, <- !app_assoc; done).
    apply elem_of_app in Hv as [Hv|Hv]; [by apply Hkeys|].
    apply Hnew in Hv as [Hv _]. rewrite Hdeg in Hv.
    destruct (pending_positive ids connections (result st) v) as (c & Hc & Hto & _); [lia|].
    apply keys_elem. right. by exists c.
Qed.

Lemma order_inv_kahn fuel st :
  inv st -> order_inv st ->
  inv (kahn fuel graph st) /\ order_inv (kahn fuel graph st).
Proof.
  revert st. induction fuel as [|fuel IH]; intros st Hinv Hst; simpl; [done|].
  destruct (queue st) as [|current rest] eqn:Hq; [done|].
  pose proof (order_inv_step st current rest Hinv Hst Hq) as Hstep.
  pose proof (planner_inv_step blocks connections _ (nothing_starved blocks connections)
                st current rest Hinv Hq) as Hinv'.
  fold graph in Hinv'.
  destruct (fold_left relax _ _) as [deg q]. by apply IH.
Qed.

Lemma order_inv_run : order_inv (kahnRun blocks connections).
Proof.
  apply order_inv_kahn; [|apply order_inv_start].
  apply planner_inv_start, nothing_starved.
Qed.
End PlannerOrder.

(** X1.  The order respects the connections: when an id is emitted,
    every connection into it starts at a block of the flow that was
    emitted earlier. *)
Theorem sources_emitted_first (blocks : list FlowBlock) (connections : list Connection)
    (pre post : list string) (v : string) (c : Connection) :
  topologicalSort blocks connections = pre ++ v :: post ->
  c ∈ connections ->
  toBlockId c = v ->
  fromBlockId c ∈ blockIds blocks /\ fromBlockId c ∈ pre.
Proof.
  intros Horder Hc Hto.
  destruct (order_inv_run blocks connections) as (Hsrc & _).
  by apply (Hsrc pre v post Horder c).
Qed.

Lemma sources_emitted_first_witness :
  topologicalSort lineBlocks lineConnections = ["A"; "C"; "B"] /\
  "C" ∈ ["A"; "C"].
Proof.
  split; [reflexivity|].
  apply (sources_emitted_first lineBlocks lineConnections ["A"; "C"] [] "B"
           (connect "C" "B") eq_refl);
    [apply elem_of_cons; right; apply elem_of_cons; by left | reflexivity].
Defined.

Lemma emitted_is_key blocks connections v :
  v ∈ topologicalSort blocks connections ->
  v ∈ blockIds blocks \/ exists c, c ∈ connections /\ toBlockId c = v.
Proof.
  intros Hv. destruct (order_inv_run blocks connections) as (_ & _ & _ & Hkeys).
  apply keys_elem, Hkeys, elem_of_app. by left.
Qed.

(** A block is left out exactly when one of its incoming connections
    starts at an id that is no block or that is left out itself. *)
Lemma left_out_iff blocks connections v :
  v ∈ blockIds blocks ->
  v ∉ topologicalSort blocks connections
  <-> exists c, c ∈ connections /\ toBlockId c = v /\
                (fromBlockId c ∉ blockIds blocks \/
                 fromBlockId c ∉ topologicalSort blocks connections).
Proof.
  intros Hid. split.
  - intros Hout.
    destruct (order_inv_run blocks connections) as (_ & Hlisted & _).
    apply pending_positive.
    pose proof (final_degree blocks connections v) as Hfinal.
    destruct (Z.le_gt_cases (degree (inDegree (kahnRun blocks connections)) v) 0)
      as [Hready|Hwait]; [|lia].
    apply Hlisted in Hready; [|apply keys_elem; by left].
    rewrite topologicalSort_exits, app_nil_r in Hready. by destruct Hout.
  - intros (c & Hc & Hto & Hfrom) Hin.
    apply list_elem_of_split in Hin as (pre & post & Horder).
    destruct (sources_emitted_first blocks connections pre post v c Horder Hc Hto)
      as [Hids Hpre].
    destruct Hfrom as [Hfrom|Hfrom]; [done|].
    apply Hfrom. rewrite Horder. apply elem_of_app. by left.
Qed.

Lemma cut_off_downstream blocks connections x v :
  cut_off blocks connections x -> reach connections x v ->
  cut_off blocks connections v.
Proof.
  intros Hx Hr. induction Hr as [c Hc|x c Hr IH Hc].
  - by apply cut_downstream.
  - apply cut_downstream; [done | by apply IH].
Qed.

Lemma below_cycle_starved blocks connections :
  starved blocks connections (below_cycle connections).
Proof.
  intros v (u & Hu & [<-|Hr]).
  - destruct (on_cycle_starved blocks connections u Hu) as (c & Hc & Hto & [Hf|Hf]).
    + exists c. split_and!; [done | done | by left].
    + exists c. split_and!; [done | done |]. right. exists (fromBlockId c). by split; [|left].
  - destruct (reach_last _ _ _ Hr) as (c & Hc & Hto & [Hf|Hf]).
    + exists c. split_and!; [done | done |]. right. exists u. split; [done | by left].
    + exists c. split_and!; [done | done |]. right. exists u. split; [done | by right].
Qed.

(** Walking back from a block that is left out, through blocks that are
    left out, ends at a connection from no block or closes a cycle. *)
Lemma walk_back blocks connections v n :
  forall visited x,
    NoDup (x :: visited) ->
    (forall y, y ∈ x :: visited ->
               y ∈ blockIds blocks /\ y ∉ topologicalSort blocks connections) ->
    (forall y, y ∈ visited -> reach connections x y) ->
    x = v \/ reach connections x v ->
    (List.length (blockIds blocks) <= n + List.length visited)%nat ->
    cut_off blocks connections v \/ below_cycle connections v.
Proof.
  induction n as [|n IH]; intros visited x Hnd Hstuck Hreach Hv Hlen.
  { assert (x :: visited ⊆+ blockIds blocks) as Hsub.
    { apply NoDup_submseteq; [done|]. intros y Hy. by apply Hstuck. }
    apply submseteq_length in Hsub. simpl in *. lia. }
  destruct (Hstuck x) as [Hx Hout]; [apply elem_of_cons; by left|].
  apply (left_out_iff blocks connections x Hx) in Hout as (c & Hc & Hto & Hfrom).
  assert (Hdown : forall y, cut_off blocks connections y -> y = x ->
                  cut_off blocks connections v).
  { intros y Hy ->. destruct Hv as [<-|Hr]; [done | by eapply cut_off_downstream]. }
  assert (Hedge : reach connections (fromBlockId c) x).
  { rewrite <- Hto. by apply reach_one. }
  assert (Hpv : reach connections (fromBlockId c) v).
  { destruct Hv as [<-|Hr]; [done | by eapply reach_trans]. }
  destruct (decide (fromBlockId c ∈ blockIds blocks)) as [Hblock|Hnone].
  2:{ left. apply (Hdown (toBlockId c)); [by apply cut_dangling | done]. }
  destruct Hfrom as [Hfrom|Hfrom]; [done|].
  destruct (decide (fromBlockId c ∈ x :: visited)) as [Hseen|Hfresh].
  - right. exists (fromBlockId c). split; [|by right].
    apply elem_of_cons in Hseen as [Heq|Hseen].
    + unfold on_cycle. by rewrite Heq in Hedge |- *.
    + unfold on_cycle. eapply reach_trans; [exact Hedge | by apply Hreach].
  - apply (IH (x :: visited) (fromBlockId c)).
    + by apply NoDup_cons.
    + intros y [->|Hy]%elem_of_cons; [done | by apply Hstuck].
    + intros y [->|Hy]%elem_of_cons; [done|].
      eapply reach_trans; [exact Hedge | by apply Hreach].
    + by right.
    + simpl. lia.
Qed.

(** A block left out has a cause: walking back along unsettled
    connections ends at a dangling source or closes a cycle. *)
Lemma left_out_cause blocks connections v :
  v ∈ blockIds blocks ->
  v ∉ topologicalSort blocks connections ->
  cut_off blocks connections v \/ below_cycle connections v.
Proof.
  intros Hid Hout.
  apply (walk_back blocks connections v (List.length (blockIds blocks)) [] v).
  - apply NoDup_singleton.
  - by intros y ->%list_elem_of_singleton.
  - intros y Hy. by apply elem_of_nil in Hy.
  - by left.
  - simpl. lia.
Qed.

(** X2.  What the planner leaves out: a block is missing from the
    execution order exactly when it is the target of, or downstream of, a
    connection whose source is no block of the flow, or when it lies on a
    cycle of connections or downstream of one. *)
Theorem left_out_characterised (blocks : list FlowBlock) (connections : list Connection)
    (v : string) :
  v ∈ blockIds blocks ->
  v ∉ topologicalSort blocks connections
  <-> cut_off blocks connections v \/ below_cycle connections v.
Proof.
  intros Hid. split.
  - by apply left_out_cause.
  - intros [Hcut|Hcycle].
    + by apply cut_off_not_emitted.
    + by apply (starved_not_emitted blocks connections _
                  (below_cycle_starved blocks connections)).
Qed.

Lemma left_out_characterised_witness :
  "B" ∉ topologicalSort (blocks danglingFlow) (connections danglingFlow).
Proof.
  apply (left_out_characterised (blocks danglingFlow) (connections danglingFlow) "B").
  - apply (bool_decide_unpack _). vm_compute. reflexivity.
  - left. apply (cut_dangling _ _ (connect "ghost" "B")).
    + apply elem_of_cons. by left.
    + apply (bool_decide_unpack _). vm_compute. reflexivity.
Defined.

Lemma well_formed_no_cut_off blocks connections v :
  well_formed blocks connections -> ~ cut_off blocks connections v.
Proof.
  intros [Hsrc _] Hcut. induction Hcut as [c Hc Hfrom|c Hc _ IH]; [|done].
  by apply Hfrom, Hsrc.
Qed.

(** On a well-formed graph every block is emitted. *)
Lemma well_formed_emits blocks connections v :
  well_formed blocks connections ->
  v ∈ blockIds blocks ->
  v ∈ topologicalSort blocks connections.
Proof.
  intros Hwf Hv.
  destruct (decide (v ∈ topologicalSort blocks connections)) as [|Hout]; [done|].
  destruct (left_out_cause blocks connections v Hv Hout) as [Hcut|(u & Hu & _)].
  - by destruct (well_formed_no_cut_off blocks connections v Hwf).
  - destruct Hwf as [_ Hacyclic]. by destruct (Hacyclic u).
Qed.

(** X3.  On a well-formed graph (every connection starts at a block, no
    cycle) whose connection targets are blocks too and whose block ids are
    distinct, the execution order is a permutation of the block ids: every
    block is emitted, once, and nothing else is. *)
Theorem well_formed_order_complete (blocks : list FlowBlock)
    (connections : list Connection) :
  well_formed blocks connections ->
  (forall c, c ∈ connections -> toBlockId c ∈ blockIds blocks) ->
  NoDup (blockIds blocks) ->
  topologicalSort blocks connections ≡ₚ blockIds blocks.
Proof.
  intros Hwf Htargets Hnd.
  apply NoDup_Permutation; [apply topologicalSort_NoDup | done |].
  intros v. split.
  - intros [Hv|(c & Hc & <-)]%emitted_is_key; [done | by apply Htargets].
  - by apply well_formed_emits.
Qed.

(** A rank that grows along every connection rules cycles out. *)
Lemma ranked_acyclic connections (rank : string -> nat) :
  (forall c, c ∈ connections -> (rank (fromBlockId c) < rank (toBlockId c))%nat) ->
  forall v, ~ on_cycle connections v.
Proof.
  intros Hrank.
  assert (Hreach : forall u v, reach connections u v -> (rank u < rank v)%nat).
  { intros u v Hr. induction Hr as [c Hc|u c Hr IH Hc]; [by apply Hrank|].
    specialize (Hrank c Hc). lia. }
  intros v Hv%Hreach. lia.
Qed.

Lemma line_well_formed : well_formed lineBlocks lineConnections.
Proof.
  split.
  - intros c Hc. apply (bool_decide_unpack _).
    repeat (apply elem_of_cons in Hc as [->|Hc]; [vm_compute; reflexivity|]).
    by apply elem_of_nil in Hc.
  - apply (ranked_acyclic _ lineRank). intros c Hc.
    repeat (apply elem_of_cons in Hc as [->|Hc]; [vm_compute; lia|]).
    by apply elem_of_nil in Hc.
Qed.

Lemma well_formed_order_complete_witness :
  topologicalSort lineBlocks lineConnections ≡ₚ ["A"; "B"; "C"].
Proof.
  apply (well_formed_order_complete lineBlocks lineConnections line_well_formed).
  - intros c Hc. apply (bool_decide_unpack _).
    repeat (apply elem_of_cons in Hc as [->|Hc]; [vm_compute; reflexivity|]).
    by apply elem_of_nil in Hc.
  - apply (bool_decide_unpack _). vm_compute. reflexivity.
Defined.

(** ** Ties: the stored order of the blocks *)

Lemma keys_of_blocks blocks g d :
  NoDup (map fst d ++ blockIds blocks) ->
  map fst (snd (fold_left initBlock blocks (g, d))) = map fst d ++ blockIds blocks.
Proof.
  revert g d. induction blocks as [|b bs IH]; intros g d Hnd; simpl.
  - by rewrite app_nil_r.
  - unfold initBlock at 2; simpl.
    assert (Hfresh : assoc_get (fb_id b) d = None).
    { apply assoc_get_None. apply NoDup_app in Hnd as (_ & Hdisj & _).
      intros Hin. apply (Hdisj _ Hin). apply elem_of_cons. by left. }
    rewrite IH; rewrite assoc_set_keys, Hfresh.
    + by rewrite <- app_assoc.
    + rewrite <- app_assoc. done.
Qed.

Lemma keys_of_connections connections g d :
  exists extra,
    map fst (snd (fold_left addConnection connections (g, d))) = map fst d ++ extra /\
    forall x, x ∈ extra -> exists c, c ∈ connections /\ toBlockId c = x.
Proof.
  revert g d. induction connections as [|c cs IH]; intros g d; simpl.
  - exists []. rewrite app_nil_r. split; [done|]. intros x Hx. by apply elem_of_nil in Hx.
  - unfold addConnection at 2; simpl.
    destruct (IH (match g !! fromBlockId c with
                  | Some succs => <[fromBlockId c := succs ++ [toBlockId c]]> g
                  | None => g
                  end)
                 (assoc_set (toBlockId c) (degree d (toBlockId c) + 1) d))
      as (extra & -> & Hextra).
    rewrite assoc_set_keys. destruct (assoc_get (toBlockId c) d).
    + exists extra. split; [done|]. intros x (c' & Hc' & <-)%Hextra.
      exists c'. split; [apply elem_of_cons; by right | done].
    + exists (toBlockId c :: extra). rewrite <- app_assoc. split; [done|].
      intros x [->|(c' & Hc' & <-)%Hextra]%elem_of_cons.
      * exists c. split; [apply elem_of_cons; by left | done].
      * exists c'. split; [apply elem_of_cons; by right | done].
Qed.

Lemma initialQueue_filter m :
  NoDup (map fst m) ->
  initialQueue m = List.filter (fun k => degree m k =? 0) (map fst m).
Proof.
  unfold initialQueue, degree. induction m as [|[k d] m IH]; simpl; [done|].
  intros [Hk Hnd]%NoDup_cons. rewrite String.eqb_refl.
  assert (Htail : List.filter
                    (fun k0 => match (if String.eqb k k0 then Some d else assoc_get k0 m) with
                               | Some d0 => d0
                               | None => 0
                               end =? 0) (map fst m)
                  = List.filter
                      (fun k0 => match assoc_get k0 m with Some d0 => d0 | None => 0 end =? 0)
                      (map fst m)).
  { apply filter_ext_in. intros k0 Hk0.
    destruct (String.eqb_spec k k0) as [->|Hne]; [|done].
    destruct Hk. by apply list_elem_of_In. }
  rewrite Htail, <- IH by done. by destruct (d =? 0).
Qed.

Lemma hasIncoming_pending ids connections v :
  hasIncoming connections v = negb (Z.of_nat (pending ids connections [] v) =? 0).
Proof.
  rewrite pending_start. unfold hasIncoming, pending, settled. simpl.
  induction connections as [|c cs IH]; simpl; [done|].
  by destruct (String.eqb (toBlockId c) v).
Qed.

(** X4.  Ties are broken by the stored order: with distinct block ids,
    the blocks that no connection enters are emitted first, in the order
    in which the flow stores them; without connections the execution
    order is the stored order of the blocks. *)
Theorem roots_first_in_stored_order (blocks : list FlowBlock)
    (connections : list Connection) :
  NoDup (blockIds blocks) ->
  (exists later,
     topologicalSort blocks connections
     = List.filter (fun v => negb (hasIncoming connections v)) (blockIds blocks) ++ later) /\
  topologicalSort blocks [] = blockIds blocks.
Proof.
  intros Hnd.
  assert (Hroots : forall cs, exists later,
             topologicalSort blocks cs
             = List.filter (fun v => negb (hasIncoming cs v)) (blockIds blocks) ++ later).
  { intros cs. destruct (order_inv_run blocks cs) as (_ & _ & (tail & Htail) & _).
    rewrite topologicalSort_exits, app_nil_r in Htail. exists tail.
    unfold topologicalSort. rewrite Htail. f_equal.
    rewrite initialQueue_filter by apply keys_NoDup.
    unfold buildGraph at 2.
    destruct (fold_left initBlock blocks (∅, [])) as [g d] eqn:Hinit.
    destruct (keys_of_connections cs g d) as (extra & -> & Hextra).
    replace d with (snd (fold_left initBlock blocks (∅, []))) by (by rewrite Hinit).
    rewrite keys_of_blocks by done. simpl.
    rewrite List.filter_app.
    assert (Hnone : List.filter (fun k => degree (snd (buildGraph blocks cs)) k =? 0) extra
                    = []).
    { induction extra as [|x extra IH]; simpl; [done|].
      rewrite IH by (intros y Hy; apply Hextra, elem_of_cons; by right).
      destruct (Hextra x) as (c & Hc & Hto); [apply elem_of_cons; by left|].
      rewrite degree_start. rewrite <- (negb_involutive (_ =? 0)).
      rewrite <- (hasIncoming_pending (blockIds blocks)).
      assert (hasIncoming cs x = true) as ->; [|done].
      apply existsb_exists. exists c. split; [by apply list_elem_of_In|].
      by apply String.eqb_eq. }
    rewrite Hnone, app_nil_r. apply filter_ext. intros v.
    by rewrite degree_start, (hasIncoming_pending (blockIds blocks)), negb_involutive. }
  split; [apply Hroots|].
  destruct (Hroots []) as (later & Hlater).
  assert (Hall : List.filter (fun v => negb (hasIncoming [] v)) (blockIds blocks)
                 = blockIds blocks).
  { apply forallb_filter_id, forallb_forall. by intros x _. }
  rewrite Hall in Hlater. rewrite Hlater.
  destruct later as [|x later]; [by rewrite app_nil_r|].
  pose proof (topologicalSort_NoDup blocks []) as Hdup. rewrite Hlater in Hdup.
  apply NoDup_app in Hdup as (_ & Hdisj & _).
  assert (Hx : x ∈ topologicalSort blocks []).
  { rewrite Hlater. apply elem_of_app. right. apply elem_of_cons. by left. }
  apply emitted_is_key in Hx as [Hx|(c & Hc & _)].
  - destruct (Hdisj x Hx). apply elem_of_cons. by left.
  - by apply elem_of_nil in Hc.
Qed.

Lemma roots_first_in_stored_order_witness :
  topologicalSort [instance "X" "ping" [] None; instance "A" "ping" [] None] []
  = ["X"; "A"].
Proof.
  apply (roots_first_in_stored_order [instance "X" "ping" [] None; instance "A" "ping" [] None]
           []).
  apply (bool_decide_unpack _). vm_compute. reflexivity.
Defined.

(** ** The run: order of dispatch, containment, logging *)






Lemma runBlocks_contained flow isTest executionOrder context w :
  (forall fb, fb ∈ blocks flow -> continues fb = true) ->
  exists context' w',
    runBlocks flow isTest executionOrder context w = (Returns (inr context'), w').
Proof.
  intros Hall. revert context w.
  induction executionOrder as [|blockId rest IH]; intros context w; simpl.
  { by eexists _, _. }
  destruct (List.find _ (blocks flow)) as [flowBlock|] eqn:Hfind; [|apply IH].
  apply find_some in Hfind as [Hin%list_elem_of_In _].
  rewrite bind_run. unfold runBlock at 1, try_catch. rewrite lift_run.
  rewrite (Hall flowBlock Hin). simpl.
  destruct (resolveInputMappings _ _) as [blockInputs|reason]; [|apply IH].
  rewrite bind_run.
  destruct (executeBlock _ _ _ _ w) as [[r|reason] w1]; [destruct (be_error r)|]; apply IH.
Qed.

(** X6.  Containment.  When every block instance of a flow sets
    [continueOnError], no block failure, whether a failure result or a
    thrown error, stops the run: the loop always reaches projection,
    and what the projection gives is answered 200.  With plain inputs
    and ordinary names the projection gives a plain object. *)
Theorem contained_errors_never_fail_the_flow (flow : Flow) (ins : value) (isTest : bool)
    (w : World) :
  (forall fb, fb ∈ blocks flow -> continues fb = true) ->
  exists context' w',
    runBlocks flow isTest (topologicalSort (blocks flow) (connections flow))
              (initialContext flow ins) w = (Returns (inr context'), w') /\
    runFlowExecution flow ins isTest w
    = (match buildOutputs flow context' with
       | Returns outs => Returns {| run_outputs := Some outs; run_error := None |}
       | Throws reason => Throws reason
       end, w') /\
    (forall outs,
       buildOutputs flow context' = Returns outs ->
       respond {| run_outputs := Some outs; run_error := None |}
       = jsonResponse (if truthy outs then outs else VObj []) 200) /\
    (forall o,
       ins = VObj o -> ordinary_store w -> ordinary_targets flow ->
       ordinary_names (map fo_name (outputs flow)) ->
       exists outs,
         runFlowExecution flow ins isTest w
         = (Returns {| run_outputs := Some (VObj outs); run_error := None |}, w') /\
         respond {| run_outputs := Some (VObj outs); run_error := None |}
         = jsonResponse (VObj outs) 200).
Proof.
  intros Hall.
  destruct (runBlocks_contained flow isTest
              (topologicalSort (blocks flow) (connections flow))
              (initialContext flow ins) w Hall) as (context' & w' & Hrun).
  assert (Hflow : runFlowExecution flow ins isTest w
                  = (match buildOutputs flow context' with
                     | Returns outs =>
                         Returns {| run_outputs := Some outs; run_error := None |}
                     | Throws reason => Throws reason
                     end, w')).
  { unfold runFlowExecution. rewrite bind_run, Hrun, lift_run.
    by destruct (buildOutputs flow context'). }
  exists context', w'. split_and!; [done | done | done |].
  intros o -> Hstore Htargets Hnames.
  assert (Hplain : plain_results context').
  { exact (runBlocks_plain flow isTest _ (initialContext flow (VObj o)) w context' w' o
             Hstore Htargets eq_refl (initialContext_plain flow (VObj o)) Hrun). }
  destruct (buildOutputs_returns flow context' Hnames Hplain) as (outs & Hbuild).
  exists outs. by rewrite Hflow, Hbuild.
Qed.


(** ** The entry point: lookup and defaults *)

Lemma obj_get_set_undefined (o : obj) k v :
  obj_get o k = VUndefined -> obj_get (obj_set k v o) k = v.
Proof.
  intros Hread. unfold obj_get in *. unfold obj_set.
  destruct (assoc_get k o) as [v0|] eqn:Hown.
  - by rewrite assoc_get_set_eq.
  - assert (Hk : k <> "__proto__") by (by intros ->).
    apply String.eqb_neq in Hk. rewrite Hk.
    destruct (canonical_index k) as [i|].
    + by rewrite insert_index_get_eq.
    + by rewrite assoc_get_app, Hown; simpl; rewrite String.eqb_refl.
Qed.

Section Defaults.

Let fill (l : list FlowInputDefinition) (ins : obj) : obj :=
  fold_left (fun acc input =>
               if is_undefined (obj_get acc (fi_name input))
                  && negb (is_undefined (defaultValue input))
               then obj_set (fi_name input) (defaultValue input) acc
               else acc)
            l ins.

Lemma fill_given l ins name :
  obj_get ins name <> VUndefined -> obj_get (fill l ins) name = obj_get ins name.
Proof.
  revert ins. induction l as [|input l IH]; intros ins Hgiven; [done|].
  simpl. destruct (is_undefined (obj_get ins (fi_name input))) eqn:Hundef; simpl;
    [|by apply IH].
  destruct (is_undefined (defaultValue input)); simpl; [by apply IH|].
  assert (fi_name input <> name) as Hne.
  { intros <-. by apply is_undefined_spec in Hundef. }
  rewrite IH; rewrite obj_get_set_ne; done.
Qed.

Lemma fill_undeclared l ins name :
  name ∉ map fi_name l -> obj_get (fill l ins) name = obj_get ins name.
Proof.
  revert ins. induction l as [|input l IH]; intros ins Hout; [done|].
  simpl in Hout. apply not_elem_of_cons in Hout as [Hne Hout]. simpl.
  rewrite IH by done.
  destruct (_ && _); [|done]. by rewrite obj_get_set_ne.
Qed.

Lemma fill_default l ins input :
  NoDup (map fi_name l) ->
  input ∈ l ->
  obj_get ins (fi_name input) = VUndefined ->
  obj_get (fill l ins) (fi_name input) = defaultValue input.
Proof.
  revert ins. induction l as [|first l IH]; intros ins Hnodup Hin Hgap.
  { by apply elem_of_nil in Hin. }
  simpl in Hnodup. apply NoDup_cons in Hnodup as [Hfirst Hnodup].
  apply elem_of_cons in Hin as [->|Hin]; simpl.
  - rewrite fill_undeclared by done. rewrite Hgap. simpl.
    destruct (is_undefined (defaultValue first)) eqn:Hdef; simpl.
    + apply is_undefined_spec in Hdef. by rewrite Hgap, Hdef.
    + by apply obj_get_set_undefined.
  - assert (fi_name first <> fi_name input) as Hne.
    { intros Heq. apply Hfirst. rewrite Heq. apply list_elem_of_fmap. by exists input. }
    apply IH; [done..|].
    destruct (_ && _); [|done]. by rewrite obj_get_set_ne.
Qed.

Lemma applyDefaults_fill flow o :
  applyDefaults flow (VObj o) = Returns (VObj (fill (inputs flow) o)).
Proof. apply defaultsAmong_plain. Qed.

End Defaults.

(** X8.  Defaults.  On inputs that are a plain object, with input names
    declared once, the inputs the flow runs on are the caller's with the
    gaps filled: a name that reads a value (null included, and the
    members inherited from [Object.prototype], such as [constructor])
    keeps reading it, a declared input that reads [undefined] reads its
    declared default afterwards, and a name the flow does not declare
    reads as before. *)
Theorem defaults_fill_gaps (flow : Flow) (o : obj) :
  NoDup (map fi_name (inputs flow)) ->
  exists o',
    applyDefaults flow (VObj o) = Returns (VObj o') /\
    (forall name, obj_get o name <> VUndefined -> obj_get o' name = obj_get o name) /\
    (forall input, input ∈ inputs flow ->
       obj_get o (fi_name input) = VUndefined ->
       obj_get o' (fi_name input) = defaultValue input) /\
    (forall name, name ∉ map fi_name (inputs flow) -> obj_get o' name = obj_get o name).
Proof.
  intros Hnodup. eexists. split; [apply applyDefaults_fill|]. split_and!.
  - intros name. apply fill_given.
  - intros input. by apply fill_default.
  - intros name. apply fill_undeclared.
Qed.

(** X9.  Lookup.  A slug that is not cached and that no published flow
    of the store carries (unknown, or only on drafts and archived flows)
    is answered 404 in both modes, and nothing is changed: no cache
    entry, no log, no upstream call. *)
Theorem unpublished_flow_is_not_found (w : World) (s : string) (request : Request)
    (isTest : bool) :
  cachedFlows w !! s = None ->
  (forall flow, flow ∈ flowsCollection w -> slug flow = s -> status flow <> published) ->
  executeFlow s request isTest w
  = (Returns (errorResponse "Flow not found or not published" 404 "ERROR"), w).
Proof.
  intros Hmiss Hnone.
  assert (List.find (fun flow => String.eqb (slug flow) s && is_published flow)
                    (flowsCollection w) = None) as Hfind.
  { destruct (List.find _ _) as [flow|] eqn:Hfound; [|done].
    apply find_some in Hfound as [Hin%list_elem_of_In Hflow].
    apply andb_prop in Hflow as [Hslug%String.eqb_eq Hpub].
    destruct (Hnone flow Hin Hslug). unfold is_published in Hpub.
    by destruct (status flow). }
  unfold executeFlow, loadFlow. run_m. unfold getFlowBySlug, findPublished.
  by rewrite Hmiss, Hfind.
Qed.

(** ** The upstream request and the projected outputs *)

Lemma placeInputs_app inputs l1 l2 parts :
  placeInputs inputs (l1 ++ l2) parts
  = (mid ← placeInputs inputs l1 parts; placeInputs inputs l2 mid).
Proof.
  revert parts. induction l1 as [|input l1 IH]; intros parts; simpl; [done|].
  rewrite !obind_run. destruct (placeInput inputs parts input); [apply IH | done].
Qed.

Lemma placeInputs_unsupplied inputs l parts :
  (forall input, input ∈ l -> getProp inputs (in_name input) = Returns VUndefined) ->
  placeInputs inputs l parts = Returns parts.
Proof.
  revert parts. induction l as [|input l IH]; intros parts Hall; simpl; [done|].
  unfold placeInput. rewrite (Hall input) by (apply elem_of_cons; by left). simpl.
  apply IH. intros i Hi. apply Hall, elem_of_cons. by right.
Qed.

(** What an input leaves of the body: its own value when it is declared
    [body] and has one, the body as it was otherwise. *)
Lemma placeInput_body inputs parts input parts' :
  placeInput inputs parts input = Returns parts' ->
  exists v,
    getProp inputs (in_name input) = Returns v /\
    rp_body parts' = match in_in input with
                     | in_body => if is_undefined v then rp_body parts else v
                     | _ => rp_body parts
                     end.
Proof.
  unfold placeInput. rewrite obind_run.
  destruct (getProp inputs (in_name input)) as [v|reason]; [|done].
  intros Hplace. exists v. split; [done|].
  destruct (is_undefined v).
  { injection Hplace as <-. by destruct (in_in input). }
  destruct (in_in input); rewrite ?obind_run in Hplace.
  - destruct (String_ v) as [text|]; [|done]. rewrite obind_run in Hplace.
    destruct (encodeURIComponent text); [|done]. by injection Hplace as <-.
  - destruct (String_ v) as [text|]; [|done]. by injection Hplace as <-.
  - destruct (String_ v) as [text|]; [|done]. by injection Hplace as <-.
  - by injection Hplace as <-.
Qed.

Lemma placeInputs_body_falsy inputs l parts parts' :
  (forall input v, input ∈ l -> in_in input = in_body ->
     getProp inputs (in_name input) = Returns v -> truthy v = false) ->
  placeInputs inputs l parts = Returns parts' ->
  truthy (rp_body parts) = false ->
  truthy (rp_body parts') = false.
Proof.
  revert parts. induction l as [|input l IH]; intros parts Hall; simpl.
  { by intros [= <-]. }
  rewrite obind_run.
  destruct (placeInput inputs parts input) as [parts1|reason] eqn:Hplace; [|done].
  intros Hrest Hparts. apply (IH parts1); [|done|].
  - intros i v Hi. apply Hall, elem_of_cons. by right.
  - destruct (placeInput_body _ _ _ _ Hplace) as (v & Hread & ->).
    destruct (in_in input) eqn:Hin; try done.
    destruct (is_undefined v); [done|].
    apply (Hall input v); [apply elem_of_cons; by left | done | done].
Qed.

Lemma placeInputs_body_kept inputs l parts parts' :
  (forall input, input ∈ l -> in_in input <> in_body) ->
  placeInputs inputs l parts = Returns parts' ->
  rp_body parts' = rp_body parts.
Proof.
  revert parts. induction l as [|input l IH]; intros parts Hall; simpl.
  { by intros [= <-]. }
  rewrite obind_run.
  destruct (placeInput inputs parts input) as [parts1|reason] eqn:Hplace; [|done].
  intros Hrest. rewrite (IH parts1); [| |done].
  - destruct (placeInput_body _ _ _ _ Hplace) as (v & Hread & ->).
    destruct (in_in input) eqn:Hin; try done.
    by destruct (Hall input); [apply elem_of_cons; left|].
  - intros i Hi. apply Hall, elem_of_cons. by right.
Qed.

(** X10.  Inputs without a value.  When every input a block declares
    reads [undefined] on the resolved inputs, the request is the bare
    one: the URL is the server URL followed by the path as stored,
    placeholders included, no query string is added, the only header is
    the content type and no body is sent. *)
Theorem unsupplied_inputs_are_skipped (block : Block) (inputs : value)
    (delay : option Z) :
  (forall input, input ∈ block_inputs block ->
     getProp inputs (in_name input) = Returns VUndefined) ->
  buildParts block inputs = Returns (bareParts block) /\
  url (requestOf block (bareParts block) delay) = bareUrl block /\
  fetch_headers (requestOf block (bareParts block) delay)
  = [("Content-Type", "application/json")] /\
  fetch_body (requestOf block (bareParts block) delay) = None /\
  fetch_method (requestOf block (bareParts block) delay) = method (block_source block).
Proof.
  intros Hall. split; [|done]. unfold buildParts. by apply placeInputs_unsupplied.
Qed.

(** X11.  The body.  Of a request that is built, the body sent is the
    value of the last input declared [body] when that value is truthy;
    when the value of every input declared [body] is missing or falsy
    (null, false, 0 or the empty string), no body is sent at all. *)
Theorem falsy_body_is_not_sent (block : Block) (inputs : value) (parts : RequestParts)
    (delay : option Z) :
  buildParts block inputs = Returns parts ->
  ((forall input v, input ∈ block_inputs block -> in_in input = in_body ->
      getProp inputs (in_name input) = Returns v -> truthy v = false) ->
   fetch_body (requestOf block parts delay) = None) /\
  (forall before input after v,
     block_inputs block = before ++ input :: after ->
     in_in input = in_body ->
     (forall later, later ∈ after -> in_in later <> in_body) ->
     getProp inputs (in_name input) = Returns v ->
     truthy v = true ->
     fetch_body (requestOf block parts delay) = Some v).
Proof.
  intros Hparts. split.
  - intros Hall. unfold requestOf. simpl.
    by rewrite (placeInputs_body_falsy _ _ _ _ Hall Hparts).
  - intros before input after v Hsplit Hbody Hafter Hread Htruthy.
    unfold buildParts in Hparts. rewrite Hsplit, placeInputs_app, obind_run in Hparts.
    destruct (placeInputs inputs before (bareParts block)) as [mid|reason]; [|done].
    simpl in Hparts. rewrite obind_run in Hparts.
    destruct (placeInput inputs mid input) as [parts1|reason] eqn:Hplace; [|done].
    destruct (placeInput_body _ _ _ _ Hplace) as (v' & Hread' & Hbody1).
    rewrite Hread in Hread'. injection Hread' as <-. rewrite Hbody in Hbody1.
    assert (Hdef : is_undefined v = false) by (by destruct v).
    rewrite Hdef in Hbody1.
    unfold requestOf. simpl.
    by rewrite (placeInputs_body_kept _ _ _ _ Hafter Hparts), Hbody1, Htruthy.
Qed.

(** With names that are no array indices, a call's loop appends its
    keys in declaration order. *)
Lemma callSteps_order body l o o' :
  ordinary_names (map out_name l) ->
  Forall (fun output => canonical_index (out_name output) = None) l ->
  NoDup (map fst o ++ map out_name l) ->
  assignAll (callSteps body l) (VObj o) = Returns (VObj o') ->
  map fst o' = map fst o ++ map out_name l.
Proof.
  revert o. induction l as [|output l IH]; intros o Hnames Hplain Hnodup;
    simpl in Hnames, Hplain, Hnodup; cbn [callSteps map assignAll].
  { intros [= <-]. by rewrite app_nil_r. }
  apply Forall_cons in Hnames as [Hname Hnames].
  apply Forall_cons in Hplain as [Hindex Hplain].
  rewrite obind_run. destruct (extractJsonPath body (out_path output)) as [v|]; [|done].
  cbv beta iota. rewrite obind_run, setProp_plain by done.
  assert (assoc_get (out_name output) o = None) as Hfresh.
  { apply assoc_get_None. intros Hin. apply NoDup_app in Hnodup as (_ & Hdisj & _).
    apply (Hdisj _ Hin), elem_of_cons. by left. }
  assert (Hset : obj_set (out_name output) v o = o ++ [(out_name output, v)]).
  { unfold obj_set. rewrite Hfresh, Hindex.
    apply String.eqb_neq in Hname. by rewrite Hname. }
  rewrite Hset. intros Hrun.
  rewrite (IH (o ++ [(out_name output, v)])); try done.
  - by rewrite map_app, <- app_assoc.
  - by rewrite map_app, <- app_assoc.
Qed.

(** X12.  Projected outputs of a call.  With output names declared once
    and ordinary, the outputs of an [api_call] result are a plain
    object that carries exactly the declared names, each holding what
    its path extracts from the response body; a path that finds nothing
    still gives its key, holding undefined.  The keys stand in
    declaration order when no name is an array index; an object lists
    the names that are array indices first. *)
Theorem declared_outputs_are_projected (block : Block) (body outs : value) :
  NoDup (map out_name (block_outputs block)) ->
  ordinary_names (map out_name (block_outputs block)) ->
  projectOutputs block body = Returns outs ->
  exists o,
    outs = VObj o /\
    NoDup (map fst o) /\
    (forall k, k ∈ map fst o <-> k ∈ map out_name (block_outputs block)) /\
    (Forall (fun output => canonical_index (out_name output) = None) (block_outputs block) ->
     map fst o = map out_name (block_outputs block)) /\
    (forall output, output ∈ block_outputs block ->
       exists v,
         extractJsonPath body (out_path output) = Returns v /\
         assoc_get (out_name output) o = Some v).
Proof.
  intros Hnodup Hnames. unfold projectOutputs. rewrite projectInto_steps. intros Hrun.
  pose proof (callSteps_names body (block_outputs block)) as Hkeys.
  destruct (assignAll_plain _ _ _ ltac:(by rewrite Hkeys) Hrun) as (o & -> & Hnd & Hget).
  exists o. split_and!; [done | apply Hnd, NoDup_nil_2 | | |].
  - intros k. rewrite (assignAll_keys _ _ _ k ltac:(by rewrite Hkeys) Hrun). split.
    + intros [Hnil|(read & Hin)]; [by apply elem_of_nil in Hnil|].
      rewrite <- Hkeys. apply (list_elem_of_fmap_2 fst) in Hin. exact Hin.
    + intros (output & -> & Hin)%list_elem_of_fmap. right.
      exists (extractJsonPath body (out_path output)).
      unfold callSteps. apply list_elem_of_fmap. by exists output.
  - intros Hplain. by apply (callSteps_order body _ [] o).
  - intros output Hin. specialize (Hget (out_name output)).
    rewrite (lastAssigned_unique _ (out_name output)
               (Some (extractJsonPath body (out_path output)))) in Hget.
    + destruct (extractJsonPath body (out_path output)) as [v|]; [by exists v | done].
    + by rewrite Hkeys.
    + unfold callSteps. apply list_elem_of_fmap. by exists output.
Qed.

(** ** Paths compose *)

Lemma split_nonempty sep s : split sep s <> [].
Proof.
  destruct s as [|c s]; simpl; [done|].
  destruct (Ascii.eqb c sep); [done|]. by destruct (split sep s).
Qed.

Lemma split_app sep a b :
  split sep (a +:+ String sep b) = split sep a ++ split sep b.
Proof.
  induction a as [|c a IH]; simpl.
  - by rewrite Ascii.eqb_refl.
  - rewrite IH. destruct (Ascii.eqb c sep); [done|].
    pose proof (split_nonempty sep a). by destruct (split sep a).
Qed.

Lemma walkParts_undefined parts : walkParts parts VUndefined = Returns VUndefined.
Proof. by destruct parts. Qed.

Lemma walkParts_app l1 l2 v :
  walkParts (l1 ++ l2) v = (found ← walkParts l1 v; walkParts l2 found).
Proof.
  revert v. induction l1 as [|part l1 IH]; intros v; [done|].
  assert (Hstep : forall l, match v with VNull | VUndefined => False | _ => True end ->
            walkParts (part :: l) v = (next ← pathStep v part; walkParts l next)).
  { intros l. by destruct v. }
  destruct v; try (rewrite <- app_comm_cons, !Hstep by done; rewrite !obind_run;
                   destruct (pathStep _ part); [apply IH | done]);
    simpl; by rewrite walkParts_undefined.
Qed.

Lemma strip_root_append p q :
  p <> EmptyString ->
  strip_root (p +:+ String "." q)
  = if String.eqb p "$" then q else strip_root p +:+ String "." q.
Proof.
  intros Hp. destruct p as [|c p]; [done|].
  rewrite !strip_root_spec.
  change (String c p +:+ String "." q) with (String c (p +:+ String "." q)).
  cbn [String.eqb]. destruct (Ascii.eqb c "$"); [|done].
  destruct p as [|d p]; [done|].
  change (String d p +:+ String "." q) with (String d (p +:+ String "." q)).
  cbn [String.eqb]. by destruct (Ascii.eqb d ".").
Qed.

(** X13.  Paths compose.  Extracting [p.q] is extracting [p] and then
    [q] from what was found, for every non-empty [p] (with or without
    the leading [$] or [$.]) and every [q] that is not empty and does not
    start with [$]; in particular a prefix that finds nothing makes the
    whole path yield undefined, and a prefix whose read throws makes
    the whole path throw. *)
Theorem extractJsonPath_composes (body : value) (p q : string) :
  p <> EmptyString ->
  relative q = true ->
  extractJsonPath body (p +:+ "." +:+ q)
  = (found ← extractJsonPath body p; extractJsonPath found q).
Proof.
  intros Hp Hq.
  assert (q <> EmptyString /\ q <> "$") as [Hq1 Hq2].
  { destruct q as [|c q]; [done|]. split; [done|]. intros [= -> _]. done. }
  assert (Hfound : forall found,
            extractJsonPath found q = walkParts (split "." q) found).
  { intros found. by rewrite (extractJsonPath_unfold _ q), (strip_root_relative q). }
  change (p +:+ "." +:+ q) with (p +:+ String "." q).
  rewrite (extractJsonPath_unfold body (p +:+ String "." q)).
  - rewrite strip_root_append by done.
    destruct (String.eqb_spec p "$") as [->|Hroot].
    + assert (extractJsonPath body "$" = Returns body) as -> by reflexivity.
      rewrite obind_run. cbv beta iota. by rewrite Hfound.
    + rewrite (extractJsonPath_unfold body p), split_app, walkParts_app by done.
      rewrite !obind_run. destruct (walkParts _ body); [|done].
      cbv beta iota. by rewrite Hfound.
  - by destruct p.
  - destruct p as [|c [|d p]]; done.
Qed.

(** ** The routes *)

Lemma split_segment sep s :
  all_chars (fun c => negb (Ascii.eqb c sep)) s = true -> split sep s = [s].
Proof.
  unfold all_chars. induction s as [|c s IH]; simpl; [done|].
  intros [Hc Hs]%andb_prop. rewrite IH by done.
  by destruct (Ascii.eqb c sep).
Qed.

Lemma pathParts_slug s :
  segment s = true -> pathParts ("/api/execute/" +:+ s) = ["api"; "execute"; s].
Proof.
  intros [Hne Hs]%andb_prop. unfold pathParts.
  change ("/api/execute/" +:+ s)
    with (EmptyString +:+ String "/" ("api" +:+ String "/" ("execute" +:+ String "/" s))).
  rewrite !split_app, (split_segment "/" s Hs). simpl. by rewrite Hne.
Qed.

Lemma pathParts_suffix s other :
  segment s = true -> segment other = true ->
  pathParts ("/api/execute/" +:+ s +:+ "/" +:+ other) = ["api"; "execute"; s; other].
Proof.
  intros [Hne Hs]%andb_prop [Hne' Hother]%andb_prop. unfold pathParts.
  change ("/api/execute/" +:+ s +:+ "/" +:+ other)
    with (EmptyString +:+ String "/" ("api" +:+ String "/" ("execute" +:+ String "/"
            (s +:+ String "/" other)))).
  rewrite !split_app, (split_segment "/" s Hs), (split_segment "/" other Hother).
  simpl. by rewrite Hne, Hne'.
Qed.

(** X14.  Routes.  For a slug that is a path segment: [/api/execute/slug]
    runs the flow in normal mode; [/api/execute/slug/test] runs it in
    test mode and so makes no upstream call and writes no execution log;
    [/api/execute/slug/logs] is handed to the log handler; any other
    fourth segment is ignored and the flow runs in normal mode. *)
Theorem execute_routes (getExecutionLogs : string -> M Response) (request : Request)
    (s : string) (w : World) :
  segment s = true ->
  handleExecuteApi getExecutionLogs request ("/api/execute/" +:+ s) w
  = executeFlow s request false w /\
  (exists o w',
     handleExecuteApi getExecutionLogs request ("/api/execute/" +:+ s +:+ "/test") w
     = (o, w') /\
     executeFlow s request true w = (o, w') /\
     fetched w' = fetched w /\
     execution_logs w' = execution_logs w /\
     (plain_inputs request -> exists resp, o = Returns resp)) /\
  handleExecuteApi getExecutionLogs request ("/api/execute/" +:+ s +:+ "/logs") w
  = getExecutionLogs s w /\
  (forall other, segment other = true -> other <> "test" -> other <> "logs" ->
     handleExecuteApi getExecutionLogs request ("/api/execute/" +:+ s +:+ "/" +:+ other) w
     = executeFlow s request false w).
Proof.
  intros Hs. pose proof Hs as [Hne%negb_true_iff _]%andb_prop.
  split_and!.
  - unfold handleExecuteApi. cbv zeta. rewrite pathParts_slug by done. simpl. by rewrite Hne.
  - destruct (executeFlow_test_mode s request w) as (o & w' & Hrun & Hf & Hl & Hp).
    exists o, w'. split_and!; try done.
    change "/test" with ("/" +:+ "test").
    unfold handleExecuteApi. cbv zeta. rewrite (pathParts_suffix s "test") by done.
    simpl. by rewrite Hne.
  - change "/logs" with ("/" +:+ "logs").
    unfold handleExecuteApi. cbv zeta. rewrite (pathParts_suffix s "logs") by done.
    simpl. by rewrite Hne.
  - intros other Hother Htest%String.eqb_neq Hlogs%String.eqb_neq.
    unfold handleExecuteApi. cbv zeta. rewrite (pathParts_suffix s other) by done.
    simpl. by rewrite Hne, Htest, Hlogs.
Qed.

(** ** The editor store *)

Lemma removeNode_nodes nodeId st n :
  n ∈ nodes (removeNode nodeId st) <-> n ∈ nodes st /\ node_id n <> nodeId.
Proof.
  unfold removeNode. simpl. rewrite !list_elem_of_In, filter_In, negb_true_iff.
  by rewrite String.eqb_neq.
Qed.

Lemma removeNode_edges nodeId st e :
  e ∈ edges (removeNode nodeId st)
  <-> e ∈ edges st /\ edge_source e <> nodeId /\ edge_target e <> nodeId.
Proof.
  unfold removeNode. simpl.
  rewrite !list_elem_of_In, filter_In, andb_true_iff, !negb_true_iff.
  by rewrite !String.eqb_neq.
Qed.

Lemma removeNode_ids nodeId st id :
  id ∈ map node_id (nodes (removeNode nodeId st))
  <-> id ∈ map node_id (nodes st) /\ id <> nodeId.
Proof.
  rewrite !list_elem_of_fmap. split.
  - intros (n & -> & [Hn Hne]%removeNode_nodes). split; [by exists n | done].
  - intros [(n & -> & Hn) Hne]. exists n. split; [done|]. by apply removeNode_nodes.
Qed.

(** X15.  Removing a node.  [removeNode] takes out the node and every
    edge that starts or ends at it and keeps the rest, so it never leaves
    an edge hanging: if every edge joined two nodes before, every edge
    joins two nodes afterwards. *)
Theorem removeNode_leaves_no_loose_edge (nodeId : string) (st : EditorState) :
  attached st ->
  attached (removeNode nodeId st) /\
  (nodeId ∉ map node_id (nodes (removeNode nodeId st))) /\
  (forall e, e ∈ edges (removeNode nodeId st)
     <-> e ∈ edges st /\ edge_source e <> nodeId /\ edge_target e <> nodeId) /\
  (forall n, n ∈ nodes (removeNode nodeId st) <-> n ∈ nodes st /\ node_id n <> nodeId).
Proof.
  intros Hatt. split_and!.
  - intros e (He & Hsrc & Htgt)%removeNode_edges.
    destruct (Hatt e He) as [Hs Ht]. by rewrite !removeNode_ids.
  - by intros [_ Hne]%removeNode_ids.
  - apply removeNode_edges.
  - apply removeNode_nodes.
Qed.

Lemma lineEditor_attached : attached lineEditor.
Proof.
  intros e He.
  apply elem_of_cons in He as [->|He];
    [split; apply (bool_decide_unpack _); vm_compute; reflexivity|].
  apply elem_of_cons in He as [->|He];
    [split; apply (bool_decide_unpack _); vm_compute; reflexivity|].
  by apply elem_of_nil in He.
Qed.

Lemma removeNode_leaves_no_loose_edge_witness :
  attached (removeNode "C" lineEditor) /\ edges (removeNode "C" lineEditor) = [].
Proof.
  split; [|reflexivity].
  apply (removeNode_leaves_no_loose_edge "C" lineEditor lineEditor_attached).
Defined.

Lemma joined_filter p l : joined (List.filter p l) `sublist_of` joined l.
Proof.
  induction l as [|e l IH]; simpl; [done|].
  destruct (p e); simpl; [by apply sublist_skip | by apply sublist_cons].
Qed.

Lemma joined_exists source target l :
  existsb (fun e => String.eqb (edge_source e) source && String.eqb (edge_target e) target) l
  = true <-> (source, target) ∈ joined l.
Proof.
  unfold joined. rewrite existsb_exists, list_elem_of_fmap. split.
  - intros (e & He%list_elem_of_In & [Hs%String.eqb_eq Ht%String.eqb_eq]%andb_prop).
    exists e. by rewrite Hs, Ht.
  - intros (e & [= -> ->] & He). exists e. rewrite <- list_elem_of_In.
    by rewrite !String.eqb_refl.
Qed.

(** X16.  No double edges.  Starting from edges that join each ordered
    pair of nodes at most once, [addEdge], [removeEdge] and [removeNode]
    keep it so; after [addEdge] the pair is joined, and asking for a pair
    that is already joined changes nothing and returns no id. *)
Theorem addEdge_never_doubles (now : Z) (source target edgeId nodeId : string)
    (st : EditorState) :
  NoDup (joined (edges st)) ->
  NoDup (joined (edges (snd (addEdge now source target st)))) /\
  (source, target) ∈ joined (edges (snd (addEdge now source target st))) /\
  ((source, target) ∈ joined (edges st) -> addEdge now source target st = (None, st)) /\
  NoDup (joined (edges (removeEdge edgeId st))) /\
  NoDup (joined (edges (removeNode nodeId st))).
Proof.
  intros Hnd. unfold addEdge. cbv zeta.
  destruct (existsb _ (edges st)) eqn:Hex.
  - apply joined_exists in Hex. split_and!; try done.
    + apply (sublist_NoDup _ _ Hnd), joined_filter.
    + apply (sublist_NoDup _ _ Hnd), joined_filter.
  - assert ((source, target) ∉ joined (edges st)) as Hnew.
    { intros Hin%joined_exists. congruence. }
    simpl. unfold joined. rewrite map_app. fold (joined (edges st)). simpl.
    split_and!.
    + apply NoDup_app. split_and!; [done | | apply NoDup_singleton].
      by intros x Hx ->%list_elem_of_singleton.
    + apply elem_of_app. right. by apply list_elem_of_singleton.
    + done.
    + apply (sublist_NoDup _ _ Hnd), joined_filter.
    + apply (sublist_NoDup _ _ Hnd), joined_filter.
Qed.

Lemma addEdge_never_doubles_witness :
  addEdge 1700000000000 "A" "C" lineEditor = (None, lineEditor) /\
  NoDup (joined (edges (snd (addEdge 1700000000000 "B" "A" lineEditor)))).
Proof.
  assert (NoDup (joined (edges lineEditor))) as Hnd.
  { apply (bool_decide_unpack _). vm_compute. reflexivity. }
  destruct (addEdge_never_doubles 1700000000000 "A" "C" "e1" "A" lineEditor Hnd)
    as (_ & _ & Hsame & _).
  destruct (addEdge_never_doubles 1700000000000 "B" "A" "e1" "A" lineEditor Hnd)
    as (Hkept & _).
  split; [|exact Hkept].
  apply Hsame. apply (bool_decide_unpack _). vm_compute. reflexivity.
Defined.

Lemma syncToFlow_flow st f :
  flow st = Some f ->
  exists f', flow (syncToFlow st) = Some f' /\
    blockIds (blocks f') = map node_id (nodes st) /\
    connections f' = edgeConnections (edges st).
Proof.
  intros Hf. unfold syncToFlow. rewrite Hf. eexists. split; [reflexivity|].
  split; [|done]. unfold blockIds. simpl. rewrite map_map. done.
Qed.

Lemma edgeConnections_elem l c :
  c ∈ edgeConnections l
  <-> exists e, e ∈ l /\ c = {| conn_id := edge_id e; fromBlockId := edge_source e;
                                toBlockId := edge_target e |}.
Proof.
  unfold edgeConnections. rewrite list_elem_of_fmap. split; intros (e & ? & ?); by exists e.
Qed.

(** X17.  From the editor to the engine.  When the editor's edges join
    nodes of the editor, node ids are distinct and the edges close no
    cycle, the flow that [syncToFlow] writes is executed in full: its
    execution order is a permutation of the editor's node ids. *)
Theorem saved_flow_runs_every_node (st : EditorState) (f : Flow) :
  flow st = Some f ->
  attached st ->
  NoDup (map node_id (nodes st)) ->
  (forall v, ~ on_cycle (edgeConnections (edges st)) v) ->
  exists f', flow (syncToFlow st) = Some f' /\
    connections f' = edgeConnections (edges st) /\
    topologicalSort (blocks f') (connections f') ≡ₚ map node_id (nodes st).
Proof.
  intros Hf Hatt Hnd Hacyclic.
  destruct (syncToFlow_flow st f Hf) as (f' & Hf' & Hids & Hconns).
  exists f'. split_and!; [done..|].
  apply NoDup_Permutation; [apply topologicalSort_NoDup | done |].
  intros v. rewrite <- Hids. split.
  - intros [Hv|(c & Hc & <-)]%emitted_is_key; [done|].
    rewrite Hconns in Hc. apply edgeConnections_elem in Hc as (e & He & ->).
    rewrite Hids. by apply Hatt.
  - apply well_formed_emits. split.
    + intros c Hc. rewrite Hconns in Hc. apply edgeConnections_elem in Hc as (e & He & ->).
      rewrite Hids. by apply Hatt.
    + by rewrite Hconns.
Qed.

Lemma edgeRank_acyclic (rank : string -> nat) (l : list Edge) :
  (forall e, e ∈ l -> (rank (edge_source e) < rank (edge_target e))%nat) ->
  forall v, ~ on_cycle (edgeConnections l) v.
Proof.
  intros Hrank. apply (ranked_acyclic _ rank).
  intros c (e & He & ->)%edgeConnections_elem. by apply Hrank.
Qed.

Lemma saved_flow_runs_every_node_witness :
  exists f', flow (syncToFlow lineEditor) = Some f' /\
    topologicalSort (blocks f') (connections f') ≡ₚ ["A"; "B"; "C"].
Proof.
  destruct (saved_flow_runs_every_node lineEditor (publishedFlow "line" [] [] [] []))
    as (f' & Hf' & _ & Horder).
  - reflexivity.
  - exact lineEditor_attached.
  - apply (bool_decide_unpack _). vm_compute. reflexivity.
  - apply (edgeRank_acyclic lineRank). intros e He.
    apply elem_of_cons in He as [->|He]; [vm_compute; lia|].
    apply elem_of_cons in He as [->|He]; [vm_compute; lia|].
    by apply elem_of_nil in He.
  - by exists f'.
Defined.

Lemma reach_mono l l' u v :
  (forall c, c ∈ l -> c ∈ l') -> reach l u v -> reach l' u v.
Proof.
  intros Hsub Hr. induction Hr as [c Hc|u c Hr IH Hc].
  - by apply reach_one, Hsub.
  - apply reach_more; [done | by apply Hsub].
Qed.

Lemma addEdge_edges now source target st :
  (forall e, e ∈ edges st -> e ∈ edges (snd (addEdge now source target st))) /\
  exists e, e ∈ edges (snd (addEdge now source target st)) /\
            edge_source e = source /\ edge_target e = target.
Proof.
  unfold addEdge. cbv zeta. destruct (existsb _ (edges st)) eqn:Hex; simpl.
  - split; [done|]. apply existsb_exists in Hex as (e & He%list_elem_of_In & Hst).
    apply andb_prop in Hst as [Hs%String.eqb_eq Ht%String.eqb_eq]. by exists e.
  - split; [intros e He; apply elem_of_app; by left|].
    eexists. split; [apply elem_of_app; right; by apply list_elem_of_singleton|]. done.
Qed.

(** X18.  Cycles are not refused.  [addEdge] accepts an edge from a node
    to itself and an edge that closes a cycle; in the flow [syncToFlow]
    then writes, both ends of that edge are on a cycle and the planner
    leaves them out of the execution order. *)
Theorem addEdge_accepts_cycles (now : Z) (source target : string) (st : EditorState)
    (f : Flow) :
  flow st = Some f ->
  source = target \/ reach (edgeConnections (edges st)) target source ->
  exists f', flow (syncToFlow (snd (addEdge now source target st))) = Some f' /\
    (source ∉ topologicalSort (blocks f') (connections f')) /\
    (target ∉ topologicalSort (blocks f') (connections f')).
Proof.
  intros Hf Hback.
  destruct (addEdge_edges now source target st) as [Hkept (e & He & Hs & Ht)].
  assert (flow (snd (addEdge now source target st)) = Some f) as Hf1.
  { unfold addEdge. cbv zeta. by destruct (existsb _ (edges st)). }
  destruct (syncToFlow_flow _ f Hf1) as (f' & Hf' & _ & Hconns).
  exists f'. split; [done|]. rewrite Hconns.
  set (st1 := snd (addEdge now source target st)) in *.
  assert (reach (edgeConnections (edges st1)) source target) as Hedge.
  { rewrite <- Hs, <- Ht.
    apply (reach_one _ {| conn_id := edge_id e; fromBlockId := edge_source e;
                          toBlockId := edge_target e |}).
    apply edgeConnections_elem. by exists e. }
  assert (source = target \/ reach (edgeConnections (edges st1)) target source) as Hback1.
  { destruct Hback as [->|Hr]; [by left|]. right.
    apply (reach_mono (edgeConnections (edges st))); [|done].
    intros c (e0 & He0 & ->)%edgeConnections_elem.
    apply edgeConnections_elem. exists e0. split; [by apply Hkept | done]. }
  split; apply cycle_not_emitted; unfold on_cycle.
  - destruct Hback1 as [<-|Hr]; [done|]. by eapply reach_trans.
  - destruct Hback1 as [<-|Hr]; [done|]. by eapply reach_trans.
Qed.

Lemma addEdge_accepts_cycles_witness :
  exists f', flow (syncToFlow (snd (addEdge 1700000000000 "B" "A" lineEditor))) = Some f' /\
    "A" ∉ topologicalSort (blocks f') (connections f').
Proof.
  destruct (addEdge_accepts_cycles 1700000000000 "B" "A" lineEditor
              (publishedFlow "line" [] [] [] []) eq_refl) as (f' & Hf' & _ & Hout).
  - right.
    apply (reach_more _ "A" {| conn_id := "e2"; fromBlockId := "C"; toBlockId := "B" |}).
    + apply (reach_one _ {| conn_id := "e1"; fromBlockId := "A"; toBlockId := "C" |}).
      apply elem_of_cons. by left.
    + apply elem_of_cons. right. apply elem_of_cons. by left.
  - by exists f'.
Defined.

(** ** The endpoint as a whole *)





(** ** Validation and input mappings *)

(** X20.  Validation is exact.  For a served flow and inputs on which
    every required input can be read, the answer is 400 exactly when
    some input declared required reads [undefined]: null counts as a
    value, so does a member inherited from [Object.prototype], and a
    declared default does not stand in for a required input, since
    defaults are applied after the check. *)
Theorem validation_is_exact (w : World) (s : string) (request : Request) (isTest : bool)
    (served_flow : Flow) (parsed : value) :
  served w s = Some served_flow ->
  parseInputs request = Returns parsed ->
  (forall input, input ∈ inputs served_flow -> fi_required input = true ->
     exists v, getProp parsed (fi_name input) = Returns v) ->
  exists o w',
    executeFlow s request isTest w = (o, w') /\
    ((exists resp, o = Returns resp /\ http_status resp = 400)
     <-> exists input, input ∈ inputs served_flow /\ fi_required input = true /\
                       getProp parsed (fi_name input) = Returns VUndefined).
Proof.
  intros Hserved Hparsed Hreads.
  destruct (executeFlow_run s request isTest w) as (w1 & _ & Hexec).
  rewrite Hserved in Hexec. unfold prepareInputs in Hexec.
  rewrite Hparsed, obind_run in Hexec. unfold missingRequired in Hexec.
  destruct (missingAmong (inputs served_flow) parsed) as [[input|]|reason] eqn:Hmiss.
  - simpl in Hexec. eexists _, _. split; [exact Hexec|]. split; [intros _|by eauto].
    apply missingAmong_some in Hmiss as (before & after & Hdecl & Hreq & Hread & _).
    exists input. split_and!; [|done|done].
    rewrite Hdecl. apply elem_of_app. right. apply elem_of_cons. by left.
  - assert (Hnone : ~ exists input, input ∈ inputs served_flow /\ fi_required input = true /\
                              getProp parsed (fi_name input) = Returns VUndefined).
    { intros (input & Hin & Hreq & Hread).
      destruct (proj1 (missingAmong_none _ _) Hmiss input Hin Hreq) as (v & Hv & Hdef).
      congruence. }
    rewrite obind_run in Hexec.
    destruct (applyDefaults served_flow parsed) as [ins|reason].
    + destruct Hexec as (run & w2 & _ & Hexec).
      eexists _, _. split; [exact Hexec|]. split; [|done].
      intros (resp & [= <-] & Hstatus).
      destruct (answer_status run) as [H|H]; rewrite H in Hstatus; done.
    + simpl in Hexec. eexists _, _. split; [exact Hexec|]. split; [|done].
      by intros (resp & ? & _).
  - exfalso.
    assert (Hgen : forall l,
              (forall input, input ∈ l -> fi_required input = true ->
                 exists v, getProp parsed (fi_name input) = Returns v) ->
              forall reason', missingAmong l parsed <> Throws reason').
    { induction l as [|first l IH]; intros Hl reason'; simpl; [done|].
      assert (Hrest : missingAmong l parsed <> Throws reason').
      { apply IH. intros i Hi. apply Hl, elem_of_cons. by right. }
      destruct (fi_required first) eqn:Hreq; [|done].
      destruct (Hl first ltac:(apply elem_of_cons; by left) Hreq) as (v & ->). simpl.
      by destruct (is_undefined v). }
    by apply (Hgen _ Hreads reason).
Qed.

Lemma assignAll_app l1 l2 target :
  assignAll (l1 ++ l2) target = (mid ← assignAll l1 target; assignAll l2 mid).
Proof.
  revert target. induction l1 as [|[k [read|]] l1 IH]; intros target; cbn [app assignAll];
    [done | | apply IH].
  rewrite !obind_run. destruct read as [v|]; [|done]. cbv beta iota.
  rewrite !obind_run. destruct (setProp target k v); [apply IH | done].
Qed.

Lemma lastAssigned_app l1 l2 k :
  lastAssigned (l1 ++ l2) k
  = match lastAssigned l2 k with
    | Some r => Some r
    | None => lastAssigned l1 k
    end.
Proof.
  induction l1 as [|[k0 read0] l1 IH]; simpl.
  - by destruct (lastAssigned l2 k).
  - rewrite IH. by destruct (lastAssigned l2 k).
Qed.

(** X21.  Resolved inputs.  With ordinary target names, the last
    mapping of a target decides its value: a [flow_input] mapping gives
    the flow input of that name, a [constant] mapping its value, an
    [expression] mapping the text of the expression, unevaluated; a
    [block_output] mapping gives the recorded output when the source
    has outputs and otherwise leaves whatever the earlier mappings of
    the same target resolved to. *)
Theorem last_mapping_decides (context : ExecutionContext)
    (before later : list InputMapping) (mapping : InputMapping) (res : value) :
  ordinary_names (map targetInput (before ++ mapping :: later)) ->
  (forall m, m ∈ later -> targetInput m <> targetInput mapping) ->
  resolveInputMappings (before ++ mapping :: later) context = Returns res ->
  exists o,
    res = VObj o /\
    match source mapping with
    | flow_input name =>
        getProp (ctx_inputs context) (default EmptyString name)
        = Returns (obj_get o (targetInput mapping))
    | constant v => obj_get o (targetInput mapping) = v
    | expression text =>
        obj_get o (targetInput mapping)
        = match text with Some t => VStr t | None => VUndefined end
    | block_output blockId outputName =>
        match mappedValue context blockId outputName with
        | Some read => read = Returns (obj_get o (targetInput mapping))
        | None =>
            exists o0,
              resolveInputMappings before context = Returns (VObj o0) /\
              obj_get o (targetInput mapping) = obj_get o0 (targetInput mapping)
        end
    end.
Proof.
  intros Hnames Hlater. unfold resolveInputMappings. rewrite !resolveInto_steps.
  intros Hrun.
  pose proof (mappingSteps_names context (before ++ mapping :: later)) as Hkeys.
  destruct (assignAll_plain _ _ _ ltac:(by rewrite Hkeys) Hrun) as (o & -> & _ & Hget).
  exists o. split; [done|].
  specialize (Hget (targetInput mapping)).
  assert (Hsteps : mappingSteps context (before ++ mapping :: later)
                   = mappingSteps context before
                     ++ (targetInput mapping, mappingRead context mapping)
                     :: mappingSteps context later).
  { unfold mappingSteps. by rewrite map_app. }
  rewrite Hsteps in Hget, Hrun.
  rewrite lastAssigned_app in Hget. cbn [lastAssigned] in Hget.
  rewrite (lastAssigned_absent (mappingSteps context later)) in Hget.
  2:{ intros read (m & [= Htarget _] & Hm)%list_elem_of_fmap.
      by destruct (Hlater m Hm). }
  rewrite String.eqb_refl in Hget.
  assert (Hread : forall v, mappingRead context mapping = Some (Returns v) ->
                            obj_get o (targetInput mapping) = v).
  { intros v Hv. rewrite Hv in Hget. unfold obj_get. by rewrite Hget. }
  unfold mappingRead in *.
  destruct (source mapping) as [name|blockId outputName|v|text].
  - destruct (getProp (ctx_inputs context) (default EmptyString name)) as [v|reason];
      [|done].
    by rewrite (Hread v).
  - destruct (mappedValue context blockId outputName) as [[v|reason]|]; [| done |].
    + by rewrite (Hread v).
    + rewrite assignAll_app, obind_run in Hrun.
      destruct (assignAll (mappingSteps context before) (VObj [])) as [mid|reason] eqn:Hbefore;
        [|done].
      assert (Hnames0 : ordinary_names (map fst (mappingSteps context before))).
      { rewrite mappingSteps_names. rewrite map_app in Hnames.
        by apply Forall_app in Hnames as [? _]. }
      destruct (assignAll_plain _ _ _ Hnames0 Hbefore) as (o0 & -> & _ & Hget0).
      exists o0. split; [done|]. specialize (Hget0 (targetInput mapping)).
      unfold obj_get.
      destruct (lastAssigned (mappingSteps context before) (targetInput mapping))
        as [[v|reason]|]; [| done |]; by rewrite Hget, Hget0.
  - by apply Hread.
  - by apply Hread.
Qed.

End WithHost.

(** * The scenarios, run *)

Ltac ordinary := unfold ordinary_names; repeat (constructor; [discriminate|]); constructor.

Ltac distinct := apply (bool_decide_unpack _); vm_compute; reflexivity.

(** ** C1 *)

(** C1, as stated, fails.  Scenario 4 (blocks A and B, connections A→B and
    B→A) is answered 200 with an empty [data], not 400 FLOW_INVALID; and
    with a third, unconnected block X the same cycle does not keep the
    engine from calling upstream for X. *)
Lemma C1_cycle_is_answered_200 :
  on_cycle (connections loopFlow) "A" /\
  served loopWorld "loop" = Some loopFlow /\
  fst (executeFlow scenarioHost "loop" (post []) false loopWorld)
  = Returns (jsonResponse (VObj []) 200) /\
  http_status (jsonResponse (VObj []) 200) <> 400 /\
  on_cycle (connections loopFlowX) "A" /\
  served loopWorld "loopx" = Some loopFlowX /\
  map url (fetched (snd (executeFlow scenarioHost "loopx" (post []) false loopWorld)))
  = ["https://up/ping"].
Proof.
  split_and!; try (vm_compute; reflexivity); try apply loop_on_cycle.
  discriminate.
Qed.

Lemma cycle_blocks_left_out_witness :
  served loopWorld "loop" = Some loopFlow /\
  on_cycle (connections loopFlow) "A" /\
  ("A" ∉ topologicalSort (blocks loopFlow) (connections loopFlow)).
Proof.
  split_and!; [reflexivity | apply loop_on_cycle |].
  apply (cycle_blocks_left_out scenarioHost loopWorld "loop" (post []) false loopFlow "A");
    [reflexivity | apply loop_on_cycle].
Defined.

(** ** C2 *)

(** C2: the code departs from the specification.  In the chain A→B with no
    [continueOnError] on A, the upstream of A answers 500 with a JSON
    body: A's result is a [failure], yet B is dispatched next and the flow
    is answered 200. *)
Lemma C2_non_2xx_does_not_abort :
  continues (instance "A" usersId [] None) = false /\
  (let r := executeBlock scenarioHost usersId (VObj [("id", VNum 42)]) None false
                         (chainWorld None) in
   fst r = Returns {| be_status := failure;
                      be_outputs := Some (VObj [("email", VStr "stale@x")]);
                      rawResponse :=
                        Some {| statusCode := 500;
                                data := VObj [("email", VStr "stale@x")];
                                raw_headers := [] |};
                      be_error := None |}) /\
  (let run := executeFlow scenarioHost "chain" (post [("id", VNum 42)]) false
                          (chainWorld None) in
   fst run = Returns (jsonResponse (VObj [("sent", VBool true)]) 200) /\
   map url (fetched (snd run))
   = ["https://up/users/42"; "https://up/notify?to=stale%40x"] /\
   map log_status (execution_logs (snd run)) = [success]).
Proof. cbv zeta. split_and!; vm_compute; reflexivity. Qed.

(** ** C3 *)

(** C3, as stated, fails in its second half.  The result of a lookup the
    upstream answered 500 has status [failure] and is recorded; the
    mapping [to := A.email] of the next block resolves to the address
    found in the error body, not to [undefined]. *)
Lemma C3_failed_source_is_read :
  let r := {| be_status := failure;
              be_outputs := Some (VObj [("email", VStr "stale@x")]);
              rawResponse := Some {| statusCode := 500;
                                     data := VObj [("email", VStr "stale@x")];
                                     raw_headers := [] |};
              be_error := None |} in
  let context :=
    recordResult (initialContext (chainFlow None) (VObj [("id", VNum 42)])) "A" r in
  fst (executeBlock scenarioHost usersId (VObj [("id", VNum 42)]) None false
                    (chainWorld None)) = Returns r /\
  blockResults context !! "A" = Some r /\
  be_status r = failure /\
  resolveInputMappings scenarioHost
    [{| targetInput := "to"; source := block_output (Some "A") (Some "email") |}] context
  = Returns (VObj [("to", VStr "stale@x")]) /\
  getProp scenarioHost (VObj [("to", VStr "stale@x")]) "to" <> Returns VUndefined.
Proof. cbv zeta. split_and!; try (vm_compute; reflexivity). vm_compute. discriminate. Qed.

Lemma block_output_resolution_witness :
  exists o,
    resolveInputMappings scenarioHost
      [{| targetInput := "to"; source := block_output (Some "A") (Some "email") |};
       {| targetInput := "subject"; source := constant (VStr "hello") |}]
      (initialContext (chainFlow None) (VObj []))
    = Returns (VObj o) /\
    assoc_get "to" o = None.
Proof.
  destruct (block_output_resolution scenarioHost
              [{| targetInput := "to"; source := block_output (Some "A") (Some "email") |};
               {| targetInput := "subject"; source := constant (VStr "hello") |}]
              (initialContext (chainFlow None) (VObj []))
              {| targetInput := "to"; source := block_output (Some "A") (Some "email") |}
              (Some "A") (Some "email")
              ltac:(distinct) ltac:(ordinary)
              ltac:(apply elem_of_cons; by left) eq_refl (or_introl eq_refl))
    as (Hres & _ & _).
  destruct (Hres (VObj [("subject", VStr "hello")]) eq_refl) as (o & Heq & Hnone & _).
  exists o. split; [by rewrite <- Heq | exact Hnone].
Defined.

(** ** C4 *)

(** C4, as stated, fails: in scenario 2 the body's error code is [ERROR],
    the default of [errorResponse], not [INPUT_MISSING]. *)
Lemma C4_error_code_is_ERROR :
  served echoWorld "echo" = Some echoFlow /\
  fst (executeFlow scenarioHost "echo" (post []) false echoWorld)
  = Returns (errorResponse "Missing required input: msg" 400 "ERROR") /\
  bodyText scenarioHost (errorResponse "Missing required input: msg" 400 "ERROR")
  = json_text "{'success':false,'error':{'code':'ERROR','message':'Missing required input: msg'}}" /\
  bodyText scenarioHost (errorResponse "Missing required input: msg" 400 "ERROR")
  <> json_text "{'success':false,'error':{'code':'INPUT_MISSING','message':'Missing required input: msg'}}".
Proof. split_and!; try (vm_compute; reflexivity). vm_compute. discriminate. Qed.

Lemma missing_required_input_witness :
  (exists resp w',
     executeFlow scenarioHost "echo" (post []) false echoWorld = (Returns resp, w') /\
     http_status resp = 400 /\ fetched w' = []) /\
  (exists reason w',
     executeFlow scenarioHost "echo" (postValue VNull) false echoWorld
     = (Throws reason, w') /\
     fetched w' = []).
Proof.
  split.
  - destruct (missing_required_input scenarioHost echoWorld "echo" (post []) false echoFlow
                (VObj []) eq_refl eq_refl) as (Hmissing & _ & _).
    destruct (Hmissing [] {| fi_name := "msg"; fi_required := true;
                             defaultValue := VUndefined |} [] eq_refl eq_refl eq_refl)
      as (resp & w' & Hexec & Hstatus & _ & Hfetched & _).
    + intros earlier Hin. by apply elem_of_nil in Hin.
    + exists resp, w'. by split_and!.
  - destruct (missing_required_input scenarioHost echoWorld "echo" (postValue VNull) false
                echoFlow VNull eq_refl eq_refl) as (_ & _ & Hthrows).
    destruct (Hthrows {| fi_name := "msg"; fi_required := true;
                         defaultValue := VUndefined |} eq_refl eq_refl)
      as (w' & Hexec & Hfetched & _).
    eexists _, w'. by split.
Defined.

(** ** C5 *)

(** C5, as stated, fails.  With [retryCount = 3] and an upstream that
    answers 500 and then 200, the dispatcher stops after its first
    attempt with a failure, where the specified dispatcher makes a second;
    and with [retryCount = 0] it still makes its one attempt. *)
Lemma C5_no_second_attempt :
  let request := requestOf scenarioHost pingBlock (bareParts pingBlock) None in
  fetched (snd (executeBlock scenarioHost pingId (VObj []) retryThrice false flakyWorld))
  = [request] /\
  spec_attempts 3 flaky [] request = [request; request] /\
  fetched (snd (executeBlock scenarioHost pingId (VObj []) retryThrice false flakyWorld))
  <> spec_attempts 3 flaky [] request /\
  fetched (snd (executeBlock scenarioHost pingId (VObj []) retryNever false flakyWorld))
  = [request] /\
  spec_attempts 0 flaky [] request = [] /\
  fst (executeBlock scenarioHost pingId (VObj []) retryThrice false flakyWorld)
  = Returns {| be_status := failure;
               be_outputs := Some (VObj []);
               rawResponse := Some {| statusCode := 500; data := VObj [];
                                      raw_headers := [] |};
               be_error := None |}.
Proof. cbv zeta. split_and!; try (vm_compute; reflexivity). vm_compute. discriminate. Qed.

(** ** C6 *)

(** C6, as stated, fails.  The flow [slow] sets a 5 s timeout in its own
    config and its block none: the request carries no abort signal at all,
    where the specification applies 5 s; with no timeout anywhere it
    applies 30 s and the request again carries none. *)
Lemma C6_flow_timeout_is_ignored :
  spec_timeout None slowFlow = 5000 /\
  map signal (fetched (snd (executeFlow scenarioHost "slow" (post []) false slowWorld)))
  = [None] /\
  spec_timeout None loopFlowX = 30000 /\
  map signal (fetched (snd (executeFlow scenarioHost "loopx" (post []) false loopWorld)))
  = [None] /\
  Some (spec_timeout None slowFlow)
  <> signal (requestOf scenarioHost pingBlock (bareParts pingBlock) None).
Proof. split_and!; try (vm_compute; reflexivity). vm_compute. discriminate. Qed.

Lemma instance_timeout_only_witness :
  (exists r w',
     executeApiCall scenarioHost pingBlock (VObj []) tenSeconds timedOutWorld
     = (Returns r, w') /\
     map signal (fetched w') = [Some 10000] /\
     r = failed "The operation timed out.") /\
  (exists reason,
     executeApiCall scenarioHost pingBlock (VObj []) negativeTimeout timedOutWorld
     = (Returns (failed reason), timedOutWorld)).
Proof.
  split.
  - destruct (instance_timeout_only scenarioHost pingBlock (VObj []) tenSeconds
                (bareParts pingBlock) slowFlow noFlowConfig (VObj []) false timedOutWorld
                eq_refl) as (_ & Haccepted & _).
    destruct (Haccepted 10000 eq_refl ltac:(discriminate) eq_refl)
      as (r & w' & Hexec & Hfetched & _ & Hrejected).
    exists r, w'. split_and!; [exact Hexec | by rewrite Hfetched | by apply Hrejected].
  - destruct (instance_timeout_only scenarioHost pingBlock (VObj []) negativeTimeout
                (bareParts pingBlock) slowFlow noFlowConfig (VObj []) false timedOutWorld
                eq_refl) as (_ & _ & Hrefused & _).
    eexists. apply (Hrefused (-1)); [reflexivity | discriminate | reflexivity].
Defined.

(** ** C7 *)

(** C7, as stated, fails.  In test mode the dispatch of a block whose
    definition the store does not hold returns the failure [Block not
    found], not the synthetic success; with an id that is no ObjectId the
    lookup throws; and a test invocation of a flow with such a block is
    answered 500. *)
Lemma C7_missing_definition_in_test_mode :
  definitionOf echoWorld missingId = Returns None /\
  fst (executeBlock scenarioHost missingId (VObj []) None true echoWorld)
  = Returns (failed ("Block not found: " +:+ missingId)) /\
  fst (executeBlock scenarioHost missingId (VObj []) None true echoWorld)
  <> Returns (testResult missingId) /\
  (exists reason,
     fst (executeBlock scenarioHost "ping" (VObj []) None true echoWorld) = Throws reason) /\
  served brokenWorld "broken" = Some brokenFlow /\
  fst (executeFlow scenarioHost "broken" (post []) true brokenWorld)
  = Returns (errorResponse ("Block not found: " +:+ missingId) 500 "EXECUTION_ERROR").
Proof.
  split_and!; try (vm_compute; reflexivity).
  - vm_compute. discriminate.
  - eexists. vm_compute. reflexivity.
Qed.

(** ** C8 *)

(** C8, as stated, fails.  The flow [twice] declares the output [reply]
    twice, the second time from a block Z that has no result: the lookup
    of the second declaration misses, yet the key [reply] is present in
    the data, holding what the first declaration read. *)
Lemma C8_later_miss_keeps_the_key :
  outputs twiceFlow
  = [{| fo_name := "reply"; sourceBlockId := "E"; sourceOutput := "reply" |};
     {| fo_name := "reply"; sourceBlockId := "Z"; sourceOutput := "reply" |}] /\
  match fst (runBlocks scenarioHost twiceFlow false
               (topologicalSort (blocks twiceFlow) (connections twiceFlow))
               (initialContext twiceFlow (VObj [("msg", VStr "hi")])) twiceWorld) with
  | Returns (inr context) =>
      blockResults context !! "Z" = None /\
      buildOutputs scenarioHost twiceFlow context = Returns (VObj [("reply", VStr "hi")])
  | _ => False
  end /\
  fst (executeFlow scenarioHost "twice" (post [("msg", VStr "hi")]) false twiceWorld)
  = Returns (jsonResponse (VObj [("reply", VStr "hi")]) 200) /\
  assoc_get "reply" [("reply", VStr "hi")] <> None.
Proof.
  split_and!; try (vm_compute; reflexivity).
  - vm_compute. split; reflexivity.
  - discriminate.
Qed.

Lemma projected_outputs_match_sources_witness :
  exists o,
    run_outputs (match fst (runFlowExecution scenarioHost echoFlow
                              (VObj [("msg", VStr "hi")]) false echoWorld)
                 with Returns r => r | Throws _ => {| run_outputs := None; run_error := None |}
                 end) = Some (VObj o) /\
    assoc_get "reply" o = Some (VStr "hi").
Proof.
  destruct (runFlowExecution scenarioHost echoFlow (VObj [("msg", VStr "hi")]) false
              echoWorld) as [run w'] eqn:Hrun.
  assert (Ho : run = Returns {| run_outputs := Some (VObj [("reply", VStr "hi")]);
                                run_error := None |}).
  { apply (f_equal fst) in Hrun. vm_compute in Hrun. by subst run. }
  subst run.
  destruct (projected_outputs_match_sources scenarioHost echoFlow
              (VObj [("msg", VStr "hi")]) false echoWorld w'
              _ (VObj [("reply", VStr "hi")]) Hrun eq_refl ltac:(ordinary))
    as (context & o & _ & Heq & _).
  injection Heq as <-. exists [("reply", VStr "hi")]. split; reflexivity.
Defined.

(** ** C9 *)



(** ** C10 *)

(** C10, as stated, fails.  The flow [broken] has the connection
    ghost→B and a block A whose definition does not exist: B is skipped,
    A is emitted and fails, and the answer is 500, not a success. *)
Lemma C10_emitted_block_fails :
  connect "ghost" "B" ∈ connections brokenFlow /\
  ("ghost" ∉ blockIds (blocks brokenFlow)) /\
  served brokenWorld "broken" = Some brokenFlow /\
  topologicalSort (blocks brokenFlow) (connections brokenFlow) = ["A"] /\
  fst (executeFlow scenarioHost "broken" (post []) false brokenWorld)
  = Returns (errorResponse ("Block not found: " +:+ missingId) 500 "EXECUTION_ERROR") /\
  api_success (payload (errorResponse ("Block not found: " +:+ missingId) 500
                                      "EXECUTION_ERROR")) = false.
Proof.
  split_and!; try (vm_compute; reflexivity).
  - apply elem_of_cons. by left.
  - distinct.
Qed.

Lemma dangling_connection_skips_witness :
  ("C" ∉ topologicalSort (blocks danglingFlow) (connections danglingFlow)) /\
  exists resp w',
    executeFlow scenarioHost "dangling" (post [("msg", VStr "hi")]) false danglingWorld
    = (Returns resp, w') /\
    (List.length (fetched w') <= 1)%nat.
Proof.
  destruct (dangling_connection_skips scenarioHost danglingWorld "dangling"
              (post [("msg", VStr "hi")]) false danglingFlow (connect "ghost" "B") "C"
              (VObj [("msg", VStr "hi")]) eq_refl
              ltac:(apply elem_of_cons; by left)
              ltac:(distinct)
              ltac:(apply (cut_downstream _ _ (connect "B" "C"));
                    [apply elem_of_cons; right; apply elem_of_cons; by left
                    |apply (cut_dangling _ _ (connect "ghost" "B"));
                     [apply elem_of_cons; by left | distinct]])
              eq_refl)
    as (_ & _ & HC & w' & run & calls & Hexec & Hfetched & Hlen & _).
  split; [exact HC|]. eexists _, w'. split; [exact Hexec|].
  rewrite Hfetched. simpl. replace (topologicalSort _ _) with ["A"] in Hlen by reflexivity.
  exact Hlen.
Defined.

(** ** The run, the request and the inputs *)


Lemma contained_errors_never_fail_the_flow_witness :
  exists w',
    runFlowExecution scenarioHost containedFlow (VObj []) false
                     (freshWorld [containedFlow] [] flaky)
    = (Returns {| run_outputs := Some (VObj []); run_error := None |}, w').
Proof.
  destruct (contained_errors_never_fail_the_flow scenarioHost containedFlow (VObj []) false
              (freshWorld [containedFlow] [] flaky))
    as (context' & w' & _ & _ & _ & Hplain).
  - intros fb Hfb. apply elem_of_cons in Hfb as [->|Hfb]; [reflexivity|].
    by apply elem_of_nil in Hfb.
  - destruct (Hplain [] eq_refl) as (outs & Hrun & _).
    + intros id block. unfold definitionOf. simpl.
      destruct (is_objectId id); discriminate.
    + intros fb Hfb. apply elem_of_cons in Hfb as [->|Hfb]; [constructor|].
      by apply elem_of_nil in Hfb.
    + ordinary.
    + exists w'. rewrite Hrun. apply (f_equal fst) in Hrun. vm_compute in Hrun.
      by injection Hrun as <-.
Defined.


Lemma defaults_fill_gaps_witness :
  (exists o', applyDefaults scenarioHost greetFlow (VObj [("other", VNull)])
              = Returns (VObj o') /\ obj_get o' "msg" = VStr "hello") /\
  (exists o', applyDefaults scenarioHost greetFlow (VObj [("msg", VNull)])
              = Returns (VObj o') /\ obj_get o' "msg" = VNull).
Proof.
  assert (NoDup (map fi_name (inputs greetFlow))) as Hnodup by distinct.
  split.
  - destruct (defaults_fill_gaps scenarioHost greetFlow [("other", VNull)] Hnodup)
      as (o' & Hrun & _ & Hgap & _).
    exists o'. split; [exact Hrun|].
    apply (Hgap {| fi_name := "msg"; fi_required := false; defaultValue := VStr "hello" |}).
    + apply elem_of_cons. by left.
    + reflexivity.
  - destruct (defaults_fill_gaps scenarioHost greetFlow [("msg", VNull)] Hnodup)
      as (o' & Hrun & Hgiven & _).
    exists o'. split; [exact Hrun|]. apply (Hgiven "msg"). discriminate.
Defined.

Lemma unpublished_flow_is_not_found_witness :
  executeFlow scenarioHost "draft-only" (post []) false draftWorld
  = (Returns (errorResponse "Flow not found or not published" 404 "ERROR"), draftWorld).
Proof.
  apply unpublished_flow_is_not_found.
  - reflexivity.
  - intros flow Hin Hslug.
    apply elem_of_cons in Hin as [->|Hin]; [discriminate|].
    apply elem_of_cons in Hin as [->|Hin]; [discriminate|].
    by apply elem_of_nil in Hin.
Defined.

Lemma unsupplied_inputs_are_skipped_witness :
  buildParts scenarioHost updateBlock (VObj [("name", VStr "x")])
  = Returns (bareParts updateBlock) /\
  url (requestOf scenarioHost updateBlock (bareParts updateBlock) None)
  = "https://api.example/users/{id}".
Proof.
  destruct (unsupplied_inputs_are_skipped scenarioHost updateBlock
              (VObj [("name", VStr "x")]) None) as (Hparts & Hurl & _).
  - intros input Hin.
    apply elem_of_cons in Hin as [->|Hin]; [reflexivity|].
    apply elem_of_cons in Hin as [->|Hin]; [reflexivity|].
    by apply elem_of_nil in Hin.
  - split; [exact Hparts | exact Hurl].
Defined.

Lemma falsy_body_is_not_sent_witness :
  (exists parts,
     buildParts scenarioHost updateBlock (VObj [("id", VNum 7); ("enabled", VBool false)])
     = Returns parts /\
     fetch_body (requestOf scenarioHost updateBlock parts None) = None) /\
  (exists parts,
     buildParts scenarioHost updateBlock (VObj [("id", VNum 7); ("enabled", VBool true)])
     = Returns parts /\
     fetch_body (requestOf scenarioHost updateBlock parts None) = Some (VBool true)).
Proof.
  split.
  - eexists. split; [reflexivity|].
    apply (falsy_body_is_not_sent scenarioHost updateBlock
             (VObj [("id", VNum 7); ("enabled", VBool false)]) _ None eq_refl).
    intros input v Hin Hbody.
    apply elem_of_cons in Hin as [->|Hin]; [discriminate|].
    apply elem_of_cons in Hin as [->|Hin]; [by intros [= <-]|].
    by apply elem_of_nil in Hin.
  - eexists. split; [reflexivity|].
    apply (proj2 (falsy_body_is_not_sent scenarioHost updateBlock
                    (VObj [("id", VNum 7); ("enabled", VBool true)]) _ None eq_refl)
             [{| in_name := "id"; in_in := in_path; in_required := true |}]
             {| in_name := "enabled"; in_in := in_body; in_required := false |} []).
    + reflexivity.
    + reflexivity.
    + intros later Hlater. by apply elem_of_nil in Hlater.
    + reflexivity.
    + reflexivity.
Defined.

Lemma declared_outputs_are_projected_witness :
  exists o,
    projectOutputs scenarioHost updateBlock catalogue = Returns (VObj o) /\
    map fst o = ["name"; "first"] /\
    assoc_get "first" o = Some (VObj [("name", VStr "first")]).
Proof.
  destruct (projectOutputs scenarioHost updateBlock catalogue) as [outs|reason] eqn:Hrun;
    [|apply (f_equal (fun x => match x with Returns _ => true | Throws _ => false end)) in Hrun;
      vm_compute in Hrun; discriminate].
  destruct (declared_outputs_are_projected scenarioHost updateBlock catalogue outs
              ltac:(distinct) ltac:(ordinary) Hrun)
    as (o & -> & _ & _ & Hkeys & Hvalues).
  exists o. split_and!; [reflexivity | |].
  - apply Hkeys. repeat constructor.
  - destruct (Hvalues {| out_name := "first"; out_path := "$.items[0]" |}
                ltac:(apply elem_of_cons; right; apply elem_of_cons; by left))
      as (v & Hv & Hget).
    simpl in Hget. rewrite Hget. f_equal. vm_compute in Hv. by injection Hv.
Defined.

Lemma extractJsonPath_composes_witness :
  extractJsonPath scenarioHost catalogue "$.items[1].name"
  = (found ← extractJsonPath scenarioHost catalogue "$.items[1]";
     extractJsonPath scenarioHost found "name").
Proof.
  apply (extractJsonPath_composes scenarioHost catalogue "$.items[1]" "name");
    [discriminate | reflexivity].
Defined.

Lemma execute_routes_witness :
  handleExecuteApi scenarioHost (fun _ => mret (jsonResponse (VArr []) 200)) (post [])
                   "/api/execute/echo/preview" echoWorld
  = executeFlow scenarioHost "echo" (post []) false echoWorld.
Proof.
  destruct (execute_routes scenarioHost (fun _ => mret (jsonResponse (VArr []) 200))
              (post []) "echo" echoWorld eq_refl) as (_ & _ & _ & Hother).
  apply (Hother "preview"); [reflexivity | discriminate | discriminate].
Defined.

Lemma validation_is_exact_witness :
  exists o w',
    executeFlow scenarioHost "echo" (post [("msg", VNull)]) false echoWorld = (o, w') /\
    ~ exists resp, o = Returns resp /\ http_status resp = 400.
Proof.
  destruct (validation_is_exact scenarioHost echoWorld "echo" (post [("msg", VNull)]) false
              echoFlow (VObj [("msg", VNull)]) eq_refl eq_refl)
    as (o & w' & Hexec & Hstatus).
  - intros input _ _. by eexists.
  - exists o, w'. split; [exact Hexec|].
    intros (input & Hin & _ & Hundef)%Hstatus.
    apply elem_of_cons in Hin as [->|Hin]; [discriminate|]. by apply elem_of_nil in Hin.
Defined.

Lemma last_mapping_decides_witness :
  exists o,
    resolveInputMappings scenarioHost fallbackMappings (initialContext echoFlow (VObj []))
    = Returns (VObj o) /\
    obj_get o "to" = VStr "nobody@x".
Proof.
  destruct (last_mapping_decides scenarioHost (initialContext echoFlow (VObj []))
              [{| targetInput := "to"; source := constant (VStr "nobody@x") |}]
              [{| targetInput := "subject";
                  source := expression (Some "inputs.title + '!'") |}]
              {| targetInput := "to"; source := block_output (Some "A") (Some "email") |}
              (VObj [("to", VStr "nobody@x"); ("subject", VStr "inputs.title + '!'")])
              ltac:(ordinary))
    as (o & Heq & o0 & Hbefore & Hsame).
  - intros m Hm. apply elem_of_cons in Hm as [->|Hm]; [discriminate|].
    by apply elem_of_nil in Hm.
  - reflexivity.
  - exists o. split; [by rewrite <- Heq|].
    simpl in Hsame. rewrite Hsame. vm_compute in Hbefore. by injection Hbefore as <-.
Defined.
